(** * An immutable radix tree: the Go package [iradix], embedded and verified

    The package keeps its nodes behind pointers and its edge tables in
    Go slices.  Both are modelled explicitly: a [heap] holds the node
    cells and the backing arrays of the edge slices, and every function
    of [iradix.go] and [node.go] is a computation in a state-and-panic
    monad over that heap.  A second, purely functional model on
    inductive trees is used to reason about contents; the two are
    related by a representation predicate. *)

From Stdlib Require Import ZArith.
From Stdlib.Strings Require Import Byte.
From stdpp Require Import base tactics option list numbers sorting.

Set Default Proof Using "Type".
Local Open Scope nat_scope.

(** ** Bytes and byte strings *)

Abbreviation byte := Byte.byte.

#[global] Instance byte_eq_dec : EqDecision byte := Byte.byte_eq_dec.

(** Unsigned comparison of two bytes, as Go's [<] and [>=] on [byte]. *)
Definition byte_ltb (a b : byte) : bool := Byte.to_nat a <? Byte.to_nat b.
Definition byte_geb (a b : byte) : bool := negb (byte_ltb a b).

(** [bytes.HasPrefix(s, p)] *)
Fixpoint HasPrefix (s p : list byte) {struct p} : bool :=
  match p with
  | [] => true
  | b :: p' =>
      match s with
      | [] => false
      | a :: s' => bool_decide (a = b) && HasPrefix s' p'
      end
  end.

(** [longestPrefix] finds the length of the shared prefix of two strings. *)
Fixpoint longestPrefix (k1 k2 : list byte) : nat :=
  match k1, k2 with
  | a :: k1', b :: k2' =>
      if bool_decide (a = b) then S (longestPrefix k1' k2') else 0
  | _, _ => 0
  end.

(** [concat] of two byte slices, returning a third new copy. *)
Definition concat (a b : list byte) : list byte := a ++ b.

(** Lexicographic order on byte strings ([bytes.Compare] < 0). *)
Fixpoint lex_ltb (a b : list byte) : bool :=
  match a, b with
  | [], [] => false
  | [], _ :: _ => true
  | _ :: _, [] => false
  | x :: a', y :: b' =>
      if byte_ltb x y then true
      else if bool_decide (x = y) then lex_ltb a' b' else false
  end.

Definition lex_lt (a b : list byte) : Prop := lex_ltb a b = true.

#[global] Instance lex_lt_dec (a b : list byte) : Decision (lex_lt a b) :=
  decide (lex_ltb a b = true).

(** [bytes.Compare] *)
Fixpoint Compare (a b : list byte) : comparison :=
  match a, b with
  | [], [] => Eq
  | [], _ :: _ => Lt
  | _ :: _, [] => Gt
  | x :: a', y :: b' =>
      if byte_ltb x y then Lt
      else if byte_ltb y x then Gt
      else Compare a' b'
  end.

(** ** [sort.Search]: binary search for the least index satisfying [f] *)

Fixpoint Search_loop (fuel i j : nat) (f : nat → bool) : nat :=
  match fuel with
  | 0 => i
  | S fuel' =>
      if i <? j then
        let h := (i + j) / 2 in
        if negb (f h) then Search_loop fuel' (h + 1) j f
        else Search_loop fuel' i h f
      else i
  end.

Definition Search (n : nat) (f : nat → bool) : nat := Search_loop n 0 n f.

Section Heap.

(** The values stored in the tree are opaque ([interface{}] in the source). *)
Context {V : Type}.

(** ** Data model *)

Definition addr := nat.

(** [leafNode] is used to represent a value. *)
Record leafNode := LeafNode { key : list byte; val : V }.

(** [edge] is used to represent an edge node; [node] is a pointer. *)
Record edge := Edge { label : byte; node : option addr }.

(** The zero value [edge{}]. *)
Definition zero_edge : edge := Edge "000"%byte None.

(** A Go slice of edges: backing array, offset into it and length.  The
    capacity is what remains of the backing array after the offset.  The
    nil slice has no backing array. *)
Record slice := Slice { arr : option addr; off : nat; len : nat }.

Definition nil_slice : slice := Slice None 0 0.

(** [Node] is a node in the radix tree.  Byte slices are never written
    after they are created, so [prefix] and the leaf's key are values. *)
Record Node := MkNode {
  leaf : option leafNode;
  prefix : list byte;
  edges : slice
}.

Record heap := Heap {
  nodes : list Node;
  arrays : list (list edge)
}.

Definition empty_heap : heap := Heap [] [].

(** ** The monad of heap computations that may panic *)

Inductive fault :=
| ReplacingMissingEdge   (* panic("replacing missing edge") *)
| IndexOutOfRange        (* run-time bounds check *)
| NilDereference         (* run-time nil pointer check *)
| OutOfFuel.             (* recursion bound of the model exhausted *)

Inductive result (A : Type) :=
| Ok (a : A) (h : heap)
| Panic (f : fault).
Arguments Ok {A} a h.
Arguments Panic {A} f.

Definition M (A : Type) : Type := heap → result A.

Definition ret {A} (a : A) : M A := λ h, Ok a h.
Definition bind {A B} (m : M A) (k : A → M B) : M B :=
  λ h, match m h with
       | Ok a h' => k a h'
       | Panic f => Panic f
       end.
Definition panic {A} (f : fault) : M A := λ _, Panic f.


End Heap.

Arguments leafNode : clear implicits.
Arguments Node : clear implicits.
Arguments heap : clear implicits.
Arguments result : clear implicits.
Arguments M : clear implicits.
Arguments Ok {V A} a h.
Arguments Panic {V A} f.

Notation "'do' x <- m ; k" := (bind m (λ x, k))
  (at level 10, x name, m at level 100, k at level 200).
Notation "'do' ' pat <- m ; k" := (bind m (λ x, match x with pat => k end))
  (at level 10, pat pattern, m at level 100, k at level 200).
Notation "m ;; k" := (bind m (λ _, k))
  (at level 100, k at level 200, right associativity).

Section Code.

Context {V : Type}.

Local Abbreviation M := (M V).

Implicit Types (h : heap V) (nd : Node V) (e : edge) (s : slice).

(** *** Node cells *)

Definition alloc_node (n : Node V) : M addr :=
  λ h, Ok (length (nodes h)) (Heap (nodes h ++ [n]) (arrays h)).

Definition read_node (a : addr) : M (Node V) :=
  λ h, match nodes h !! a with
       | Some n => Ok n h
       | None => Panic NilDereference
       end.

Definition write_node (a : addr) (n : Node V) : M unit :=
  λ h, match nodes h !! a with
       | Some _ => Ok () (Heap (<[a:=n]> (nodes h)) (arrays h))
       | None => Panic NilDereference
       end.

Definition set_leaf (a : addr) (l : option (leafNode V)) : M unit :=
  do n <- read_node a; write_node a (MkNode l (prefix n) (edges n)).
Definition set_prefix (a : addr) (p : list byte) : M unit :=
  do n <- read_node a; write_node a (MkNode (leaf n) p (edges n)).
Definition set_edges (a : addr) (s : slice) : M unit :=
  do n <- read_node a; write_node a (MkNode (leaf n) (prefix n) s).

(** Dereference of a [*Node] that may be nil. *)
Definition deref (p : option addr) : M addr :=
  match p with
  | Some a => ret a
  | None => panic NilDereference
  end.

(** *** Slices *)

Definition read_array (s : slice) : M (list edge) :=
  λ h, match arr s with
       | None => Ok [] h
       | Some a =>
           match arrays h !! a with
           | Some l => Ok l h
           | None => Panic NilDereference
           end
       end.

Definition cap (s : slice) : M nat :=
  do l <- read_array s; ret (length l - off s).

(** The elements [s[0], ..., s[len-1]]. *)
Definition elems (s : slice) : M (list edge) :=
  do l <- read_array s; ret (take (len s) (drop (off s) l)).

(** [s[i]] *)
Definition index (s : slice) (i : nat) : M edge :=
  do l <- read_array s;
  if i <? len s then
    match l !! (off s + i) with
    | Some e => ret e
    | None => panic IndexOutOfRange
    end
  else panic IndexOutOfRange.

(** [s[i] = e] *)
Definition set_index (s : slice) (i : nat) (e : edge) : M unit :=
  λ h, if i <? len s then
         match arr s with
         | None => Panic IndexOutOfRange
         | Some a =>
             match arrays h !! a with
             | Some l =>
                 if off s + i <? length l
                 then Ok () (Heap (nodes h) (<[a := <[off s + i := e]> l]> (arrays h)))
                 else Panic IndexOutOfRange
             | None => Panic NilDereference
             end
         end
       else Panic IndexOutOfRange.

(** [s[i:j]] *)
Definition reslice (s : slice) (i j : nat) : M slice :=
  do c <- cap s;
  if (i <=? j) && (j <=? c) then ret (Slice (arr s) (off s + i) (j - i))
  else panic IndexOutOfRange.

(** [make([]edge, n)] *)
Definition make (n : nat) : M slice :=
  λ h, Ok (Slice (Some (length (arrays h))) 0 n)
          (Heap (nodes h) (arrays h ++ [replicate n zero_edge])).

(** Stores [es] at [dst[0], dst[1], ...]. *)
Fixpoint store_from (dst : slice) (i : nat) (es : list edge) : M unit :=
  match es with
  | [] => ret ()
  | e :: es' => set_index dst i e ;; store_from dst (S i) es'
  end.

(** [copy(dst, src)]: copies [min(len(dst), len(src))] elements; the
    source is read first, so overlapping slices behave as in Go. *)
Definition copy (dst src : slice) : M nat :=
  do es <- elems src;
  let n := Nat.min (len dst) (len src) in
  store_from dst 0 (take n es) ;; ret n.

(** [append(s, e)]: in place when the capacity allows, otherwise into a
    fresh backing array.  The growth factor is the runtime's business;
    doubling is what it does for small slices. *)
Definition append (s : slice) (e : edge) : M slice :=
  do c <- cap s;
  if len s <? c then
    let s' := Slice (arr s) (off s) (S (len s)) in
    set_index s' (len s) e ;; ret s'
  else
    do es <- elems s;
    do s' <- make (Nat.max (S (len s)) (2 * c));
    store_from s' 0 (es ++ [e]) ;;
    ret (Slice (arr s') 0 (S (len s))).

(** ** Node operations ([node.go]) *)

Definition isLeaf (nd : Node V) : bool := bool_decide (is_Some (leaf nd)).

(** The index found by [sort.Search(num, func(i) { return
    n.edges[i].label >= label })] over the elements [es]. *)
Definition search_label (es : list edge) (l : byte) : nat :=
  Search (length es)
    (λ i, match es !! i with
          | Some e => byte_geb (label e) l
          | None => false
          end).

Definition addEdge (n : addr) (e : edge) : M unit :=
  do nd <- read_node n;
  let num := len (edges nd) in
  do es <- elems (edges nd);
  let idx := search_label es (label e) in
  do s <- append (edges nd) e;
  set_edges n s ;;
  if bool_decide (idx ≠ num) then
    do dst <- reslice s (idx + 1) (len s);
    do src <- reslice s idx num;
    copy dst src ;;
    set_index s idx e
  else ret ().

Definition replaceEdge (n : addr) (e : edge) : M unit :=
  do nd <- read_node n;
  let num := len (edges nd) in
  do es <- elems (edges nd);
  let idx := search_label es (label e) in
  if idx <? num then
    do e' <- index (edges nd) idx;
    if bool_decide (label e' = label e) then
      set_index (edges nd) idx (Edge (label e') (node e))
    else panic ReplacingMissingEdge
  else panic ReplacingMissingEdge.

(** Returns the index (or -1) and the child pointer (or nil). *)
Definition getEdge (n : addr) (l : byte) : M (Z * option addr) :=
  do nd <- read_node n;
  let num := len (edges nd) in
  do es <- elems (edges nd);
  let idx := search_label es l in
  if idx <? num then
    do e' <- index (edges nd) idx;
    if bool_decide (label e' = l) then ret (Z.of_nat idx, node e')
    else ret ((-1)%Z, None)
  else ret ((-1)%Z, None).

(** [getLowerBoundEdge]: the first edge whose label is not below [l]. *)
Definition getLowerBoundEdge (n : addr) (l : byte) : M (Z * option addr) :=
  do nd <- read_node n;
  let num := len (edges nd) in
  do es <- elems (edges nd);
  let idx := search_label es l in
  (* we want lower bound behavior so return even if it's not an exact match *)
  if idx <? num then
    do e' <- index (edges nd) idx;
    ret (Z.of_nat idx, node e')
  else ret ((-1)%Z, None).

Definition delEdge (n : addr) (l : byte) : M unit :=
  do nd <- read_node n;
  let num := len (edges nd) in
  do es <- elems (edges nd);
  let idx := search_label es l in
  if idx <? num then
    do e' <- index (edges nd) idx;
    if bool_decide (label e' = l) then
      do dst <- reslice (edges nd) idx num;
      do src <- reslice (edges nd) (idx + 1) num;
      copy dst src ;;
      set_index (edges nd) (num - 1) zero_edge ;;
      do s <- reslice (edges nd) 0 (num - 1);
      set_edges n s
    else ret ()
  else ret ().

(** [n.edges[idx].node = c], with Go's bounds check on a signed index. *)
Definition set_edge_node (n : addr) (idx : Z) (c : option addr) : M unit :=
  do nd <- read_node n;
  if (idx <? 0)%Z then panic IndexOutOfRange
  else
    do e <- index (edges nd) (Z.to_nat idx);
    set_index (edges nd) (Z.to_nat idx) (Edge (label e) c).

(** ** Transactions ([iradix.go]) *)

Record Tree := MkTree { tree_root : addr }.

Record Txn := MkTxn {
  root : addr;   (* the modified root for the transaction *)
  orig : addr    (* the original root *)
}.

(** [New] returns an empty Tree. *)
Definition New : M Tree :=
  do r <- alloc_node (MkNode None [] nil_slice); ret (MkTree r).

(** [Txn] starts a new transaction that can be used to mutate the tree. *)
Definition Tree_Txn (t : Tree) : Txn := MkTxn (tree_root t) (tree_root t).

(** [writeNode] returns a node to be modified: a copy of [n] with its
    own prefix and its own edges array. *)
Definition writeNode (n : addr) : M addr :=
  do nd <- read_node n;
  do nc <- alloc_node (MkNode (leaf nd) [] nil_slice);
  set_prefix nc (prefix nd) ;;
  (if bool_decide (len (edges nd) ≠ 0) then
     do s <- make (len (edges nd));
     copy s (edges nd) ;;
     set_edges nc s
   else ret ()) ;;
  ret nc.

(** [mergeChild] is called to collapse the given node with its child. *)
Definition mergeChild (n : addr) : M unit :=
  do nd <- read_node n;
  do e0 <- index (edges nd) 0;
  do child <- deref (node e0);
  do cd <- read_node child;
  set_prefix n (concat (prefix nd) (prefix cd)) ;;
  set_leaf n (leaf cd) ;;
  if bool_decide (len (edges cd) ≠ 0) then
    do s <- make (len (edges cd));
    copy s (edges cd) ;;
    set_edges n s
  else set_edges n nil_slice.

(** [insert] does a recursive insertion.  It returns the new node, and
    the previous value when one was set ([oldVal] with [didUpdate]). *)
Fixpoint insert (fuel : nat) (n : addr) (k search : list byte) (v : V)
  : M (option addr * option V) :=
  match fuel with
  | 0 => panic OutOfFuel
  | S fuel =>
      match search with
      | [] =>
          (* Handle key exhaustion *)
          do nd <- read_node n;
          let oldVal := val <$> leaf nd in
          do nc <- writeNode n;
          set_leaf nc (Some (LeafNode k v)) ;;
          ret (Some nc, oldVal)
      | c :: _ =>
          (* Look for the edge *)
          do '(idx, child) <- getEdge n c;
          match child with
          | None =>
              (* No edge, create one *)
              do ln <- alloc_node (MkNode (Some (LeafNode k v)) search nil_slice);
              let e := Edge c (Some ln) in
              do nc <- writeNode n;
              addEdge nc e ;;
              ret (Some nc, None)
          | Some child =>
              (* Determine longest prefix of the search key on match *)
              do cd <- read_node child;
              let commonPrefix := longestPrefix search (prefix cd) in
              if bool_decide (commonPrefix = length (prefix cd)) then
                let search := drop commonPrefix search in
                do '(newChild, oldVal) <- insert fuel child k search v;
                match newChild with
                | Some _ =>
                    do nc <- writeNode n;
                    set_edge_node nc idx newChild ;;
                    ret (Some nc, oldVal)
                | None => ret (None, oldVal)
                end
              else
                (* Split the node *)
                do nc <- writeNode n;
                do splitNode <- alloc_node (MkNode None (take commonPrefix search) nil_slice);
                replaceEdge nc (Edge c (Some splitNode)) ;;
                (* Restore the existing child node *)
                do modChild <- writeNode child;
                do md <- read_node modChild;
                match prefix md !! commonPrefix with
                | None => panic IndexOutOfRange
                | Some b =>
                    addEdge splitNode (Edge b (Some modChild)) ;;
                    set_prefix modChild (drop commonPrefix (prefix md)) ;;
                    (* Create a new leaf node *)
                    let lf := LeafNode k v in
                    (* If the new key is a subset, add to to this node *)
                    let search := drop commonPrefix search in
                    match search with
                    | [] => set_leaf splitNode (Some lf) ;; ret (Some nc, None)
                    | c' :: _ =>
                        (* Create a new edge for the node *)
                        do ln <- alloc_node (MkNode (Some lf) search nil_slice);
                        addEdge splitNode (Edge c' (Some ln)) ;;
                        ret (Some nc, None)
                    end
                end
          end
      end
  end.

(** [delete] does a recursive deletion. *)
Fixpoint delete (fuel : nat) (t : Txn) (n : addr) (search : list byte)
  : M (option addr * option (leafNode V)) :=
  match fuel with
  | 0 => panic OutOfFuel
  | S fuel =>
      match search with
      | [] =>
          (* Check for key exhaustion *)
          do nd <- read_node n;
          match leaf nd with
          | None => ret (None, None)
          | Some oldLeaf =>
              (* Remove the leaf node *)
              do nc <- writeNode n;
              set_leaf nc None ;;
              (* Check if this node should be merged *)
              do ncd <- read_node nc;
              (if bool_decide (n ≠ root t) && bool_decide (len (edges ncd) = 1)
               then mergeChild nc else ret ()) ;;
              ret (Some nc, Some oldLeaf)
          end
      | l :: _ =>
          (* Look for an edge *)
          do '(idx, child) <- getEdge n l;
          match child with
          | None => ret (None, None)
          | Some child =>
              do cd <- read_node child;
              if negb (HasPrefix search (prefix cd)) then ret (None, None)
              else
                (* Consume the search prefix *)
                let search := drop (length (prefix cd)) search in
                do '(newChild, lf) <- delete fuel t child search;
                match newChild with
                | None => ret (None, None)
                | Some newChild =>
                    (* Copy this node. *)
                    do nc <- writeNode n;
                    do nwd <- read_node newChild;
                    (* Delete the edge if the node has no edges *)
                    (if bool_decide (leaf nwd = None :> option (leafNode V))
                        && bool_decide (len (edges nwd) = 0)
                     then
                       delEdge nc l ;;
                       do ncd <- read_node nc;
                       if bool_decide (n ≠ root t)
                          && bool_decide (len (edges ncd) = 1)
                          && negb (isLeaf ncd)
                       then mergeChild nc else ret ()
                     else set_edge_node nc idx (Some newChild)) ;;
                    ret (Some nc, lf)
                end
          end
      end
  end.

(** The recursion of [insert] and [delete] consumes at least one byte of
    the search key per level, so the key length bounds its depth. *)
Definition depth_bound (k : list byte) : nat := S (length k).

(** [Txn.Insert] is used to add or update a given key. *)
Definition Txn_Insert (t : Txn) (k : list byte) (v : V) : M (Txn * option V) :=
  do '(newRoot, oldVal) <- insert (depth_bound k) (root t) k k v;
  let t' := match newRoot with
            | Some r => MkTxn r (orig t)
            | None => t
            end in
  ret (t', oldVal).

(** [Txn.Delete] is used to delete a given key. *)
Definition Txn_Delete (t : Txn) (k : list byte) : M (Txn * option V) :=
  do '(newRoot, lf) <- delete (depth_bound k) t (root t) k;
  let t' := match newRoot with
            | Some r => MkTxn r (orig t)
            | None => t
            end in
  ret (t', val <$> lf).

(** [Txn.Commit] finalizes the transaction and returns a new tree, and
    whether the tree has been mutated. *)
Definition Txn_Commit (t : Txn) : Tree * bool :=
  (MkTree (root t), bool_decide (root t ≠ orig t)).

(** [Tree.Insert] *)
Definition Tree_Insert (t : Tree) (k : list byte) (v : V) : M (Tree * option V) :=
  let txn := Tree_Txn t in
  do '(txn, old) <- Txn_Insert txn k v;
  ret ((Txn_Commit txn).1, old).

(** [Tree.Delete] *)
Definition Tree_Delete (t : Tree) (k : list byte) : M (Tree * option V) :=
  let txn := Tree_Txn t in
  do '(txn, old) <- Txn_Delete txn k;
  ret ((Txn_Commit txn).1, old).

(** ** Lookups and walks ([node.go]) *)

(** The loop of [Node.Get]. *)
Fixpoint Get_loop (fuel : nat) (curr : addr) (search : list byte) : M (option V) :=
  match fuel with
  | 0 => panic OutOfFuel
  | S fuel =>
      match search with
      | [] =>
          (* Check for key exhaustion *)
          do nd <- read_node curr;
          ret (val <$> leaf nd)
      | c :: _ =>
          (* Look for an edge *)
          do '(_, child) <- getEdge curr c;
          match child with
          | None => ret None
          | Some curr =>
              (* Consume the search prefix *)
              do cd <- read_node curr;
              if HasPrefix search (prefix cd)
              then Get_loop fuel curr (drop (length (prefix cd)) search)
              else ret None
          end
      end
  end.

Definition Get (n : addr) (k : list byte) : M (option V) :=
  Get_loop (depth_bound k) n k.

Definition Tree_Get (t : Tree) (k : list byte) : M (option V) := Get (tree_root t) k.
Definition Txn_Get (t : Txn) (k : list byte) : M (option V) := Get (root t) k.

(** [Minimum] is used to return the minimum value in the tree. *)
Fixpoint Minimum (fuel : nat) (curr : addr) : M (option (list byte * V)) :=
  match fuel with
  | 0 => panic OutOfFuel
  | S fuel =>
      do nd <- read_node curr;
      match leaf nd with
      | Some lf => ret (Some (key lf, val lf))
      | None =>
          if 0 <? len (edges nd) then
            do e <- index (edges nd) 0;
            do c <- deref (node e);
            Minimum fuel c
          else ret None
      end
  end.

(** [Maximum] is used to return the maximum value in the tree. *)
Fixpoint Maximum (fuel : nat) (curr : addr) : M (option (list byte * V)) :=
  match fuel with
  | 0 => panic OutOfFuel
  | S fuel =>
      do nd <- read_node curr;
      let num := len (edges nd) in
      if 0 <? num then
        do e <- index (edges nd) (num - 1);
        do c <- deref (node e);
        Maximum fuel c
      else
        match leaf nd with
        | Some lf => ret (Some (key lf, val lf))
        | None => ret None
        end
  end.

(** [WalkFn] takes a key and value, returning if iteration should be
    terminated. *)
Definition WalkFn : Type := list byte → V → bool.

(** The loop [for _, e := range n.edges] of [recursiveWalk]; [walk] is
    the recursive call and [seen] collects what [fn] has been handed. *)
Fixpoint range_edges (walk : addr → M (list (list byte * V) * bool))
    (es : list edge) (seen : list (list byte * V))
  : M (list (list byte * V) * bool) :=
  match es with
  | [] => ret (seen, false)
  | e :: es' =>
      do c <- deref (node e);
      do '(out, stop) <- walk c;
      if stop : bool then ret (seen ++ out, true)
      else range_edges walk es' (seen ++ out)
  end.

(** [recursiveWalk] does a pre-order walk of a node.  The result is the
    sequence of pairs handed to [fn], and whether the walk was aborted. *)
Fixpoint recursiveWalk (fuel : nat) (n : addr) (fn : WalkFn)
  : M (list (list byte * V) * bool) :=
  match fuel with
  | 0 => panic OutOfFuel
  | S fuel =>
      do nd <- read_node n;
      (* Visit the leaf values if any *)
      let seen := match leaf nd with
                  | Some lf => [(key lf, val lf)]
                  | None => []
                  end in
      if match leaf nd with
         | Some lf => fn (key lf) (val lf)
         | None => false
         end
      then ret (seen, true)
      else
        (* Recurse on the children *)
        do es <- elems (edges nd);
        range_edges (λ c, recursiveWalk fuel c fn) es seen
  end.

(** [Walk] is used to walk the tree. *)
Definition Walk (fuel : nat) (n : addr) (fn : WalkFn) : M (list (list byte * V)) :=
  do '(out, _) <- recursiveWalk fuel n fn; ret out.

(** ** The ordered iterator

    [node.go] creates the iterator ([Iterator{node: n}]) and provides
    [getLowerBoundEdge]; the file with the iterator itself is not among
    the sources.  Its state and its methods follow section 4.6 of the
    specification. *)

(** Modelled from the spec: the type [Iterator], of which the sources
    only show the field [node].  The specification gives it an explicit
    stack of frames [(node, nextEdgeIndex)]; the head of the list is the
    top of the stack. *)
Record Iterator := MkIterator {
  it_node : addr;
  stack : list (addr * nat)
}.

(** Modelled from the spec: [Node.Iterator].  In the sources it returns
    [Iterator{node: n}] and leaves the stack to the missing [Next]; the
    frame [(n, 0)], with which the specification has a fresh iterator
    rooted at [n] begin, is pushed here. *)
Definition Node_Iterator (n : addr) : Iterator := MkIterator n [(n, 0)].

(** Modelled from the spec: [Iterator.Next], which is missing from the
    sources.  It pops a frame; if the frame still has an unvisited edge
    it pushes the frame again with the next index and then the child of
    that edge with index 0; if the node of the frame has a leaf that was
    not emitted yet, which is at its first visit, it emits the leaf, and
    else it goes on with the next frame. *)
Fixpoint Next (fuel : nat) (it : Iterator)
  : M (Iterator * option (list byte * V)) :=
  match fuel with
  | 0 => panic OutOfFuel
  | S fuel =>
      match stack it with
      | [] => ret (it, None)
      | (n, i) :: rest =>
          do nd <- read_node n;
          do st <- (if i <? len (edges nd) then
                      do e <- index (edges nd) i;
                      do c <- deref (node e);
                      ret ((c, 0) :: (n, S i) :: rest)
                    else ret rest);
          let it' := MkIterator (it_node it) st in
          match leaf nd with
          | Some lf =>
              if i =? 0 then ret (it', Some (key lf, val lf))
              else Next fuel it'
          | None => Next fuel it'
          end
      end
  end.

(** Modelled from the spec: the descent of [Iterator.SeekLowerBound],
    which is missing from the sources.  At each node the edge is chosen
    with [getLowerBoundEdge] on the first byte of the remaining key, and
    the siblings after it stay on the stack as candidates.  An edge with
    a greater label, or with a child prefix above the corresponding slice
    of the key, has its whole subtree pushed, and the descent stops; a
    child prefix below the slice is skipped; an equal one is consumed and
    the descent goes on in the child.  A node reached with the key used
    up is not below the key, and is pushed whole. *)
Fixpoint seek (fuel : nat) (n : addr) (search : list byte)
    (st : list (addr * nat)) : M (list (addr * nat)) :=
  match fuel with
  | 0 => panic OutOfFuel
  | S fuel =>
      match search with
      | [] => ret ((n, 0) :: st)
      | c :: _ =>
          do '(idx, child) <- getLowerBoundEdge n c;
          match child with
          | None => ret st
          | Some child =>
              let i := Z.to_nat idx in
              do nd <- read_node n;
              do e <- index (edges nd) i;
              let st := (n, S i) :: st in
              do cd <- read_node child;
              if byte_ltb c (label e) then ret ((child, 0) :: st)
              else
                match Compare (prefix cd) (take (length (prefix cd)) search) with
                | Gt => ret ((child, 0) :: st)
                | Lt => ret st
                | Eq => seek fuel child (drop (length (prefix cd)) search) st
                end
          end
      end
  end.

(** Modelled from the spec: [Iterator.SeekLowerBound], which is missing
    from the sources; it positions the iterator so that the next [Next]
    returns the smallest key that is not below [key]. *)
Definition SeekLowerBound (fuel : nat) (it : Iterator) (key : list byte)
  : M Iterator :=
  do st <- seek fuel (it_node it) key [];
  ret (MkIterator (it_node it) st).

(** The loop of the tests that consumes all the keys of an iterator:
    [Next] is called until it reports no entry. *)
Fixpoint collect (fuel : nat) (it : Iterator) : M (list (list byte * V)) :=
  match fuel with
  | 0 => panic OutOfFuel
  | S fuel =>
      do '(it', r) <- Next fuel it;
      match r with
      | None => ret []
      | Some kv => do out <- collect fuel it'; ret (kv :: out)
      end
  end.

End Code.

(** ** The functional model: radix trees as an inductive type

    A [tree] is the unfolding of the node graph below one pointer.  The
    functions of this section follow the cases of the source on that
    unfolding; they scan the edges from left to right where the source
    uses binary search, which is the same on sorted labels. *)

Section Model.

Context {V : Type}.

#[warnings="-register-all"]
Inductive tree :=
| Tr (lf : option (leafNode V)) (pre : list byte) (kids : list (byte * tree)).

Definition t_leaf (t : tree) : option (leafNode V) := let 'Tr lf _ _ := t in lf.
Definition t_prefix (t : tree) : list byte := let 'Tr _ pre _ := t in pre.
Definition t_kids (t : tree) : list (byte * tree) := let 'Tr _ _ kids := t in kids.

Implicit Types (t : tree) (kids : list (byte * tree)) (k s : list byte).

(** The child under label [c], handed to [f]; [d] when there is none. *)
Fixpoint with_kid {A} (f : tree → A) (d : A) (c : byte) kids : A :=
  match kids with
  | [] => d
  | (l, t) :: ks => if bool_decide (l = c) then f t else with_kid f d c ks
  end.

Definition has_kid (c : byte) kids : bool := with_kid (λ _, true) false c kids.

(** [addEdge]: insertion before the first label that is not smaller. *)
Fixpoint add_kid (n : byte * tree) kids : list (byte * tree) :=
  match kids with
  | [] => [n]
  | (l, t) :: ks =>
      if byte_geb l n.1 then n :: (l, t) :: ks else (l, t) :: add_kid n ks
  end.

(** Replacement of the child under label [c] by its image under [f]. *)
Fixpoint upd_kid (f : tree → tree) (c : byte) kids : list (byte * tree) :=
  match kids with
  | [] => []
  | (l, t) :: ks =>
      if bool_decide (l = c) then (l, f t) :: ks else (l, t) :: upd_kid f c ks
  end.

(** [delEdge] *)
Fixpoint del_kid (c : byte) kids : list (byte * tree) :=
  match kids with
  | [] => []
  | (l, t) :: ks =>
      if bool_decide (l = c) then ks else (l, t) :: del_kid c ks
  end.

(** The leaf reached by [s] below [t], as [Get] and [delete] search it. *)
Fixpoint t_find t s : option (leafNode V) :=
  match t with
  | Tr lf pre kids =>
      match s with
      | [] => lf
      | c :: _ =>
          with_kid (λ t', if HasPrefix s (t_prefix t')
                          then t_find t' (drop (length (t_prefix t')) s)
                          else None) None c kids
      end
  end.

Definition t_get t s : option V := val <$> t_find t s.

(** The node that replaces a child [t'] whose prefix shares only [cp]
    bytes with the search key [s]. *)
Definition t_split (t' : tree) (cp : nat) k s (v : V) : tree :=
  let modChild := Tr (t_leaf t') (drop cp (t_prefix t')) (t_kids t') in
  let b := default "000"%byte (t_prefix t' !! cp) in
  let kids1 := add_kid (b, modChild) [] in
  match drop cp s with
  | [] => Tr (Some (LeafNode k v)) (take cp s) kids1
  | c' :: _ =>
      Tr None (take cp s)
         (add_kid (c', Tr (Some (LeafNode k v)) (drop cp s) []) kids1)
  end.

Fixpoint t_insert t k s (v : V) : tree :=
  match t with
  | Tr lf pre kids =>
      match s with
      | [] => Tr (Some (LeafNode k v)) pre kids
      | c :: _ =>
          if has_kid c kids then
            Tr lf pre
               (upd_kid (λ t', let cp := longestPrefix s (t_prefix t') in
                               if bool_decide (cp = length (t_prefix t'))
                               then t_insert t' k (drop cp s) v
                               else t_split t' cp k s v) c kids)
          else Tr lf pre (add_kid (c, Tr (Some (LeafNode k v)) s []) kids)
      end
  end.

(** [mergeChild] *)
Definition t_merge t : tree :=
  match t with
  | Tr _ pre ((_, Tr lf' pre' kids') :: _) => Tr lf' (concat pre pre') kids'
  | _ => t
  end.

Definition t_empty t : bool :=
  bool_decide (t_leaf t = None :> option (leafNode V))
  && bool_decide (length (t_kids t) = 0).

(** [isroot] stands for the test [n == t.root]. *)
Fixpoint t_delete (isroot : bool) t s : option tree :=
  match t with
  | Tr lf pre kids =>
      match s with
      | [] =>
          match lf with
          | None => None
          | Some _ =>
              Some (if negb isroot && bool_decide (length kids = 1)
                    then t_merge (Tr None pre kids) else Tr None pre kids)
          end
      | c :: _ =>
          with_kid
            (λ t', if HasPrefix s (t_prefix t') then
                     match t_delete false t' (drop (length (t_prefix t')) s) with
                     | None => None
                     | Some t'' =>
                         if t_empty t'' then
                           let nc := Tr lf pre (del_kid c kids) in
                           Some (if negb isroot
                                    && bool_decide (length (t_kids nc) = 1)
                                    && negb (bool_decide (is_Some lf))
                                 then t_merge nc else nc)
                         else Some (Tr lf pre (upd_kid (λ _, t'') c kids))
                     end
                   else None) None c kids
      end
  end.

(** The full pre-order listing: the leaf, then the children in order. *)
Fixpoint t_walk t : list (list byte * V) :=
  match t with
  | Tr lf pre kids =>
      match lf with
      | Some l => [(key l, val l)]
      | None => []
      end ++ mjoin (map (λ lt, t_walk lt.2) kids)
  end.

(** What a walk hands to [fn] before [fn] aborts it. *)
Fixpoint until (fn : WalkFn) (l : list (list byte * V)) : list (list byte * V) :=
  match l with
  | [] => []
  | x :: l' => if fn x.1 x.2 then [x] else x :: until fn l'
  end.

Definition aborts (fn : WalkFn) (l : list (list byte * V)) : bool :=
  existsb (λ x, fn x.1 x.2) l.

Fixpoint t_min t : option (list byte * V) :=
  match t with
  | Tr lf pre kids =>
      match lf with
      | Some l => Some (key l, val l)
      | None =>
          match kids with
          | [] => None
          | (_, t') :: _ => t_min t'
          end
      end
  end.

Fixpoint t_max t : option (list byte * V) :=
  match t with
  | Tr lf pre kids =>
      match kids with
      | [] => (λ l, (key l, val l)) <$> lf
      | (_, t0) :: ks =>
          (fix last_max (t0 : tree) (m : option (list byte * V)) ks :=
             match ks with
             | [] => m
             | (_, t') :: ks' => last_max t' (t_max t') ks'
             end) t0 (t_max t0) ks
      end
  end.

Fixpoint height t : nat :=
  match t with
  | Tr _ _ kids => S (foldr Nat.max 0 (map (λ lt, height lt.2) kids))
  end.

(** *** Representation of a tree in the heap *)

(** The slice [s] holds the elements [es] in the heap [h]. *)
Definition view (h : heap V) (sl : slice) (es : list edge) : Prop :=
  ∃ l, match arr sl with
       | None => l = []
       | Some a => arrays h !! a = Some l
       end
       ∧ off sl + len sl ≤ length l
       ∧ es = take (len sl) (drop (off sl) l).

#[warnings="-register-all"]
Inductive repr (h : heap V) : addr → tree → Prop :=
| repr_node a lf pre sl es kids :
    nodes h !! a = Some (MkNode lf pre sl) →
    view h sl es →
    Forall2 (λ e lt, label e = lt.1 ∧ ∃ c, node e = Some c ∧ repr h c lt.2)
            es kids →
    repr h a (Tr lf pre kids).

(** The deep copy [CopyNode] of the tests, taken as a value. *)
Fixpoint snapshot (fuel : nat) (h : heap V) (a : addr) : option tree :=
  match fuel with
  | 0 => None
  | S fuel =>
      nd ← nodes h !! a;
      l ← match arr (edges nd) with
          | None => Some []
          | Some b => arrays h !! b
          end;
      kids ← mapM (λ e, c ← node e; t ← snapshot fuel h c; Some (label e, t))
                  (take (len (edges nd)) (drop (off (edges nd)) l));
      Some (Tr (leaf nd) (prefix nd) kids)
  end.

(** *** Well-formed trees *)

(** Strictly ascending labels. *)
Definition ascending (ls : list byte) : Prop :=
  StronglySorted (λ a b, byte_ltb a b = true) ls.

(** [wf isroot path t]: [t] hangs below the key prefix [path]. *)
#[warnings="-register-all"]
Inductive wf : bool → list byte → tree → Prop :=
| wf_node isroot path lf pre kids :
    (isroot = true → pre = []) →
    (∀ l, lf = Some l → key l = path ++ pre) →
    ascending (kids.*1) →
    (isroot = false → lf = None → 2 ≤ length kids) →
    Forall (λ lt, head (t_prefix lt.2) = Some lt.1
                  ∧ wf false (path ++ pre) lt.2) kids →
    wf isroot path (Tr lf pre kids).

(** ** Histories of operations *)

Inductive op :=
| Insert (k : list byte) (v : V)
| Delete (k : list byte).

(** The value of the last [Insert] of [k] that no [Delete] of [k]
    follows; the history is read from its most recent operation. *)
Fixpoint last_write (rev_ops : list op) (k : list byte) : option V :=
  match rev_ops with
  | [] => None
  | Insert k' v :: r => if bool_decide (k' = k) then Some v else last_write r k
  | Delete k' :: r => if bool_decide (k' = k) then None else last_write r k
  end.

Definition history_get (ops : list op) (k : list byte) : option V :=
  last_write (rev ops) k.

Definition op_key (o : op) : list byte :=
  match o with Insert k _ | Delete k => k end.

Definition is_insert (o : op) : bool :=
  match o with Insert _ _ => true | Delete _ => false end.

(** One operation, on a committed tree and inside a transaction. *)
Definition Tree_op (t : Tree) (o : op) : M V (Tree * option V) :=
  match o with
  | Insert k v => Tree_Insert t k v
  | Delete k => Tree_Delete t k
  end.

Definition Txn_op (t : Txn) (o : op) : M V (Txn * option V) :=
  match o with
  | Insert k v => Txn_Insert t k v
  | Delete k => Txn_Delete t k
  end.

(** Applies a history to a tree with [Tree.Insert] and [Tree.Delete]. *)
Fixpoint apply_ops (t : Tree) (ops : list op) : M V Tree :=
  match ops with
  | [] => ret t
  | o :: r => do '(t', _) <- Tree_op t o; apply_ops t' r
  end.

Definition build (ops : list op) : M V Tree :=
  do t <- New; apply_ops t ops.

(** Runs a history inside one transaction, with [Txn.Insert] and
    [Txn.Delete]. *)
Fixpoint txn_ops (t : Txn) (ops : list op) : M V Txn :=
  match ops with
  | [] => ret t
  | o :: r => do '(t', _) <- Txn_op t o; txn_ops t' r
  end.

(** A history run in one transaction, which is then committed. *)
Definition transact (T : Tree) (ops : list op) : M V Tree :=
  do x <- txn_ops (Tree_Txn T) ops; ret (Txn_Commit x).1.

(** A tree built by transactions that are committed one after the other. *)
Fixpoint commit_all (T : Tree) (txs : list (list op)) : M V Tree :=
  match txs with
  | [] => ret T
  | ops :: r => do T' <- transact T ops; commit_all T' r
  end.

Definition build_txns (txs : list (list op)) : M V Tree :=
  do T <- New; commit_all T txs.

(** Whether some operation of the history replaces the working root of
    the transaction that runs it. *)
Fixpoint root_replaced (t : Txn) (ops : list op) : M V bool :=
  match ops with
  | [] => ret false
  | o :: r =>
      do '(t', _) <- Txn_op t o;
      do b <- root_replaced t' r;
      ret (bool_decide (root t' ≠ root t) || b)
  end.

(** Two transactions that take turns: each step names the transaction
    that runs it ([true] for the first). *)
Fixpoint interleave (a b : Txn) (sched : list (bool * op)) : M V (Txn * Txn) :=
  match sched with
  | [] => ret (a, b)
  | (true, o) :: r => do '(a', _) <- Txn_op a o; interleave a' b r
  | (false, o) :: r => do '(b', _) <- Txn_op b o; interleave a b' r
  end.

(** One operation on the unfolding of a whole tree. *)
Definition apply_op (t : tree) (o : op) : tree :=
  match o with
  | Insert k v => t_insert t k k v
  | Delete k => default t (t_delete true t k)
  end.

(** The unfolding of the tree that a history builds. *)
Definition model (ops : list op) : tree := foldl apply_op (Tr None [] []) ops.

(** The root [a] holds the well-formed tree [t] in the heap [h]. *)
Definition tree_inv (h : heap V) (a : addr) (t : tree) : Prop :=
  repr h a t ∧ wf true [] t.

(** The in-order key/value listing of a tree: a [Walk] that never stops. *)
Definition listing (fuel : nat) (T : Tree) : M V (list (list byte * V)) :=
  Walk fuel (tree_root T) (λ _ _, false).

(** [Tree.Insert] of a key, then [Tree.Delete] of the same key. *)
Definition insert_then_delete (T : Tree) (k : list byte) (v : V) : M V Tree :=
  do '(T1, _) <- Tree_Insert T k v;
  do '(T2, _) <- Tree_Delete T1 k;
  ret T2.

(** ** Nodes of a tree *)

(** [node_of h a n]: the node [n] is [a] or lies below an edge of [a]. *)
Inductive node_of (h : heap V) : addr → addr → Prop :=
| node_of_self a : node_of h a a
| node_of_child a nd es e c n :
    nodes h !! a = Some nd →
    view h (edges nd) es →
    e ∈ es → node e = Some c →
    node_of h c n →
    node_of h a n.

(** ** Sessions of public calls

    A client holds trees and transactions and calls the public
    operations on them in any order.  A call names what it works on by
    its position among the trees or transactions obtained so far; a call
    on a position that does not exist yet does nothing. *)

Inductive handle :=
| OfTree (i : nat)
| OfTxn (j : nat).

Inductive call :=
| CallNew
| CallTxn (i : nat)
| CallOp (hd : handle) (o : op)
| CallCommit (j : nat)
| CallGet (hd : handle) (k : list byte)
| CallMinimum (hd : handle)
| CallMaximum (hd : handle)
| CallWalk (hd : handle) (fn : @WalkFn V).

Record session := Session { trees : list Tree; txns : list Txn }.

(** [Tree.Root] and [Txn.Root] *)
Definition root_of (s : session) (hd : handle) : option addr :=
  match hd with
  | OfTree i => tree_root <$> trees s !! i
  | OfTxn j => root <$> txns s !! j
  end.

(** A read of the node [a], when the client holds it. *)
Definition reading {A} (s : session) (a : option addr) (m : addr → M V A)
  : M V session :=
  match a with
  | Some a => m a ;; ret s
  | None => ret s
  end.

(** One call; [fuel] bounds the depth of the walks. *)
Definition step (fuel : nat) (s : session) (c : call) : M V session :=
  match c with
  | CallNew => do t <- New; ret (Session (trees s ++ [t]) (txns s))
  | CallTxn i =>
      match trees s !! i with
      | Some t => ret (Session (trees s) (txns s ++ [Tree_Txn t]))
      | None => ret s
      end
  | CallOp (OfTree i) o =>
      match trees s !! i with
      | Some t =>
          do '(t', _) <- Tree_op t o; ret (Session (trees s ++ [t']) (txns s))
      | None => ret s
      end
  | CallOp (OfTxn j) o =>
      match txns s !! j with
      | Some x =>
          do '(x', _) <- Txn_op x o; ret (Session (trees s) (<[j := x']> (txns s)))
      | None => ret s
      end
  | CallCommit j =>
      match txns s !! j with
      | Some x => ret (Session (trees s ++ [(Txn_Commit x).1]) (txns s))
      | None => ret s
      end
  | CallGet hd k => reading s (root_of s hd) (λ a, Get a k)
  | CallMinimum hd => reading s (root_of s hd) (Minimum fuel)
  | CallMaximum hd => reading s (root_of s hd) (Maximum fuel)
  | CallWalk hd fn => reading s (root_of s hd) (λ a, Walk fuel a fn)
  end.

Fixpoint run (fuel : nat) (s : session) (cs : list call) : M V session :=
  match cs with
  | [] => ret s
  | c :: r => do s' <- step fuel s c; run fuel s' r
  end.

(** Every root that the client holds carries a well-formed tree. *)
Definition session_inv (h : heap V) (s : session) : Prop :=
  Forall (λ T, ∃ t, tree_inv h (tree_root T) t) (trees s)
  ∧ Forall (λ x, ∃ t, tree_inv h (root x) t) (txns s).

End Model.

Arguments tree : clear implicits.
Arguments op : clear implicits.
Arguments call : clear implicits.

(** * Proofs *)

(** ** Bytes and byte strings *)

Lemma byte_to_nat_inj (a b : byte) : Byte.to_nat a = Byte.to_nat b → a = b.
Proof.
  intros H. pose proof (Byte.of_to_nat a) as Ha.
  rewrite H, Byte.of_to_nat in Ha. congruence.
Qed.

Lemma byte_ltb_lt (a b : byte) : byte_ltb a b = true ↔ Byte.to_nat a < Byte.to_nat b.
Proof. unfold byte_ltb. apply Nat.ltb_lt. Qed.

Lemma byte_ltb_ge (a b : byte) : byte_ltb a b = false ↔ Byte.to_nat b ≤ Byte.to_nat a.
Proof. unfold byte_ltb. apply Nat.ltb_ge. Qed.

Lemma byte_geb_ge (a b : byte) : byte_geb a b = true ↔ Byte.to_nat b ≤ Byte.to_nat a.
Proof. unfold byte_geb. rewrite negb_true_iff. apply byte_ltb_ge. Qed.

Lemma byte_geb_lt (a b : byte) : byte_geb a b = false ↔ Byte.to_nat a < Byte.to_nat b.
Proof. unfold byte_geb. rewrite negb_false_iff. apply byte_ltb_lt. Qed.

Lemma byte_ltb_irrefl (a : byte) : byte_ltb a a = false.
Proof. apply byte_ltb_ge. lia. Qed.

Lemma byte_ltb_trans (a b c : byte) :
  byte_ltb a b = true → byte_ltb b c = true → byte_ltb a c = true.
Proof. rewrite !byte_ltb_lt. lia. Qed.

Lemma byte_ltb_antisym (a b : byte) :
  byte_ltb a b = false → byte_ltb b a = false → a = b.
Proof. rewrite !byte_ltb_ge. intros. apply byte_to_nat_inj. lia. Qed.

Lemma byte_ltb_neq (a b : byte) : byte_ltb a b = true → a ≠ b.
Proof. intros H ->. rewrite byte_ltb_irrefl in H. discriminate. Qed.

Lemma HasPrefix_spec (s p : list byte) : HasPrefix s p = true ↔ ∃ r, s = p ++ r.
Proof.
  revert s. induction p as [|b p IH]; intros s; simpl.
  - split; [intros _; by exists s|done].
  - destruct s as [|a s].
    + split; [discriminate|]. intros [r Hr]. discriminate.
    + rewrite andb_true_iff, bool_decide_eq_true, IH. split.
      * intros [-> [r ->]]. eauto.
      * intros [r Hr]. injection Hr as -> ->. eauto.
Qed.

Lemma HasPrefix_app (p r : list byte) : HasPrefix (p ++ r) p = true.
Proof. apply HasPrefix_spec. eauto. Qed.

Lemma HasPrefix_false (s p : list byte) :
  HasPrefix s p = false ↔ ¬ ∃ r, s = p ++ r.
Proof. rewrite <-HasPrefix_spec. destruct (HasPrefix s p); naive_solver. Qed.

Lemma longestPrefix_le_l (a b : list byte) : longestPrefix a b ≤ length a.
Proof.
  revert b. induction a as [|x a IH]; intros [|y b]; simpl; try lia.
  case_bool_decide; simpl; [specialize (IH b)|]; lia.
Qed.

Lemma longestPrefix_le_r (a b : list byte) : longestPrefix a b ≤ length b.
Proof.
  revert b. induction a as [|x a IH]; intros [|y b]; simpl; try lia.
  case_bool_decide; simpl; [specialize (IH b)|]; lia.
Qed.

Lemma longestPrefix_take (a b : list byte) :
  take (longestPrefix a b) a = take (longestPrefix a b) b.
Proof.
  revert b. induction a as [|x a IH]; intros [|y b]; simpl; try done.
  case_bool_decide; simpl; [|done]. subst. by rewrite IH.
Qed.

Lemma longestPrefix_differ (a b : list byte) x y :
  a !! longestPrefix a b = Some x → b !! longestPrefix a b = Some y → x ≠ y.
Proof.
  revert b. induction a as [|x' a IH]; intros [|y' b]; simpl; try done.
  case_bool_decide; simpl; [by apply IH|]. congruence.
Qed.

Lemma longestPrefix_full (a p : list byte) :
  longestPrefix a p = length p ↔ ∃ r, a = p ++ r.
Proof.
  revert p. induction a as [|x a IH]; intros [|y p]; simpl.
  - split; eauto.
  - split; [discriminate|]. intros [r Hr]. discriminate.
  - split; eauto.
  - case_bool_decide; simpl.
    + subst. rewrite Nat.succ_inj_wd, IH. split.
      * intros [r ->]. eauto.
      * intros [r Hr]. injection Hr as ->. eauto.
    + split; [discriminate|]. intros [r Hr]. congruence.
Qed.

Lemma longestPrefix_pos (c : byte) (s p : list byte) :
  head p = Some c → 0 < longestPrefix (c :: s) p.
Proof.
  destruct p as [|y p]; simpl; [done|]. intros [= ->].
  rewrite bool_decide_eq_true_2 by done. lia.
Qed.

(** *** The lexicographic order *)

Lemma lex_lt_nil_cons (x : byte) (a : list byte) : lex_lt [] (x :: a).
Proof. done. Qed.

Lemma lex_lt_app (p a b : list byte) : lex_lt a b → lex_lt (p ++ a) (p ++ b).
Proof.
  unfold lex_lt. induction p as [|x p IH]; simpl; [done|]. intros H.
  rewrite byte_ltb_irrefl, bool_decide_eq_true_2 by done. auto.
Qed.

Lemma lex_lt_cons_lt (x y : byte) (a b : list byte) :
  byte_ltb x y = true → lex_lt (x :: a) (y :: b).
Proof. unfold lex_lt. simpl. by intros ->. Qed.

Lemma lex_lt_irrefl (a : list byte) : ¬ lex_lt a a.
Proof.
  unfold lex_lt. induction a as [|x a IH]; simpl; [done|].
  by rewrite byte_ltb_irrefl, bool_decide_eq_true_2.
Qed.

Lemma lex_lt_trans (a b c : list byte) : lex_lt a b → lex_lt b c → lex_lt a c.
Proof.
  unfold lex_lt. revert b c.
  induction a as [|x a IH]; intros [|y b] [|z c]; simpl; try done.
  destruct (byte_ltb x y) eqn:Hxy.
  - intros _. destruct (byte_ltb y z) eqn:Hyz.
    + by rewrite (byte_ltb_trans _ _ _ Hxy Hyz).
    + case_bool_decide; [|done]. subst. by rewrite Hxy.
  - case_bool_decide; [|done]. subst y.
    destruct (byte_ltb x z); [done|].
    case_bool_decide; [|done]. apply IH.
Qed.

Lemma lex_lt_asym (a b : list byte) : lex_lt a b → ¬ lex_lt b a.
Proof. intros H1 H2. apply (lex_lt_irrefl a). by eapply lex_lt_trans. Qed.

(** ** Binary search *)

Lemma Search_loop_spec (n : nat) (f : nat → bool) :
  (∀ i j, i ≤ j → j < n → f i = true → f j = true) →
  ∀ fuel i j,
    i ≤ j → j ≤ n → j - i ≤ fuel →
    (∀ x, x < i → f x = false) →
    (j < n → f j = true) →
    Search_loop fuel i j f ≤ n
    ∧ (∀ x, x < Search_loop fuel i j f → f x = false)
    ∧ (Search_loop fuel i j f < n → f (Search_loop fuel i j f) = true).
Proof.
  intros Hmono. induction fuel as [|fuel IH]; intros i j Hij Hjn Hfuel Hlo Hhi;
    cbn [Search_loop].
  - assert (i = j) as -> by lia. auto.
  - destruct (Nat.ltb_spec i j) as [Hlt|Hge]; [|assert (i = j) as -> by lia; auto].
    assert (i ≤ (i + j) / 2 ∧ (i + j) / 2 < j) as [Hh1 Hh2].
    { split; [apply Nat.div_le_lower_bound|apply Nat.Div0.div_lt_upper_bound]; lia. }
    cbv zeta. set (m := (i + j) / 2) in *.
    destruct (f m) eqn:Hf; cbn [negb].
    + apply IH; auto; lia.
    + apply IH; auto; try lia.
      intros x Hx. destruct (f x) eqn:Hfx; [|done].
      rewrite (Hmono x m) in Hf; [done|lia|lia|done].
Qed.

Lemma Search_spec (n : nat) (f : nat → bool) :
  (∀ i j, i ≤ j → j < n → f i = true → f j = true) →
  Search n f ≤ n
  ∧ (∀ x, x < Search n f → f x = false)
  ∧ (Search n f < n → f (Search n f) = true).
Proof.
  intros Hmono. unfold Search.
  apply (Search_loop_spec n f Hmono); auto; try lia.
Qed.

Lemma Search_ext (n : nat) (f g : nat → bool) :
  (∀ i, i < n → f i = g i) → Search n f = Search n g.
Proof.
  intros Hfg. unfold Search.
  assert (∀ fuel i j, j ≤ n → Search_loop fuel i j f = Search_loop fuel i j g) as H.
  { induction fuel as [|fuel IH]; intros i j Hj; cbn [Search_loop]; [done|].
    destruct (Nat.ltb_spec i j) as [Hlt|Hge]; [|done].
    assert ((i + j) / 2 < j) by (apply Nat.Div0.div_lt_upper_bound; lia).
    cbv zeta. set (m := (i + j) / 2) in *.
    rewrite Hfg by lia. destruct (g m); cbn [negb]; apply IH; lia. }
  by apply H.
Qed.

(** ** The functional model *)

Section ModelFacts.

Context {V : Type}.

Implicit Types (t : tree V) (kids : list (byte * tree V)) (k s x y : list byte).
Implicit Types (lf : option (leafNode V)).

Lemma tree_ind' (P : tree V → Prop) :
  (∀ lf pre kids, Forall (λ lt, P lt.2) kids → P (Tr lf pre kids)) →
  ∀ t, P t.
Proof.
  intros H. fix IH 1. intros [lf pre kids]. apply H.
  induction kids as [|[l t] ks IHks]; constructor; [apply IH|apply IHks].
Qed.

(** *** Children by label *)

Lemma with_kid_ext {A} (f g : tree V → A) d c kids :
  Forall (λ lt, f lt.2 = g lt.2) kids →
  with_kid f d c kids = with_kid g d c kids.
Proof.
  induction 1 as [|[l t] ks Hh _ IH]; simpl; [done|].
  case_bool_decide; [done|apply IH].
Qed.

Lemma with_kid_upd_same {A} (g : tree V → A) d (F : tree V → tree V) c kids :
  with_kid g d c (upd_kid F c kids) = with_kid (λ t, g (F t)) d c kids.
Proof.
  induction kids as [|[l t] ks IH]; simpl; [done|].
  case_bool_decide; simpl.
  - by rewrite bool_decide_eq_true_2.
  - by rewrite bool_decide_eq_false_2.
Qed.

Lemma with_kid_upd_ne {A} (g : tree V → A) d (F : tree V → tree V) c c' kids :
  c' ≠ c → with_kid g d c' (upd_kid F c kids) = with_kid g d c' kids.
Proof.
  intros Hne. induction kids as [|[l t] ks IH]; simpl; [done|].
  case_bool_decide; simpl.
  - subst. by rewrite !bool_decide_eq_false_2.
  - by case_bool_decide.
Qed.

Lemma with_kid_add_ne {A} (g : tree V → A) d (n : byte * tree V) c' kids :
  c' ≠ n.1 → with_kid g d c' (add_kid n kids) = with_kid g d c' kids.
Proof.
  intros Hne. destruct n as [c tn]. simpl in Hne.
  induction kids as [|[l t] ks IH]; simpl.
  - by rewrite bool_decide_eq_false_2.
  - destruct (byte_geb l c); simpl.
    + by rewrite (bool_decide_eq_false_2 (c = c')).
    + by rewrite IH.
Qed.

Lemma with_kid_none {A} (g : tree V → A) d c kids :
  has_kid c kids = false → with_kid g d c kids = d.
Proof.
  unfold has_kid. induction kids as [|[l t] ks IH]; simpl; [done|].
  by case_bool_decide.
Qed.

Lemma with_kid_add_same {A} (g : tree V → A) d (n : byte * tree V) kids :
  has_kid n.1 kids = false → with_kid g d n.1 (add_kid n kids) = g n.2.
Proof.
  destruct n as [c tn]. unfold has_kid. simpl.
  induction kids as [|[l t] ks IH]; simpl.
  - by rewrite bool_decide_eq_true_2.
  - case_bool_decide; [done|]. intros Hks.
    destruct (byte_geb l c); simpl.
    + by rewrite bool_decide_eq_true_2.
    + rewrite bool_decide_eq_false_2 by done. auto.
Qed.

Lemma with_kid_del_ne {A} (g : tree V → A) d c c' kids :
  c' ≠ c → with_kid g d c' (del_kid c kids) = with_kid g d c' kids.
Proof.
  intros Hne. induction kids as [|[l t] ks IH]; simpl; [done|].
  case_bool_decide; simpl.
  - subst. by rewrite bool_decide_eq_false_2.
  - by rewrite IH.
Qed.

Lemma has_kid_elem c kids : has_kid c kids = true ↔ ∃ t, (c, t) ∈ kids.
Proof.
  unfold has_kid. induction kids as [|[l t] ks IH]; simpl.
  - split; [done|]. intros [t Ht]. by apply elem_of_nil in Ht.
  - case_bool_decide.
    + subst. split; [|done]. intros _. exists t. left.
    + rewrite IH. split; intros [t' Ht']; exists t'.
      * by right.
      * apply elem_of_cons in Ht' as [?|?]; [congruence|done].
Qed.

Lemma with_kid_case {A} (g : tree V → A) d c kids :
  (has_kid c kids = false ∧ with_kid g d c kids = d)
  ∨ (∃ t, (c, t) ∈ kids ∧ has_kid c kids = true ∧ ∀ B (f : tree V → B) d', with_kid f d' c kids = f t).
Proof.
  unfold has_kid. induction kids as [|[l t] ks IH]; simpl; [by left|].
  case_bool_decide.
  - subst. right. exists t. split; [left|done].
  - destruct IH as [[? ?]|(t' & ? & ? & ?)]; [by left|].
    right. exists t'. split; [by right|done].
Qed.

(** *** Lookups after an insertion *)

Definition t_lookup t x : option (leafNode V) :=
  if HasPrefix x (t_prefix t)
  then t_find t (drop (length (t_prefix t)) x)
  else None.

Lemma t_find_cons lf pre kids c s :
  t_find (Tr lf pre kids) (c :: s)
  = with_kid (λ t', t_lookup t' (c :: s)) None c kids.
Proof. done. Qed.

Lemma t_find_prefix_irrel lf pre pre' kids s :
  t_find (Tr lf pre kids) s = t_find (Tr lf pre' kids) s.
Proof. by destruct s. Qed.

Lemma t_lookup_app t p y :
  t_prefix t = p → t_lookup t (p ++ y) = t_find t y.
Proof.
  intros <-. unfold t_lookup. by rewrite HasPrefix_app, drop_app_length.
Qed.

Lemma t_lookup_not_prefix t x :
  (¬ ∃ y, x = t_prefix t ++ y) → t_lookup t x = None.
Proof.
  intros H. unfold t_lookup. apply HasPrefix_false in H. by rewrite H.
Qed.

Lemma t_insert_prefix t k s v : t_prefix (t_insert t k s v) = t_prefix t.
Proof. destruct t as [lf pre kids], s as [|c s]; simpl; [done|]. by destruct (has_kid c kids). Qed.

Lemma longestPrefix_decomp (s p : list byte) :
  ∃ u s2 p2, s = u ++ s2 ∧ p = u ++ p2 ∧ longestPrefix s p = length u
             ∧ match s2, p2 with
               | a :: _, b :: _ => a ≠ b
               | _, _ => True
               end.
Proof.
  revert p. induction s as [|a s IH]; intros p.
  { exists [], [], p. by destruct p. }
  destruct p as [|b p].
  { by exists [], (a :: s), []. }
  simpl. case_bool_decide.
  - subst b. destruct (IH p) as (u & s2 & p2 & -> & -> & -> & H).
    by exists (a :: u), s2, p2.
  - by exists [], (a :: s), (b :: p).
Qed.

Lemma t_split_lookup (t' : tree V) k u s2 b p3 v x :
  t_prefix t' = u ++ b :: p3 →
  longestPrefix (u ++ s2) (t_prefix t') = length u →
  head s2 ≠ Some b →
  t_lookup (t_split t' (length u) k (u ++ s2) v) x
  = if bool_decide (x = u ++ s2) then Some (LeafNode k v) else t_lookup t' x.
Proof.
  intros Hp _ Hb. destruct t' as [lf' p' kids']. simpl in Hp. subst p'.
  unfold t_split. cbn [t_prefix t_leaf t_kids].
  rewrite drop_app_length, take_app_length, list_lookup_middle by done.
  rewrite drop_app_length. cbn [default].
  destruct (HasPrefix x u) eqn:Hxu.
  2:{ rewrite bool_decide_eq_false_2.
      2:{ intros ->. by rewrite HasPrefix_app in Hxu. }
      rewrite !t_lookup_not_prefix; [by destruct s2| |].
      - cbn [t_prefix]. intros [y ->]. rewrite <-app_assoc in Hxu.
        by rewrite HasPrefix_app in Hxu.
      - apply HasPrefix_false in Hxu. intros [y Hy]. apply Hxu.
        destruct s2; cbn [t_prefix] in Hy; eauto. }
  apply HasPrefix_spec in Hxu as [y ->].
  assert (∀ q : list byte, bool_decide (u ++ y = u ++ q) = bool_decide (y = q)) as Hbd.
  { intros q. apply bool_decide_ext. split; [apply app_inv_head|by intros ->]. }
  rewrite Hbd.
  assert (t_lookup (Tr lf' (u ++ b :: p3) kids') (u ++ y)
          = t_lookup (Tr lf' (b :: p3) kids') y) as ->.
  { unfold t_lookup. cbn [t_prefix].
    destruct (HasPrefix y (b :: p3)) eqn:Hy.
    - apply HasPrefix_spec in Hy as [z ->].
      rewrite (app_assoc u (b :: p3) z), HasPrefix_app, !drop_app_length.
      apply t_find_prefix_irrel.
    - replace (HasPrefix (u ++ y) (u ++ b :: p3)) with false; [done|].
      symmetry. apply HasPrefix_false. intros [z Hz].
      rewrite <-app_assoc in Hz. apply app_inv_head in Hz.
      apply HasPrefix_false in Hy. eauto. }
  destruct s2 as [|c2 s3].
  - rewrite t_lookup_app by done. destruct y as [|c'' y'].
    + by rewrite bool_decide_eq_true_2.
    + rewrite bool_decide_eq_false_2 by done.
      rewrite t_find_cons. simpl. case_bool_decide; [done|].
      unfold t_lookup. simpl. by rewrite bool_decide_eq_false_2 by congruence.
  - assert (c2 ≠ b) as Hne by (simpl in Hb; congruence).
    rewrite t_lookup_app by done. destruct y as [|c'' y'].
    + by rewrite bool_decide_eq_false_2.
    + rewrite t_find_cons. destruct (decide (c'' = c2)) as [->|Hc].
      * rewrite (with_kid_add_same _ _ (c2, _)).
        2:{ unfold has_kid. simpl. by rewrite bool_decide_eq_false_2. }
        cbn [snd]. unfold t_lookup at 1. cbn [t_prefix].
        destruct (HasPrefix (c2 :: y') (c2 :: s3)) eqn:Hy.
        -- apply HasPrefix_spec in Hy as [z Hz]. rewrite Hz.
           rewrite drop_app_length. destruct z as [|c3 z].
           ++ by rewrite app_nil_r, bool_decide_eq_true_2.
           ++ rewrite bool_decide_eq_false_2.
              2:{ intros Heq. by apply (f_equal length) in Heq;
                  rewrite length_app in Heq; simpl in Heq; lia. }
              unfold t_lookup. simpl.
              rewrite bool_decide_eq_false_2 by congruence. done.
        -- rewrite bool_decide_eq_false_2.
           2:{ intros Heq. rewrite Heq in Hy.
               pose proof (HasPrefix_app (c2 :: s3) []) as H0.
               rewrite app_nil_r in H0. congruence. }
           unfold t_lookup. simpl.
           rewrite bool_decide_eq_false_2 by congruence. done.
      * rewrite bool_decide_eq_false_2 by congruence.
        rewrite with_kid_add_ne by done. simpl.
        case_bool_decide; [done|].
        unfold t_lookup. simpl. by rewrite bool_decide_eq_false_2 by congruence.
Qed.

Lemma t_find_insert t k s v x :
  t_find (t_insert t k s v) x
  = if bool_decide (x = s) then Some (LeafNode k v) else t_find t x.
Proof.
  revert s x. induction t as [lf pre kids IH] using tree_ind'. intros s x.
  destruct s as [|c s'].
  { simpl. destruct x; [done|]. by rewrite bool_decide_eq_false_2. }
  cbn [t_insert]. destruct (has_kid c kids) eqn:Hc.
  - destruct x as [|c' x'].
    { by rewrite bool_decide_eq_false_2. }
    rewrite !t_find_cons. destruct (decide (c' = c)) as [->|Hne].
    2:{ rewrite with_kid_upd_ne by done.
        by rewrite bool_decide_eq_false_2 by congruence. }
    rewrite with_kid_upd_same.
    destruct (with_kid_case (λ t', t_lookup t' (c :: x')) None c kids)
      as [[? _]|(t' & Hin & _ & Heq)]; [congruence|].
    rewrite !Heq. rewrite Forall_forall in IH. specialize (IH _ Hin).
    cbn [snd] in IH. cbv zeta.
    destruct (longestPrefix_decomp (c :: s') (t_prefix t'))
      as (u & s2 & p2 & Hs & Hp & Hcp & Hd).
    rewrite Hcp. case_bool_decide as Hfull.
    + assert (p2 = []) as ->.
      { rewrite Hp, length_app in Hfull. destruct p2; [done|simpl in Hfull; lia]. }
      rewrite app_nil_r in Hp. unfold t_lookup.
      rewrite t_insert_prefix, IH, Hs, Hp, drop_app_length.
      destruct (HasPrefix (c :: x') u) eqn:Hx.
      * apply HasPrefix_spec in Hx as [y ->]. rewrite drop_app_length.
        rewrite (bool_decide_ext (u ++ y = u ++ s2) (y = s2)); [done|].
        split; [apply app_inv_head|by intros ->].
      * rewrite bool_decide_eq_false_2; [done|]. intros Heq'.
        by rewrite Heq', HasPrefix_app in Hx.
    + destruct p2 as [|b p3].
      { rewrite Hp, app_nil_r in Hfull. done. }
      rewrite Hs. apply (t_split_lookup _ _ _ _ b p3); [done|by rewrite <-Hs|].
      destruct s2; simpl; congruence.
  - destruct x as [|c' x'].
    { by rewrite bool_decide_eq_false_2. }
    rewrite !t_find_cons. destruct (decide (c' = c)) as [->|Hne].
    2:{ rewrite with_kid_add_ne by done.
        by rewrite bool_decide_eq_false_2 by congruence. }
    rewrite (with_kid_add_same _ _ (c, _)) by done.
    rewrite (with_kid_none _ _ _ _ Hc). cbn [snd].
    unfold t_lookup. cbn [t_prefix].
    destruct (HasPrefix (c :: x') (c :: s')) eqn:Hx.
    + apply HasPrefix_spec in Hx as [z Hz]. rewrite Hz, drop_app_length.
      destruct z as [|c3 z].
      * by rewrite app_nil_r, bool_decide_eq_true_2.
      * rewrite bool_decide_eq_false_2; [done|].
        intros Heq. apply (f_equal length) in Heq.
        rewrite length_app in Heq. simpl in Heq. lia.
    + rewrite bool_decide_eq_false_2; [done|]. intros Heq. rewrite Heq in Hx.
      pose proof (HasPrefix_app (c :: s') []) as H0.
      rewrite app_nil_r in H0. congruence.
Qed.

End ModelFacts.

(** ** Well-formedness is preserved *)

Section WellFormed.

Context {V : Type}.

Implicit Types (t : tree V) (kids : list (byte * tree V)) (k s x y : list byte).
Implicit Types (lf : option (leafNode V)).

(** What [wf] asks of a child hanging below the key prefix [P]. *)
Definition kid_ok (P : list byte) (lt : byte * tree V) : Prop :=
  head (t_prefix lt.2) = Some lt.1 ∧ wf false P lt.2.

Lemma wf_inv r path lf pre kids :
  wf r path (Tr lf pre kids) →
  (r = true → pre = [])
  ∧ (∀ l, lf = Some l → key l = path ++ pre)
  ∧ ascending (kids.*1)
  ∧ (r = false → lf = None → 2 ≤ length kids)
  ∧ Forall (kid_ok (path ++ pre)) kids.
Proof. by inversion 1. Qed.

Lemma wf_intro r path lf pre kids :
  (r = true → pre = []) →
  (∀ l, lf = Some l → key l = path ++ pre) →
  ascending (kids.*1) →
  (r = false → lf = None → 2 ≤ length kids) →
  Forall (kid_ok (path ++ pre)) kids →
  wf r path (Tr lf pre kids).
Proof. by constructor. Qed.

Lemma wf_empty_root : wf true [] (Tr (V:=V) None [] []).
Proof. apply wf_intro; try done; constructor. Qed.

Lemma ascending_cons (l : byte) (ls : list byte) :
  ascending (l :: ls) ↔ Forall (λ l', byte_ltb l l' = true) ls ∧ ascending ls.
Proof.
  unfold ascending. split.
  - inversion 1; subst. done.
  - intros [? ?]. by constructor.
Qed.

Lemma ascending_nil : ascending [].
Proof. constructor. Qed.

Lemma upd_kid_labels (F : tree V → tree V) c kids :
  (upd_kid F c kids).*1 = kids.*1.
Proof.
  induction kids as [|[l t] ks IH]; csimpl; [done|].
  case_bool_decide; csimpl; [done|by rewrite IH].
Qed.

Lemma upd_kid_length (F : tree V → tree V) c kids :
  length (upd_kid F c kids) = length kids.
Proof. by rewrite <-(length_fmap fst), upd_kid_labels, length_fmap. Qed.

Lemma Forall_upd_kid (P : byte * tree V → Prop) (F : tree V → tree V) c kids :
  Forall P kids →
  (∀ t, (c, t) ∈ kids → P (c, t) → P (c, F t)) →
  Forall P (upd_kid F c kids).
Proof.
  induction 1 as [|[l t] ks Hh Ht IH]; intros HF; csimpl; [constructor|].
  case_bool_decide.
  - subst. constructor; [|done]. apply HF; [left|done].
  - constructor; [done|]. apply IH. intros t' Hin. apply HF. by right.
Qed.

Lemma has_kid_false_labels c kids :
  has_kid c kids = false ↔ c ∉ kids.*1.
Proof.
  unfold has_kid. induction kids as [|[l t] ks IH]; csimpl.
  - split; [|done]. intros _ H. by apply elem_of_nil in H.
  - rewrite not_elem_of_cons. case_bool_decide; [|naive_solver]. naive_solver.
Qed.

Lemma add_kid_labels_elem (n : byte * tree V) kids l :
  l ∈ (add_kid n kids).*1 ↔ l = n.1 ∨ l ∈ kids.*1.
Proof.
  induction kids as [|[l' t] ks IH]; csimpl.
  - rewrite list_elem_of_singleton. rewrite elem_of_nil. naive_solver.
  - destruct (byte_geb l' n.1); csimpl.
    + rewrite !elem_of_cons. naive_solver.
    + rewrite !elem_of_cons, IH. naive_solver.
Qed.

Lemma add_kid_length (n : byte * tree V) kids :
  length (add_kid n kids) = S (length kids).
Proof.
  induction kids as [|[l' t] ks IH]; csimpl; [done|].
  destruct (byte_geb l' n.1); csimpl; [done|by rewrite IH].
Qed.

Lemma Forall_add_kid (P : byte * tree V → Prop) n kids :
  P n → Forall P kids → Forall P (add_kid n kids).
Proof.
  intros Hn. induction 1 as [|[l t] ks Hh Ht IH]; csimpl.
  - by constructor.
  - destruct (byte_geb l n.1); by repeat constructor.
Qed.

Lemma ascending_add_kid (n : byte * tree V) kids :
  ascending (kids.*1) → n.1 ∉ kids.*1 → ascending ((add_kid n kids).*1).
Proof.
  destruct n as [c tn]. csimpl.
  induction kids as [|[l t] ks IH]; csimpl; intros Hasc Hnot.
  - apply ascending_cons. split; constructor.
  - apply ascending_cons in Hasc as [Hl Hks].
    apply not_elem_of_cons in Hnot as [Hne Hnot].
    destruct (byte_geb l c) eqn:Hge; csimpl.
    + apply byte_geb_ge in Hge.
      assert (byte_ltb c l = true) as Hcl.
      { apply byte_ltb_lt. destruct (decide (Byte.to_nat c = Byte.to_nat l)) as [E|E];
          [apply byte_to_nat_inj in E; congruence|lia]. }
      apply ascending_cons. split.
      * constructor; [done|]. eapply Forall_impl; [exact Hl|].
        intros l' Hl'. by eapply byte_ltb_trans.
      * by apply ascending_cons.
    + apply ascending_cons. split; [|by apply IH].
      apply Forall_forall. intros l' Hl'.
      apply add_kid_labels_elem in Hl' as [->|Hl']; csimpl.
      * by apply byte_geb_lt, byte_ltb_lt in Hge.
      * rewrite Forall_forall in Hl. by apply Hl.
Qed.

Lemma ascending_del_kid c kids :
  ascending (kids.*1) → ascending ((del_kid c kids).*1).
Proof.
  induction kids as [|[l t] ks IH]; csimpl; [done|]. intros Hasc.
  apply ascending_cons in Hasc as [Hl Hks].
  case_bool_decide; csimpl; [done|].
  apply ascending_cons. split; [|by apply IH].
  apply Forall_forall. intros l' Hl'. rewrite Forall_forall in Hl. apply Hl.
  clear -Hl'. induction ks as [|[l2 t2] ks IH]; csimpl in *; [done|].
  case_bool_decide; csimpl in *.
  - by right.
  - apply elem_of_cons in Hl' as [->|?]; [left|right; auto].
Qed.

Lemma ascending_not_elem (l : byte) (ls : list byte) :
  ascending (l :: ls) → l ∉ ls.
Proof.
  intros [Hl _]%ascending_cons Hin. rewrite Forall_forall in Hl.
  specialize (Hl _ Hin). by rewrite byte_ltb_irrefl in Hl.
Qed.

Lemma with_kid_elem {A} (f : tree V → A) d c t kids :
  ascending (kids.*1) → (c, t) ∈ kids → with_kid f d c kids = f t.
Proof.
  induction kids as [|[l t'] ks IH]; csimpl; intros Hasc Hin.
  - by apply elem_of_nil in Hin.
  - pose proof (ascending_not_elem _ _ Hasc) as Hnot.
    apply ascending_cons in Hasc as [_ Hks].
    apply elem_of_cons in Hin as [[= <- <-]|Hin].
    + by rewrite bool_decide_eq_true_2.
    + rewrite bool_decide_eq_false_2; [by apply IH|].
      intros ->. apply Hnot. apply list_elem_of_fmap. by exists (c, t).
Qed.

Lemma with_kid_del_same {A} (g : tree V → A) d c kids :
  ascending (kids.*1) → with_kid g d c (del_kid c kids) = d.
Proof.
  induction kids as [|[l t] ks IH]; csimpl; [done|]. intros Hasc.
  pose proof (ascending_not_elem _ _ Hasc) as Hnot.
  apply ascending_cons in Hasc as [_ Hks].
  case_bool_decide; csimpl.
  - subst. apply with_kid_none. by apply has_kid_false_labels.
  - rewrite bool_decide_eq_false_2 by done. by apply IH.
Qed.

Lemma del_kid_sublist c kids : del_kid c kids ⊆ kids.
Proof.
  induction kids as [|[l t] ks IH]; simpl; [done|].
  case_bool_decide.
  - intros x Hx. by right.
  - intros x [->|Hx]%elem_of_cons; [left|right; by apply IH].
Qed.

Lemma del_kid_length c kids :
  has_kid c kids = true → S (length (del_kid c kids)) = length kids.
Proof.
  unfold has_kid. induction kids as [|[l t] ks IH]; simpl; [done|].
  case_bool_decide; simpl; [done|]. intros. by rewrite IH.
Qed.

(** *** Insertion *)

Lemma t_split_prefix (t' : tree V) cp k s v :
  t_prefix (t_split t' cp k s v) = take cp s.
Proof. unfold t_split. by destruct (drop cp s). Qed.

Lemma wf_reprefix P u lf p2 kids :
  wf false P (Tr lf (u ++ p2) kids) → wf false (P ++ u) (Tr lf p2 kids).
Proof.
  intros (_ & Hl & Hasc & Hcnt & Hk)%wf_inv.
  apply wf_intro; try done; by rewrite <-app_assoc.
Qed.

Lemma wf_leaf_node P k s (v : V) :
  k = P ++ s → wf false P (Tr (Some (LeafNode k v)) s []).
Proof.
  intros ->. apply wf_intro; try done.
  - by intros l [= <-].
  - constructor.
Qed.

Lemma wf_split P (t1 : tree V) u b p3 k s2 v :
  wf false P t1 →
  t_prefix t1 = u ++ b :: p3 →
  head s2 ≠ Some b →
  k = P ++ u ++ s2 →
  wf false P (t_split t1 (length u) k (u ++ s2) v).
Proof.
  intros Hwf Hp Hb ->. destruct t1 as [lf1 p1 kids1]. simpl in Hp. subst p1.
  unfold t_split. cbn [t_prefix t_leaf t_kids].
  rewrite drop_app_length, take_app_length, list_lookup_middle by done.
  rewrite drop_app_length. cbn [default].
  assert (kid_ok (P ++ u) (b, Tr lf1 (b :: p3) kids1)) as Hmod.
  { split; [done|]. by apply wf_reprefix. }
  destruct s2 as [|c2 s3].
  - apply wf_intro; try done.
    + intros l [= <-]. simpl. by rewrite app_nil_r.
    + simpl. apply ascending_cons. split; constructor.
    + simpl. by constructor.
  - assert (c2 ≠ b) as Hne by (simpl in Hb; congruence).
    apply wf_intro; try done.
    + apply (ascending_add_kid (c2, _)).
      * simpl. apply ascending_cons. split; constructor.
      * simpl. rewrite list_elem_of_singleton. done.
    + intros _ _. by rewrite add_kid_length.
    + apply Forall_add_kid; [|by constructor].
      split; [done|]. simpl. apply wf_leaf_node. by rewrite <-app_assoc.
Qed.

Lemma wf_insert t : ∀ r path k s v,
  wf r path t → k = path ++ t_prefix t ++ s → wf r path (t_insert t k s v).
Proof.
  induction t as [lf pre kids IH] using tree_ind'. intros r path k s v Hwf Hk.
  apply wf_inv in Hwf as (Hroot & Hl & Hasc & Hcnt & Hkids).
  cbn [t_prefix] in Hk. destruct s as [|c s'].
  { simpl. apply wf_intro; try done.
    intros l [= <-]. simpl. by rewrite app_nil_r in Hk. }
  cbn [t_insert]. destruct (has_kid c kids) eqn:Hc.
  - apply wf_intro; try done.
    + by rewrite upd_kid_labels.
    + by rewrite upd_kid_length.
    + apply Forall_upd_kid; [done|]. intros t1 Hin [Hhd Hwf1].
      rewrite Forall_forall in IH. specialize (IH _ Hin). cbn [snd fst] in *.
      cbv zeta.
      destruct (longestPrefix_decomp (c :: s') (t_prefix t1))
        as (u & s2 & p2 & Hs & Hp & Hcp & Hd).
      rewrite Hcp. case_bool_decide as Hfull.
      * assert (p2 = []) as ->.
        { rewrite Hp, length_app in Hfull. destruct p2; [done|simpl in Hfull; lia]. }
        rewrite app_nil_r in Hp. split; cbn [snd fst].
        -- by rewrite t_insert_prefix.
        -- apply IH; [done|]. rewrite Hk, Hs, Hp, drop_app_length.
           by rewrite <-!app_assoc.
      * destruct p2 as [|b p3].
        { rewrite Hp, app_nil_r in Hfull. done. }
        assert (u ≠ []) as Hu.
        { intros ->. simpl in *. rewrite Hp in Hhd. simpl in Hhd.
          destruct s2; simplify_eq. }
        split; cbn [snd fst].
        -- rewrite t_split_prefix, Hs, take_app_length.
           destruct u; [done|]. simpl in Hs. by simplify_eq.
        -- rewrite Hs. apply (wf_split _ _ _ b p3); [done|done| |].
           ++ destruct s2; simpl; congruence.
           ++ by rewrite Hk, Hs, <-!app_assoc.
  - apply wf_intro; try done.
    + apply (ascending_add_kid (c, _)); [done|]. by apply has_kid_false_labels.
    + intros H1 H2. rewrite add_kid_length. specialize (Hcnt H1 H2). lia.
    + apply Forall_add_kid; [|done]. split; [done|]. simpl.
      apply wf_leaf_node. by rewrite <-app_assoc.
Qed.

End WellFormed.

(** ** Deletion in the functional model *)

Section Deletion.

Context {V : Type}.

Implicit Types (t : tree V) (kids : list (byte * tree V)) (k s x y : list byte).
Implicit Types (lf : option (leafNode V)).

(** The node left by [delete] once the child under [c] came back as [t'']. *)
Definition after_delete (r : bool) lf pre kids (c : byte) (t'' : tree V) : tree V :=
  if t_empty t'' then
    let nc := Tr lf pre (del_kid c kids) in
    if negb r && bool_decide (length (t_kids nc) = 1)
       && negb (bool_decide (is_Some lf))
    then t_merge nc else nc
  else Tr lf pre (upd_kid (λ _, t'') c kids).

Lemma t_delete_nil r lf pre kids :
  t_delete r (Tr lf pre kids) []
  = match lf with
    | None => None
    | Some _ =>
        Some (if negb r && bool_decide (length kids = 1)
              then t_merge (Tr None pre kids) else Tr None pre kids)
    end.
Proof. done. Qed.

Lemma t_delete_cons r lf pre kids c s :
  t_delete r (Tr lf pre kids) (c :: s)
  = with_kid (λ t', if HasPrefix (c :: s) (t_prefix t')
                    then after_delete r lf pre kids c
                           <$> t_delete false t' (drop (length (t_prefix t')) (c :: s))
                    else None) None c kids.
Proof.
  cbn [t_delete]. apply with_kid_ext, Forall_forall. intros [l t'] _. cbn [snd].
  destruct (HasPrefix _ _); [|done].
  destruct (t_delete false t' _) as [t''|]; [|done].
  unfold after_delete. simpl. by destruct (t_empty t'').
Qed.

Lemma t_delete_cons_inv r lf pre kids c s t' :
  t_delete r (Tr lf pre kids) (c :: s) = Some t' →
  ∃ t1 s2 t'',
    (c, t1) ∈ kids
    ∧ (∀ B (f : tree V → B) d, with_kid f d c kids = f t1)
    ∧ c :: s = t_prefix t1 ++ s2
    ∧ t_delete false t1 s2 = Some t''
    ∧ t' = after_delete r lf pre kids c t''.
Proof.
  rewrite t_delete_cons.
  destruct (with_kid_case (λ _ : tree V, ()) () c kids)
    as [[Hno _]|(t1 & Hin & _ & Heq)].
  { by rewrite (with_kid_none _ _ _ _ Hno). }
  rewrite Heq. destruct (HasPrefix (c :: s) (t_prefix t1)) eqn:Hp; [|done].
  apply HasPrefix_spec in Hp as [s2 Hs]. rewrite Hs, drop_app_length.
  destruct (t_delete false t1 s2) as [t''|] eqn:Hd; [|done].
  intros [= <-]. by exists t1, s2, t''.
Qed.

Lemma t_delete_none t : ∀ r s, t_delete r t s = None ↔ t_find t s = None.
Proof.
  induction t as [lf pre kids IH] using tree_ind'. intros r [|c s].
  { rewrite t_delete_nil. simpl. by destruct lf. }
  rewrite t_delete_cons, t_find_cons.
  destruct (with_kid_case (λ _ : tree V, ()) () c kids)
    as [[Hno _]|(t1 & Hin & _ & Heq)].
  { by rewrite !(with_kid_none _ _ _ _ Hno). }
  rewrite !Heq. unfold t_lookup.
  destruct (HasPrefix (c :: s) (t_prefix t1)); [|done].
  rewrite Forall_forall in IH. rewrite <-(IH _ Hin false).
  cbn [snd]. destruct (t_delete false t1 _); simpl; [split; intros; discriminate|done].
Qed.

(** *** Lookups seen from the parent *)

Lemma t_lookup_node lf pre kids x :
  t_lookup (Tr lf pre kids) x
  = if HasPrefix x pre then
      match drop (length pre) x with
      | [] => lf
      | c :: y => with_kid (λ t', t_lookup t' (c :: y)) None c kids
      end
    else None.
Proof.
  unfold t_lookup. cbn [t_prefix]. destruct (HasPrefix x pre); [|done].
  by destruct (drop (length pre) x).
Qed.

Lemma t_lookup_strip lf u p kids y :
  t_lookup (Tr lf (u ++ p) kids) (u ++ y) = t_lookup (Tr lf p kids) y.
Proof.
  unfold t_lookup. cbn [t_prefix].
  destruct (HasPrefix y p) eqn:Hy.
  - apply HasPrefix_spec in Hy as [z ->].
    rewrite (app_assoc u p z), HasPrefix_app, !drop_app_length.
    apply t_find_prefix_irrel.
  - replace (HasPrefix (u ++ y) (u ++ p)) with false; [done|].
    symmetry. apply HasPrefix_false. intros [z Hz].
    rewrite <-app_assoc in Hz. apply app_inv_head in Hz.
    apply HasPrefix_false in Hy. eauto.
Qed.

Lemma t_lookup_empty t x : t_empty t = true → t_lookup t x = None.
Proof.
  destruct t as [lf pre kids]. unfold t_empty. cbn [t_leaf t_kids].
  rewrite andb_true_iff, !bool_decide_eq_true. intros [-> Hk].
  destruct kids; [|done]. rewrite t_lookup_node.
  destruct (HasPrefix x pre); [|done]. by destruct (drop _ _).
Qed.

Lemma t_merge_lookup pre l (child : tree V) x :
  head (t_prefix child) = Some l →
  t_lookup (t_merge (Tr None pre [(l, child)])) x
  = t_lookup (Tr None pre [(l, child)]) x.
Proof.
  destruct child as [lf' pre' kids']. cbn [t_prefix t_merge]. intros Hhd.
  destruct pre' as [|l' q]; simplify_eq/=. unfold concat.
  rewrite (t_lookup_node None pre).
  destruct (HasPrefix x pre) eqn:Hx.
  - apply HasPrefix_spec in Hx as [y ->].
    rewrite t_lookup_strip, drop_app_length.
    destruct y as [|c y'].
    + by rewrite t_lookup_node.
    + simpl. case_bool_decide; [by subst|].
      rewrite t_lookup_node. simpl.
      by rewrite bool_decide_eq_false_2 by congruence.
  - apply t_lookup_not_prefix. cbn [t_prefix]. intros [y ->].
    by rewrite <-app_assoc, HasPrefix_app in Hx.
Qed.

Lemma t_lookup_after_delete r path lf pre kids c s t1 s2 t'' :
  wf r path (Tr lf pre kids) →
  (c, t1) ∈ kids →
  c :: s = t_prefix t1 ++ s2 →
  (∀ x, t_lookup t'' x
        = if bool_decide (x = t_prefix t1 ++ s2) then None else t_lookup t1 x) →
  ∀ x, t_lookup (after_delete r lf pre kids c t'') x
       = if bool_decide (x = pre ++ c :: s) then None
         else t_lookup (Tr lf pre kids) x.
Proof.
  intros (_ & _ & Hasc & _ & Hkids)%wf_inv Hin Hs Ht'' x.
  assert (∀ kids',
    (∀ c' y, c' ≠ c → with_kid (λ t', t_lookup t' (c' :: y)) None c' kids'
                      = with_kid (λ t', t_lookup t' (c' :: y)) None c' kids) →
    (∀ y, with_kid (λ t', t_lookup t' (c :: y)) None c kids'
          = if bool_decide (c :: y = c :: s) then None else t_lookup t1 (c :: y)) →
    t_lookup (Tr lf pre kids') x
    = if bool_decide (x = pre ++ c :: s) then None
      else t_lookup (Tr lf pre kids) x) as Hgen.
  { intros kids' Hne Hsame. rewrite !t_lookup_node.
    destruct (HasPrefix x pre) eqn:Hx.
    2:{ rewrite bool_decide_eq_false_2; [done|]. intros ->.
        by rewrite HasPrefix_app in Hx. }
    apply HasPrefix_spec in Hx as [y ->]. rewrite drop_app_length.
    rewrite (bool_decide_ext (pre ++ y = pre ++ c :: s) (y = c :: s)).
    2:{ split; [apply app_inv_head|by intros ->]. }
    destruct y as [|c' y'].
    { by rewrite bool_decide_eq_false_2. }
    destruct (decide (c' = c)) as [->|Hc].
    - rewrite Hsame. case_bool_decide; [done|].
      by rewrite (with_kid_elem _ _ _ t1).
    - rewrite Hne by done. by rewrite bool_decide_eq_false_2 by congruence. }
  unfold after_delete. destruct (t_empty t'') eqn:Hemp.
  - assert (t_lookup (Tr lf pre (del_kid c kids)) x
            = if bool_decide (x = pre ++ c :: s) then None
              else t_lookup (Tr lf pre kids) x) as Hdel.
    { apply Hgen.
      - intros c' y Hc. by apply with_kid_del_ne.
      - intros y. rewrite with_kid_del_same by done.
        destruct (decide (c :: y = c :: s)) as [Hy|Hy].
        { by rewrite bool_decide_eq_true_2. }
        rewrite bool_decide_eq_false_2 by done.
        specialize (Ht'' (c :: y)). rewrite t_lookup_empty in Ht'' by done.
        rewrite <-Hs in Ht''. by rewrite bool_decide_eq_false_2 in Ht''. }
    destruct (negb r && bool_decide (length (t_kids (Tr lf pre (del_kid c kids))) = 1)
              && negb (bool_decide (is_Some lf))) eqn:Hm; [|done].
    rewrite !andb_true_iff, bool_decide_eq_true, !negb_true_iff,
      bool_decide_eq_false in Hm. destruct Hm as [[_ Hlen] Hlf].
    cbn [t_kids] in Hlen.
    assert (lf = None) as -> by (destruct lf; [exfalso; eauto|done]).
    revert Hdel.
    destruct (del_kid c kids) as [|[l child] [|]] eqn:Hdk;
      try (simpl in Hlen; lia). intros Hdel.
    assert ((l, child) ∈ kids) as Hlc.
    { apply (del_kid_sublist c). rewrite Hdk. left. }
    rewrite Forall_forall in Hkids. destruct (Hkids _ Hlc) as [Hhd _].
    etrans; [exact (t_merge_lookup pre l child x Hhd)|exact Hdel].
  - apply Hgen.
    + intros c' y Hc. by apply with_kid_upd_ne.
    + intros y. rewrite with_kid_upd_same.
      rewrite (with_kid_elem _ _ _ t1) by done. rewrite Ht'', <-Hs. done.
Qed.

Lemma t_lookup_delete t : ∀ r path s t',
  wf r path t → t_delete r t s = Some t' →
  ∀ x, t_lookup t' x
       = if bool_decide (x = t_prefix t ++ s) then None else t_lookup t x.
Proof.
  induction t as [lf pre kids IH] using tree_ind'.
  intros r path s t' Hwf Hdel x. cbn [t_prefix]. destruct s as [|c s].
  - rewrite t_delete_nil in Hdel. destruct lf as [l|]; [|done].
    injection Hdel as <-.
    assert (t_lookup (Tr None pre kids) x
            = if bool_decide (x = pre ++ []) then None
              else t_lookup (Tr (Some l) pre kids) x) as Hnc.
    { rewrite !t_lookup_node. destruct (HasPrefix x pre) eqn:Hx.
      2:{ rewrite bool_decide_eq_false_2; [done|]. intros ->.
          by rewrite HasPrefix_app in Hx. }
      apply HasPrefix_spec in Hx as [y ->]. rewrite drop_app_length.
      destruct y; [by rewrite bool_decide_eq_true_2|].
      rewrite bool_decide_eq_false_2; [done|].
      intros Heq. apply app_inv_head in Heq. done. }
    destruct (negb r && bool_decide (length kids = 1)) eqn:Hm; [|done].
    rewrite andb_true_iff, bool_decide_eq_true in Hm. destruct Hm as [_ Hlen].
    destruct kids as [|[l1 child] [|]]; try (simpl in Hlen; lia).
    apply wf_inv in Hwf as (_ & _ & _ & _ & Hkids).
    apply Forall_inv in Hkids. destruct Hkids as [Hhd _].
    etrans; [exact (t_merge_lookup pre l1 child x Hhd)|exact Hnc].
  - apply t_delete_cons_inv in Hdel as (t1 & s2 & t'' & Hin & _ & Hs & Hd & ->).
    eapply t_lookup_after_delete; [done..|].
    rewrite Forall_forall in IH. specialize (IH _ Hin). cbn [snd] in IH.
    apply wf_inv in Hwf as (_ & _ & _ & _ & Hkids).
    rewrite Forall_forall in Hkids. destruct (Hkids _ Hin) as [_ Hwf1].
    by eapply IH.
Qed.

(** *** Well-formedness after a deletion *)

Lemma wf_merge P pre l (child : tree V) :
  kid_ok (P ++ pre) (l, child) →
  wf false P (t_merge (Tr None pre [(l, child)])).
Proof.
  intros [_ Hwf]. destruct child as [lf' pre' kids']. cbn [snd t_merge] in *.
  apply wf_inv in Hwf as (_ & Hl & Hasc & Hcnt & Hkids). unfold concat.
  apply wf_intro; try done; by rewrite app_assoc.
Qed.

Lemma t_merge_prefix pre kids :
  ∃ q, t_prefix (t_merge (Tr (V:=V) None pre kids)) = pre ++ q.
Proof.
  destruct kids as [|[l [lf' pre' kids']] ?]; simpl.
  - exists []. by rewrite app_nil_r.
  - by exists pre'.
Qed.

Lemma wf_delete t : ∀ r path s t',
  wf r path t → t_delete r t s = Some t' →
  (∃ q, t_prefix t' = t_prefix t ++ q)
  ∧ (r = true ∨ t_empty t' = false → wf r path t').
Proof.
  induction t as [lf pre kids IH] using tree_ind'.
  intros r path s t' Hwf Hdel. cbn [t_prefix]. destruct s as [|c s].
  - rewrite t_delete_nil in Hdel. destruct lf as [l|]; [|done].
    injection Hdel as <-.
    apply wf_inv in Hwf as (Hroot & Hl & Hasc & Hcnt & Hkids).
    destruct (negb r && bool_decide (length kids = 1)) eqn:Hm.
    + rewrite andb_true_iff, bool_decide_eq_true, negb_true_iff in Hm.
      destruct Hm as [-> Hlen]. split; [apply t_merge_prefix|]. intros _.
      destruct kids as [|[l1 child] [|]]; try (simpl in Hlen; lia).
      apply Forall_inv in Hkids. exact (wf_merge _ _ _ _ Hkids).
    + split; [exists []; by rewrite app_nil_r|]. intros Hne.
      apply wf_intro; try done. intros -> _.
      destruct Hne as [?|Hne]; [done|].
      unfold t_empty in Hne. cbn [t_leaf t_kids] in Hne.
      rewrite bool_decide_eq_true_2 in Hne by done. simpl in *.
      rewrite bool_decide_eq_false in Hne, Hm. lia.
  - apply t_delete_cons_inv in Hdel as (t1 & s2 & t'' & Hin & Hwk & Hs & Hd & ->).
    rewrite Forall_forall in IH. specialize (IH _ Hin). cbn [snd] in IH.
    apply wf_inv in Hwf as (Hroot & Hl & Hasc & Hcnt & Hkids).
    pose proof Hkids as Hkids'. rewrite Forall_forall in Hkids'.
    destruct (Hkids' _ Hin) as [Hhd1 Hwf1]. cbn [fst snd] in *.
    destruct (IH _ _ _ _ Hwf1 Hd) as [[q Hq] Hwf''].
    assert (has_kid c kids = true) as Hhas by (apply has_kid_elem; eauto).
    unfold after_delete. destruct (t_empty t'') eqn:Hemp.
    + destruct (negb r && bool_decide (length (t_kids (Tr lf pre (del_kid c kids))) = 1)
                && negb (bool_decide (is_Some lf))) eqn:Hm.
      * rewrite !andb_true_iff, bool_decide_eq_true, !negb_true_iff,
          bool_decide_eq_false in Hm. destruct Hm as [[-> Hlen] Hlf].
        cbn [t_kids] in Hlen.
        assert (lf = None) as -> by (destruct lf; [exfalso; eauto|done]).
        split; [apply t_merge_prefix|]. intros _.
        destruct (del_kid c kids) as [|[l child] [|]] eqn:Hdk;
          try (simpl in Hlen; lia).
        refine (wf_merge _ _ _ _ _). apply Hkids'. apply (del_kid_sublist c).
        rewrite Hdk. left.
      * split; [exists []; by rewrite app_nil_r|]. intros Hne.
        apply wf_intro; try done.
        -- by apply ascending_del_kid.
        -- intros -> ->. specialize (Hcnt eq_refl eq_refl).
           pose proof (del_kid_length _ _ Hhas) as Hdl.
           simpl in Hm. rewrite andb_true_r, bool_decide_eq_false in Hm. lia.
        -- apply Forall_forall. intros lt Hlt. apply Hkids'.
           by apply (del_kid_sublist c).
    + split; [exists []; by rewrite app_nil_r|]. intros _.
      apply wf_intro; try done.
      * by rewrite upd_kid_labels.
      * by rewrite upd_kid_length.
      * apply Forall_upd_kid; [done|]. intros t2 Hin2 _.
        split; cbn [fst snd]; [|apply Hwf''; by right].
        rewrite Hq. destruct (t_prefix t1); [done|]. done.
Qed.

End Deletion.

(** ** The in-order listing of the functional model *)

Section Walks.

Context {V : Type}.

Implicit Types (t : tree V) (kids : list (byte * tree V)) (k s x y : list byte).
Implicit Types (lf : option (leafNode V)) (kv : list byte * V).

Definition leaf_entry lf : list (list byte * V) :=
  match lf with
  | Some l => [(key l, val l)]
  | None => []
  end.

Definition kids_walk kids : list (list byte * V) :=
  mjoin (map (λ lt, t_walk lt.2) kids).

Lemma t_walk_eq lf pre kids :
  t_walk (Tr lf pre kids) = leaf_entry lf ++ kids_walk kids.
Proof. done. Qed.

Lemma kids_walk_cons l t kids :
  kids_walk ((l, t) :: kids) = t_walk t ++ kids_walk kids.
Proof. done. Qed.

Lemma kids_walk_app kids1 kids2 :
  kids_walk (kids1 ++ kids2) = kids_walk kids1 ++ kids_walk kids2.
Proof. unfold kids_walk. by rewrite map_app, join_app. Qed.

Lemma elem_of_kids_walk kv kids :
  kv ∈ kids_walk kids ↔ ∃ l t, (l, t) ∈ kids ∧ kv ∈ t_walk t.
Proof.
  induction kids as [|[l t] ks IH].
  - split; [by intros ?%elem_of_nil|]. by intros (? & ? & ?%elem_of_nil & _).
  - rewrite kids_walk_cons, elem_of_app, IH. split.
    + intros [?|(l' & t' & ? & ?)].
      * exists l, t. split; [left|done].
      * exists l', t'. split; [by right|done].
    + intros (l' & t' & [[= -> ->]|?]%elem_of_cons & ?); [by left|].
      right. by exists l', t'.
Qed.

(** Every key listed below a node extends the key prefix of the node;
    the listing is in strictly ascending lexicographic order. *)
Lemma walk_sorted_keys t : ∀ r path,
  wf r path t →
  StronglySorted lex_lt (t_walk t).*1
  ∧ Forall (λ kv, ∃ x, kv.1 = path ++ t_prefix t ++ x) (t_walk t).
Proof.
  induction t as [lf pre kids IH] using tree_ind'. intros r path Hwf.
  apply wf_inv in Hwf as (_ & Hl & Hasc & _ & Hkids).
  rewrite t_walk_eq. cbn [t_prefix].
  assert (StronglySorted lex_lt (kids_walk kids).*1
          ∧ Forall (λ kv, ∃ l y, l ∈ kids.*1 ∧ kv.1 = (path ++ pre) ++ l :: y)
                   (kids_walk kids)) as [Hks Hkk].
  { clear Hl. induction kids as [|[l t] ks IHks].
    { split; constructor. }
    apply Forall_cons in IH as [IHt IHrest].
    apply Forall_cons in Hkids as [[Hhd Hwft] Hkids].
    csimpl in Hasc. apply ascending_cons in Hasc as [Hlt Hasc].
    destruct (IHks IHrest Hasc Hkids) as [Hs Hk].
    destruct (IHt _ _ Hwft) as [Hst Hkt]. cbn [fst snd] in *.
    assert (Forall (λ kv, ∃ y, kv.1 = (path ++ pre) ++ l :: y) (t_walk t)) as Hkt'.
    { eapply Forall_impl; [exact Hkt|]. intros kv [x Hx].
      destruct (t_prefix t) as [|l' q]; simplify_eq/=. by exists (q ++ x). }
    rewrite kids_walk_cons. split.
    - rewrite fmap_app. apply StronglySorted_app_2; [|done..].
      intros k1 k2 (kv1 & -> & H1)%list_elem_of_fmap (kv2 & -> & H2)%list_elem_of_fmap.
      rewrite Forall_forall in Hkt', Hk.
      destruct (Hkt' _ H1) as [y1 ->]. destruct (Hk _ H2) as (l2 & y2 & Hl2 & ->).
      apply lex_lt_app, lex_lt_cons_lt.
      rewrite Forall_forall in Hlt. by apply Hlt.
    - apply Forall_app. split.
      + eapply Forall_impl; [exact Hkt'|]. intros kv [y ->].
        exists l, y. split; [csimpl; left|done].
      + eapply Forall_impl; [exact Hk|]. intros kv (l2 & y & ? & ->).
        exists l2, y. split; [csimpl; by right|done]. }
  split.
  - rewrite fmap_app. apply StronglySorted_app_2; [|by destruct lf; repeat constructor|done].
    intros k1 k2 (kv1 & -> & H1)%list_elem_of_fmap (kv2 & -> & H2)%list_elem_of_fmap.
    destruct lf as [l|]; [|by apply elem_of_nil in H1].
    apply list_elem_of_singleton in H1 as ->. cbn [fst].
    rewrite (Hl l eq_refl). rewrite Forall_forall in Hkk.
    destruct (Hkk _ H2) as (l2 & y & _ & ->).
    rewrite <-(app_nil_r (path ++ pre)) at 1. by apply lex_lt_app.
  - apply Forall_app. split.
    + destruct lf as [l|]; repeat constructor. cbn [fst].
      exists []. by rewrite (Hl l eq_refl), app_nil_r.
    + eapply Forall_impl; [exact Hkk|]. intros kv (l2 & y & _ & ->).
      exists (l2 :: y). by rewrite <-app_assoc.
Qed.

Lemma walk_sorted t r path :
  wf r path t → StronglySorted lex_lt (t_walk t).*1.
Proof. intros Hwf. by destruct (walk_sorted_keys t r path Hwf). Qed.

(** The listing holds exactly the leaves that lookups find. *)
Lemma walk_find t : ∀ r path k v,
  wf r path t →
  (k, v) ∈ t_walk t
  ↔ ∃ x, k = path ++ t_prefix t ++ x ∧ t_find t x = Some (LeafNode k v).
Proof.
  induction t as [lf pre kids IH] using tree_ind'. intros r path k v Hwf.
  apply wf_inv in Hwf as (_ & Hl & Hasc & _ & Hkids).
  rewrite Forall_forall in IH, Hkids.
  rewrite t_walk_eq, elem_of_app, elem_of_kids_walk. cbn [t_prefix]. split.
  - intros [Hin|(l & t1 & Hin & Hkv)].
    + destruct lf as [[k' v']|]; [|by apply elem_of_nil in Hin].
      apply list_elem_of_singleton in Hin. simplify_eq/=.
      exists []. split; [|done]. specialize (Hl _ eq_refl). simpl in Hl.
      by rewrite app_nil_r.
    + destruct (Hkids _ Hin) as [Hhd Hwf1]. cbn [fst snd] in *.
      apply (IH _ Hin _ _ _ _ Hwf1) in Hkv as (x1 & -> & Hf).
      exists (t_prefix t1 ++ x1). split; [by rewrite <-!app_assoc|].
      rewrite <-!app_assoc in Hf.
      destruct (t_prefix t1) as [|l' q] eqn:Hp; [done|].
      injection Hhd as ->.
      change ((l :: q) ++ x1) with (l :: (q ++ x1)) at 1.
      rewrite t_find_cons, (with_kid_elem _ _ _ t1) by done.
      change (l :: q ++ x1) with ((l :: q) ++ x1) at 1.
      rewrite <-Hp at 1. cbn [snd] in *.
      rewrite t_lookup_app by done. by rewrite Hf, <-!app_assoc.
  - intros (x & -> & Hf). destruct x as [|c x'].
    + left. simpl in Hf. subst lf. simpl. left.
    + right. rewrite t_find_cons in Hf.
      destruct (with_kid_case (λ t', t_lookup t' (c :: x')) None c kids)
        as [[_ Hno]|(t1 & Hin & _ & Heq)]; [congruence|].
      rewrite Heq in Hf. exists c, t1. split; [done|].
      destruct (Hkids _ Hin) as [Hhd Hwf1]. cbn [fst snd] in *.
      apply (IH _ Hin _ _ _ _ Hwf1). unfold t_lookup in Hf.
      destruct (HasPrefix (c :: x') (t_prefix t1)) eqn:Hp; [|done].
      apply HasPrefix_spec in Hp as [x1 Hx1]. rewrite Hx1, drop_app_length in Hf.
      exists x1. cbn [snd]. split; [by rewrite Hx1, <-!app_assoc|].
      by rewrite Hf, Hx1.
Qed.

Lemma walk_find_root t k v :
  wf true [] t → (k, v) ∈ t_walk t ↔ t_find t k = Some (LeafNode k v).
Proof.
  intros Hwf. rewrite (walk_find t true [] k v Hwf).
  destruct t as [lf pre kids]. apply wf_inv in Hwf as (-> & _); [|done].
  simpl. split; [by intros (x & -> & ?)|]. intros. by exists k.
Qed.

(** Two strictly sorted listings with the same entries are equal. *)
Lemma sorted_unique (l1 l2 : list (list byte * V)) :
  StronglySorted lex_lt l1.*1 → StronglySorted lex_lt l2.*1 →
  (∀ kv, kv ∈ l1 ↔ kv ∈ l2) → l1 = l2.
Proof.
  revert l2. induction l1 as [|a l1 IH]; intros l2 H1 H2 Heq.
  { destruct l2 as [|b l2]; [done|]. exfalso.
    eapply not_elem_of_nil, Heq. left. }
  destruct l2 as [|b l2].
  { exfalso. eapply not_elem_of_nil, Heq. left. }
  csimpl in *. apply StronglySorted_cons in H1 as [Ha H1], H2 as [Hb H2].
  rewrite Forall_forall in Ha, Hb.
  assert (∀ (x y : list byte * V) (l : list (list byte * V)), x ∈ l → x.1 ∈ l.*1) as Hfst.
  { intros x _ l Hx. apply list_elem_of_fmap. eauto. }
  assert (a = b) as <-.
  { destruct (decide_rel (=) a.1 b.1) as [E|E].
    - assert (a ∈ b :: l2) as [->|Hin]%elem_of_cons by (apply Heq; left); [done|].
      exfalso. apply (lex_lt_irrefl a.1). rewrite E at 1. apply Hb.
      by apply (Hfst a a).
    - exfalso.
      assert (a ∈ b :: l2) as [->|Hin]%elem_of_cons by (apply Heq; left); [done|].
      assert (b ∈ a :: l1) as [->|Hin']%elem_of_cons by (apply Heq; left); [done|].
      apply (lex_lt_asym a.1 b.1); [apply Ha|apply Hb]; by apply (Hfst _ a). }
  f_equal. apply IH; [done..|]. intros kv. split; intros Hin.
  - assert (kv ∈ a :: l2) as [->|?]%elem_of_cons by (apply Heq; by right); [|done].
    exfalso. apply (lex_lt_irrefl a.1), Ha. by apply (Hfst a a).
  - assert (kv ∈ a :: l1) as [->|?]%elem_of_cons by (apply Heq; by right); [|done].
    exfalso. apply (lex_lt_irrefl a.1), Hb. by apply (Hfst a a).
Qed.

Lemma walk_ext t1 t2 :
  wf true [] t1 → wf true [] t2 →
  (∀ k, t_find t1 k = t_find t2 k) → t_walk t1 = t_walk t2.
Proof.
  intros H1 H2 Heq. apply sorted_unique; [by eapply walk_sorted..|].
  intros [k v]. by rewrite !walk_find_root, Heq.
Qed.

(** *** Minimum and maximum *)

Lemma wf_walk_nonempty t : ∀ path, wf false path t → t_walk t ≠ [].
Proof.
  induction t as [lf pre kids IH] using tree_ind'. intros path Hwf.
  apply wf_inv in Hwf as (_ & _ & _ & Hcnt & Hkids).
  rewrite t_walk_eq. destruct lf as [l|]; [done|]. simpl.
  specialize (Hcnt eq_refl eq_refl). destruct kids as [|[l t] ks]; [simpl in Hcnt; lia|].
  apply Forall_cons in IH as [IHt _]. apply Forall_cons in Hkids as [[_ Hwft] _].
  rewrite kids_walk_cons. intros [E _]%app_eq_nil. by eapply IHt.
Qed.

Lemma t_min_head t : ∀ r path, wf r path t → t_min t = head (t_walk t).
Proof.
  induction t as [lf pre kids IH] using tree_ind'. intros r path Hwf.
  apply wf_inv in Hwf as (_ & _ & _ & _ & Hkids).
  rewrite t_walk_eq. destruct lf as [l|]; [done|]. simpl.
  destruct kids as [|[l t] ks]; [done|].
  apply Forall_cons in IH as [IHt _]. apply Forall_cons in Hkids as [[_ Hwft] _].
  cbn [snd] in *. rewrite kids_walk_cons, head_app. cbn [t_min].
  rewrite (IHt _ _ Hwft).
  pose proof (wf_walk_nonempty _ _ Hwft) as Hne.
  by destruct (t_walk t).
Qed.

Lemma t_max_eq lf pre kids :
  t_max (Tr lf pre kids)
  = match last kids with
    | None => (λ l, (key l, val l)) <$> lf
    | Some (_, t') => t_max t'
    end.
Proof.
  destruct kids as [|[l0 t0] ks]; [done|]. cbn [t_max].
  revert l0 t0. induction ks as [|[l1 t1] ks IH]; intros l0 t0; [done|].
  rewrite last_cons_cons. by rewrite <-(IH l1 t1).
Qed.

Lemma t_max_last t : ∀ r path, wf r path t → t_max t = last (t_walk t).
Proof.
  induction t as [lf pre kids IH] using tree_ind'. intros r path Hwf.
  apply wf_inv in Hwf as (_ & _ & _ & _ & Hkids).
  rewrite t_max_eq, t_walk_eq.
  destruct (last kids) as [[l t]|] eqn:Hlast.
  - apply last_Some in Hlast as [ks ->].
    apply Forall_app in IH as [_ [IHt _]%Forall_cons].
    apply Forall_app in Hkids as [_ [[_ Hwft] _]%Forall_cons].
    cbn [snd] in *.
    rewrite kids_walk_app, kids_walk_cons. unfold kids_walk at 2. simpl.
    rewrite app_nil_r, !last_app, <-(IHt _ _ Hwft).
    pose proof (wf_walk_nonempty _ _ Hwft) as Hne.
    rewrite (IHt _ _ Hwft). apply last_is_Some in Hne as [kv ->]. done.
  - apply last_None in Hlast as ->. unfold kids_walk. simpl.
    rewrite app_nil_r. by destruct lf.
Qed.

End Walks.

(** ** Heap computations *)

Section HeapFacts.

Context {V : Type}.

Implicit Types (h g : heap V) (nd : Node V) (e : edge) (sl : slice).
Implicit Types (es l : list edge) (a n : addr).

Lemma bind_ok {A B} (m : M V A) (k : A → M V B) h (x : A) h' :
  m h = Ok x h' → bind m k h = k x h'.
Proof. unfold bind. by intros ->. Qed.

Lemma bind_panic {A B} (m : M V A) (k : A → M V B) h f :
  m h = Panic f → bind m k h = Panic f.
Proof. unfold bind. by intros ->. Qed.

Lemma bind_assoc {A B C} (m : M V A) (f : A → M V B) (g : B → M V C) h :
  bind (bind m f) g h = bind m (λ x, bind (f x) g) h.
Proof. unfold bind. by destruct (m h). Qed.

(** *** Node cells *)

Lemma read_node_ok h a nd : nodes h !! a = Some nd → read_node a h = Ok nd h.
Proof. unfold read_node. by intros ->. Qed.

Lemma write_node_ok h a nd x :
  nodes h !! a = Some nd →
  write_node a x h = Ok () (Heap (<[a:=x]> (nodes h)) (arrays h)).
Proof. unfold write_node. by intros ->. Qed.

Lemma set_leaf_ok h a nd lf :
  nodes h !! a = Some nd →
  set_leaf a lf h
  = Ok () (Heap (<[a:=MkNode lf (prefix nd) (edges nd)]> (nodes h)) (arrays h)).
Proof.
  intros H. unfold set_leaf.
  rewrite (bind_ok _ _ _ _ _ (read_node_ok _ _ _ H)). by eapply write_node_ok.
Qed.

Lemma set_prefix_ok h a nd p :
  nodes h !! a = Some nd →
  set_prefix a p h
  = Ok () (Heap (<[a:=MkNode (leaf nd) p (edges nd)]> (nodes h)) (arrays h)).
Proof.
  intros H. unfold set_prefix.
  rewrite (bind_ok _ _ _ _ _ (read_node_ok _ _ _ H)). by eapply write_node_ok.
Qed.

Lemma set_edges_ok h a nd sl :
  nodes h !! a = Some nd →
  set_edges a sl h
  = Ok () (Heap (<[a:=MkNode (leaf nd) (prefix nd) sl]> (nodes h)) (arrays h)).
Proof.
  intros H. unfold set_edges.
  rewrite (bind_ok _ _ _ _ _ (read_node_ok _ _ _ H)). by eapply write_node_ok.
Qed.

(** *** Slices *)

(** The backing array of a slice. *)
Definition arr_at h sl l : Prop :=
  match arr sl with
  | None => l = []
  | Some a => arrays h !! a = Some l
  end.

Lemma view_arr_at h sl es :
  view h sl es ↔
  ∃ l, arr_at h sl l ∧ off sl + len sl ≤ length l
       ∧ es = take (len sl) (drop (off sl) l).
Proof. done. Qed.

Lemma view_length h sl es : view h sl es → length es = len sl.
Proof.
  intros (l & _ & Hlen & ->). rewrite length_take, length_drop. lia.
Qed.

Lemma view_nil h : view h nil_slice [].
Proof. exists []. simpl. done. Qed.

Lemma read_array_ok h sl l : arr_at h sl l → read_array sl h = Ok l h.
Proof.
  unfold arr_at, read_array. destruct (arr sl); [by intros ->|by intros ->].
Qed.

Lemma elems_ok h sl es : view h sl es → elems sl h = Ok es h.
Proof.
  intros (l & Hl & _ & ->). unfold elems.
  by rewrite (bind_ok _ _ _ _ _ (read_array_ok _ _ _ Hl)).
Qed.

Lemma index_ok h sl es i e :
  view h sl es → es !! i = Some e → index sl i h = Ok e h.
Proof.
  intros (l & Hl & Hlen & ->) Hi. unfold index.
  rewrite (bind_ok _ _ _ _ _ (read_array_ok _ _ _ Hl)).
  apply lookup_take_Some in Hi as [Hi Hlt]. rewrite lookup_drop in Hi.
  apply Nat.ltb_lt in Hlt. by rewrite Hlt, Hi.
Qed.

Lemma cap_ok h sl l : arr_at h sl l → cap sl h = Ok (length l - off sl) h.
Proof.
  intros Hl. unfold cap. by rewrite (bind_ok _ _ _ _ _ (read_array_ok _ _ _ Hl)).
Qed.

Lemma reslice_ok h sl l i j :
  arr_at h sl l → i ≤ j → j ≤ length l - off sl →
  reslice sl i j h = Ok (Slice (arr sl) (off sl + i) (j - i)) h.
Proof.
  intros Hl Hij Hj. unfold reslice.
  rewrite (bind_ok _ _ _ _ _ (cap_ok _ _ _ Hl)).
  apply Nat.leb_le in Hij, Hj. by rewrite Hij, Hj.
Qed.

Lemma set_index_ok h a o n l i e :
  arrays h !! a = Some l → i < n → o + i < length l →
  set_index (Slice (Some a) o n) i e h
  = Ok () (Heap (nodes h) (<[a := <[o + i := e]> l]> (arrays h))).
Proof.
  intros Hl Hi Ho. unfold set_index. cbn [arr off len].
  apply Nat.ltb_lt in Hi, Ho. by rewrite Hi, Hl, Ho.
Qed.

Lemma store_from_ok xs : ∀ h a o n l i,
  arrays h !! a = Some l → i + length xs ≤ n → o + i + length xs ≤ length l →
  store_from (Slice (Some a) o n) i xs h
  = Ok () (Heap (nodes h)
             (<[a := take (o + i) l ++ xs ++ drop (o + i + length xs) l]> (arrays h))).
Proof.
  induction xs as [|x xs IH]; intros h a o n l i Hl Hn Ho; cbn [store_from length] in *.
  - unfold ret. rewrite app_nil_l, Nat.add_0_r, take_drop.
    rewrite list_insert_id by done. by destruct h.
  - rewrite (bind_ok _ _ _ _ _ (set_index_ok h a o n l i x Hl ltac:(lia) ltac:(lia))).
    rewrite (IH _ a o n (<[o + i := x]> l) (S i)); cbn [nodes arrays].
    + rewrite list_insert_insert_eq. do 3 f_equal.
      replace (o + S i) with (S (o + i)) by lia.
      rewrite (take_S_r _ _ x) by (apply list_lookup_insert_eq; lia).
      rewrite take_insert_ge by lia. rewrite <-app_assoc. cbn [app]. do 2 f_equal.
      f_equal. rewrite drop_insert_lt by lia. f_equal. lia.
    + apply list_lookup_insert_eq. by eapply lookup_lt_Some.
    + lia.
    + rewrite length_insert. lia.
Qed.

Lemma copy_ok h a o n ld src es :
  view h src es → arrays h !! a = Some ld →
  o + Nat.min n (len src) ≤ length ld →
  copy (Slice (Some a) o n) src h
  = Ok (Nat.min n (len src))
       (Heap (nodes h)
          (<[a := take o ld ++ take (Nat.min n (len src)) es
                  ++ drop (o + Nat.min n (len src)) ld]> (arrays h))).
Proof.
  intros Hsrc Hld Ho. unfold copy. cbn [len].
  rewrite (bind_ok _ _ _ _ _ (elems_ok _ _ _ Hsrc)).
  pose proof (view_length _ _ _ Hsrc) as Hlen.
  assert (length (take (n `min` len src) es) = n `min` len src) as Hlt.
  { rewrite length_take. lia. }
  erewrite bind_ok; [|apply (store_from_ok _ h a o n ld 0 Hld); lia].
  unfold ret. by rewrite Nat.add_0_r, Hlt.
Qed.

(** *** Extension of the heap *)

Definition heap_ext h h' : Prop :=
  nodes h `prefix_of` nodes h' ∧ arrays h `prefix_of` arrays h'.

Lemma heap_ext_refl h : heap_ext h h.
Proof. by split. Qed.

Lemma heap_ext_trans h1 h2 h3 : heap_ext h1 h2 → heap_ext h2 h3 → heap_ext h1 h3.
Proof. intros [? ?] [? ?]. split; by etrans. Qed.

Lemma heap_ext_node h h' a nd :
  heap_ext h h' → nodes h !! a = Some nd → nodes h' !! a = Some nd.
Proof. intros [? _] ?. by eapply prefix_lookup_Some. Qed.

Lemma view_mono h h' sl es :
  arrays h `prefix_of` arrays h' → view h sl es → view h' sl es.
Proof.
  intros Ha (l & Hl & ? & ?). exists l. split; [|done].
  unfold arr_at in *. destruct (arr sl); [|done]. by eapply prefix_lookup_Some.
Qed.

Lemma heap_ext_view h h' sl es : heap_ext h h' → view h sl es → view h' sl es.
Proof. intros [_ Ha]. by apply view_mono. Qed.

Lemma heap_ext_repr h h' a (t : tree V) : heap_ext h h' → repr h a t → repr h' a t.
Proof.
  intros Hext. revert a. induction t as [lf pre kids IH] using tree_ind'.
  intros a Hrep. inversion Hrep as [? ? ? sl es ? Hn Hv Hk]; subst.
  econstructor; [by eapply heap_ext_node|by eapply heap_ext_view|].
  clear Hrep Hv Hn. revert IH.
  induction Hk as [|e [l t] es ks [Hl (c & Hc & Hr)] Hk IHk];
    intros [IHt IH]%Forall_cons_1 || intros _; constructor.
  - split; [done|]. exists c. split; [done|]. by apply IHt.
  - by apply IHk.
Qed.

Lemma heap_ext_grow h ns xs : heap_ext h (Heap (nodes h ++ ns) (arrays h ++ xs)).
Proof. split; by apply prefix_app_r. Qed.

End HeapFacts.

(** ** The node operations on the heap *)

Section NodeOps.

Context {V : Type}.

Implicit Types (h g : heap V) (nd : Node V) (e : edge) (sl : slice).
Implicit Types (es l : list edge) (a n : addr) (lf : option (leafNode V)).

Lemma lookup_snoc {A} (l : list A) (x : A) : (l ++ [x]) !! length l = Some x.
Proof. by apply list_lookup_middle. Qed.

Lemma insert_snoc {A} (l : list A) (x y : A) : <[length l := y]> (l ++ [x]) = l ++ [y].
Proof.
  rewrite <-(Nat.add_0_r (length l)) at 1. by rewrite insert_app_r.
Qed.

(** The slice and the backing array that [make] and [copy] produce for
    the elements [es] when the next free array address is [A]. *)
Definition copy_slice (A : addr) es : slice :=
  if bool_decide (length es ≠ 0) then Slice (Some A) 0 (length es) else nil_slice.

Definition copy_arrays es : list (list edge) :=
  if bool_decide (length es ≠ 0) then [es] else [].

Lemma copy_slice_view (N : list (Node V)) (A : list (list edge)) xs es :
  view (Heap N (A ++ copy_arrays es ++ xs)) (copy_slice (length A) es) es.
Proof.
  unfold copy_slice, copy_arrays. case_bool_decide as Hne.
  - exists es. cbn. rewrite list_lookup_middle by done.
    split; [done|]. split; [lia|]. by rewrite drop_0, firstn_all.
  - destruct es; [|simpl in Hne; lia]. apply view_nil.
Qed.

Lemma writeNode_ok h n nd es :
  nodes h !! n = Some nd → view h (edges nd) es →
  writeNode n h
  = Ok (length (nodes h))
       (Heap (nodes h ++ [MkNode (leaf nd) (prefix nd) (copy_slice (length (arrays h)) es)])
             (arrays h ++ copy_arrays es)).
Proof.
  intros Hn Hv. unfold writeNode.
  rewrite (bind_ok _ _ _ _ _ (read_node_ok _ _ _ Hn)).
  erewrite bind_ok; [|reflexivity].
  erewrite bind_ok; [|by eapply set_prefix_ok, lookup_snoc].
  cbn [nodes arrays leaf prefix edges]. rewrite insert_snoc.
  pose proof (view_length _ _ _ Hv) as Hlen.
  unfold copy_slice, copy_arrays. rewrite Hlen.
  case_bool_decide as Hne.
  - erewrite bind_ok; [|erewrite bind_ok; [|reflexivity]].
    2:{ cbn [nodes arrays].
        erewrite bind_ok.
        2:{ eapply (copy_ok _ _ 0 _ (replicate (len (edges nd)) zero_edge)).
            - eapply heap_ext_view; [|exact Hv].
              apply (heap_ext_grow h [_] [_]).
            - apply lookup_snoc.
            - rewrite length_replicate. lia. }
        cbn [nodes arrays]. eapply set_edges_ok, lookup_snoc. }
    unfold ret. cbn [nodes arrays leaf prefix]. rewrite !insert_snoc.
    do 3 f_equal. rewrite Nat.min_id, take_0, app_nil_l.
    rewrite <-Hlen, firstn_all, drop_replicate.
    replace (length es - (0 + length es)) with 0 by lia. simpl. by rewrite app_nil_r.
  - erewrite bind_ok; [|reflexivity]. unfold ret. by rewrite app_nil_r.
Qed.

(** The result of [getEdge] on the elements [es]. *)
Definition find_edge es (c : byte) : Z * option addr :=
  match es !! search_label es c with
  | Some e' =>
      if bool_decide (label e' = c)
      then (Z.of_nat (search_label es c), node e') else ((-1)%Z, None)
  | None => ((-1)%Z, None)
  end.

Lemma getEdge_ok h n nd es c :
  nodes h !! n = Some nd → view h (edges nd) es →
  getEdge n c h = Ok (find_edge es c) h.
Proof.
  intros Hn Hv. unfold getEdge, find_edge.
  rewrite (bind_ok _ _ _ _ _ (read_node_ok _ _ _ Hn)).
  rewrite (bind_ok _ _ _ _ _ (elems_ok _ _ _ Hv)).
  pose proof (view_length _ _ _ Hv) as Hlen. rewrite <-Hlen.
  destruct (es !! search_label es c) as [e'|] eqn:He.
  - pose proof (lookup_lt_Some _ _ _ He) as Hlt. apply Nat.ltb_lt in Hlt.
    rewrite Hlt. rewrite (bind_ok _ _ _ _ _ (index_ok _ _ _ _ _ Hv He)).
    by case_bool_decide.
  - apply lookup_ge_None in He. apply Nat.ltb_ge in He. by rewrite He.
Qed.

Lemma set_edge_node_ok h n lf pre A k l es i e c :
  nodes h !! n = Some (MkNode lf pre (Slice (Some A) 0 k)) →
  arrays h !! A = Some l → k ≤ length l → es = take k l →
  es !! i = Some e →
  set_edge_node n (Z.of_nat i) c h
  = Ok () (Heap (nodes h) (<[A := <[i := Edge (label e) c]> l]> (arrays h))).
Proof.
  intros Hn Hl Hk -> Hi. unfold set_edge_node.
  rewrite (bind_ok _ _ _ _ _ (read_node_ok _ _ _ Hn)). cbn [edges].
  destruct (Z.ltb_spec (Z.of_nat i) 0) as [?|_]; [lia|].
  rewrite Nat2Z.id.
  assert (view h (Slice (Some A) 0 k) (take k l)) as Hv.
  { exists l. cbn. by rewrite drop_0. }
  rewrite (bind_ok _ _ _ _ _ (index_ok _ _ _ _ _ Hv Hi)).
  apply lookup_take_Some in Hi as [Hi Hik].
  rewrite (set_index_ok h A 0 k l i _ Hl);
    [done|done|by eapply lookup_lt_Some].
Qed.

Lemma replaceEdge_ok h n lf pre A k l es e' e :
  nodes h !! n = Some (MkNode lf pre (Slice (Some A) 0 k)) →
  arrays h !! A = Some l → k ≤ length l → es = take k l →
  es !! search_label es (label e) = Some e' → label e' = label e →
  replaceEdge n e h
  = Ok () (Heap (nodes h)
             (<[A := <[search_label es (label e) := Edge (label e') (node e)]> l]>
                (arrays h))).
Proof.
  intros Hn Hl Hk -> Hi Hlab. unfold replaceEdge.
  rewrite (bind_ok _ _ _ _ _ (read_node_ok _ _ _ Hn)). cbn [edges len].
  assert (view h (Slice (Some A) 0 k) (take k l)) as Hv.
  { exists l. cbn. by rewrite drop_0. }
  rewrite (bind_ok _ _ _ _ _ (elems_ok _ _ _ Hv)).
  pose proof (proj1 (lookup_take_Some _ _ _ _) Hi) as [Hi' Hik].
  pose proof Hik as Hik'. apply Nat.ltb_lt in Hik'. rewrite Hik'.
  rewrite (bind_ok _ _ _ _ _ (index_ok _ _ _ _ _ Hv Hi)).
  rewrite bool_decide_eq_true_2 by done.
  rewrite (set_index_ok h A 0 k l _ _ Hl);
    [done|done|by eapply lookup_lt_Some].
Qed.


Lemma Search_le (m : nat) (f : nat → bool) : Search m f ≤ m.
Proof.
  unfold Search.
  assert (∀ fuel i j, i ≤ j → j ≤ m → Search_loop fuel i j f ≤ m) as H.
  { induction fuel as [|fuel IH]; intros i j Hij Hj; cbn [Search_loop]; [lia|].
    destruct (Nat.ltb_spec i j) as [Hlt|Hge]; [|lia].
    assert (i ≤ (i + j) / 2 ∧ (i + j) / 2 < j) as [Hh1 Hh2].
    { split; [apply Nat.div_le_lower_bound|apply Nat.Div0.div_lt_upper_bound]; lia. }
    cbv zeta. destruct (negb (f ((i + j) / 2))); apply IH; lia. }
  apply H; lia.
Qed.

Lemma search_label_le es c : search_label es c ≤ length es.
Proof. apply Search_le. Qed.

(** The edge list after [addEdge] placed [e] at index [i]. *)
Definition add_at (i : nat) e es : list edge := take i es ++ e :: drop i es.

Lemma add_at_shift l e idx x pad :
  l !! idx = Some x →
  <[idx := e]> (take (S idx) ((l ++ [e]) ++ pad) ++ drop idx l
                ++ drop (S (length l)) ((l ++ [e]) ++ pad))
  = add_at idx e l ++ pad.
Proof.
  intros Hx. pose proof (lookup_lt_Some _ _ _ Hx) as Hlt.
  rewrite <-(app_assoc l), (take_app_le l) by lia.
  rewrite (take_S_r l idx x) by done.
  replace (S (length l)) with (length (l ++ [e])) by (rewrite length_app; simpl; lia).
  rewrite (app_assoc l), drop_app_length.
  unfold add_at. rewrite <-!app_assoc. cbn [app].
  replace idx with (length (take idx l) + 0) at 1 by (rewrite length_take; lia).
  by rewrite insert_app_r.
Qed.

(** The spare capacity [append] leaves when it grows a full slice of
    length [m]. *)
Definition grow_pad (m : nat) : nat := Nat.max (S m) (2 * (m - 0)) - S m.

Lemma addEdge_ok h n lf pre sl l e :
  nodes h !! n = Some (MkNode lf pre sl) →
  arr_at h sl l → off sl = 0 → len sl = length l →
  addEdge n e h
  = Ok () (Heap (<[n := MkNode lf pre (Slice (Some (length (arrays h))) 0 (S (length l)))]>
                   (nodes h))
                (arrays h ++ [add_at (search_label l (label e)) e l
                              ++ replicate (grow_pad (length l)) zero_edge])).
Proof.
  intros Hn Hl Hoff Hlen. unfold grow_pad.
  set (c' := Nat.max (S (length l)) (2 * (length l - 0))).
  assert (view h sl l) as Hv.
  { exists l. rewrite Hoff, Hlen, drop_0, firstn_all. split; [done|]. split; [lia|done]. }
  unfold addEdge.
  rewrite (bind_ok _ _ _ _ _ (read_node_ok _ _ _ Hn)). cbn [edges].
  rewrite (bind_ok _ _ _ _ _ (elems_ok _ _ _ Hv)).
  set (idx := search_label l (label e)).
  assert (idx ≤ length l) as Hidx by apply search_label_le.
  set (A := length (arrays h)).
  set (l1 := (l ++ [e]) ++ replicate (c' - S (length l)) zero_edge).
  set (s1 := Slice (Some A) 0 (S (length l))).
  assert (append sl e h = Ok s1 (Heap (nodes h) (arrays h ++ [l1]))) as Happ.
  { unfold append. rewrite (bind_ok _ _ _ _ _ (cap_ok _ _ _ Hl)).
    rewrite Hoff, Hlen. rewrite (proj2 (Nat.ltb_ge _ _)) by lia.
    rewrite (bind_ok _ _ _ _ _ (elems_ok _ _ _ Hv)).
    erewrite bind_ok; [|reflexivity]. fold c'.
    erewrite bind_ok.
    2:{ apply (store_from_ok _ _ (length (arrays h)) 0 _ (replicate c' zero_edge) 0).
        - apply lookup_snoc.
        - rewrite length_app. simpl. lia.
        - rewrite length_app, length_replicate. simpl. lia. }
    unfold ret. cbn [nodes arrays arr]. rewrite insert_snoc.
    do 4 f_equal. unfold l1. rewrite take_0, app_nil_l, drop_replicate.
    rewrite length_app. simpl. do 2 f_equal. lia. }
  rewrite (bind_ok _ _ _ _ _ Happ).
  erewrite bind_ok; [|by eapply set_edges_ok]. cbn [nodes arrays leaf prefix len].
  set (h2 := Heap _ _).
  assert (arrays h2 !! A = Some l1) as HA by apply lookup_snoc.
  assert (length l1 = c') as Hl1.
  { unfold l1. rewrite !length_app, length_replicate. simpl. lia. }
  case_bool_decide as Hneq.
  - assert (idx < length l) as Hlt by lia.
    destruct (lookup_lt_is_Some_2 l idx Hlt) as [x Hx].
    erewrite bind_ok.
    2:{ apply (reslice_ok h2 s1 l1); [exact HA|simpl; lia|simpl; lia]. }
    erewrite bind_ok.
    2:{ apply (reslice_ok h2 s1 l1); [exact HA|simpl; lia|simpl; lia]. }
    cbn [arr off len s1].
    erewrite bind_ok.
    2:{ apply (copy_ok h2 A _ _ l1 _ (drop idx l)); [|exact HA|].
        - exists l1. cbn [arr off len]. split; [exact HA|]. split; [lia|].
          unfold l1. rewrite <-app_assoc, drop_app_le by lia.
          rewrite take_app_le by (rewrite length_drop; lia).
          rewrite firstn_all2; [done|]. rewrite length_drop. lia.
        - cbn [len]. lia. }
    cbn [len].
    erewrite (set_index_ok _ A 0 (S (length l))); [| |lia|].
    2:{ cbn [arrays h2]. apply list_lookup_insert_eq. rewrite length_app. simpl. lia. }
    2:{ rewrite !length_app, length_take, !length_drop. lia. }
    cbn [nodes arrays h2]. rewrite list_insert_insert_eq. unfold A.
    rewrite insert_snoc. do 4 f_equal. rewrite Hlen.
    replace (0 + idx) with idx by lia.
    replace (0 + (idx + 1)) with (S idx) by lia.
    replace (Nat.min (S (length l) - (idx + 1)) (length l - idx))
      with (length l - idx) by lia.
    replace (S idx + (length l - idx)) with (S (length l)) by lia.
    rewrite (firstn_all2 (drop idx l)) by (rewrite length_drop; lia).
    by apply (add_at_shift _ _ _ x).
  - unfold ret. do 4 f_equal. unfold add_at. fold idx.
    assert (idx = length l) as -> by (apply dec_stable; lia).
    rewrite firstn_all, drop_all. done.
Qed.


Lemma delete_shift l idx x :
  l !! idx = Some x →
  <[length l - 1 := zero_edge]>
    (take idx l ++ drop (S idx) l ++ drop (idx + (length l - (idx + 1))) l)
  = base.delete idx l ++ [zero_edge].
Proof.
  intros Hx. pose proof (lookup_lt_Some _ _ _ Hx) as Hlt.
  rewrite delete_take_drop, app_assoc.
  replace (idx + (length l - (idx + 1))) with (length l - 1) by lia.
  replace (length l - 1) with (length (take idx l ++ drop (S idx) l) + 0) at 1
    by (rewrite length_app, length_take, length_drop; lia).
  rewrite insert_app_r. f_equal.
  destruct (drop (length l - 1) l) as [|y [|z r]] eqn:Hd; [| done |].
  - apply (f_equal length) in Hd. rewrite length_drop in Hd. simpl in Hd. lia.
  - apply (f_equal length) in Hd. rewrite length_drop in Hd. simpl in Hd. lia.
Qed.

Lemma delEdge_ok h n lf pre A l c e' :
  nodes h !! n = Some (MkNode lf pre (Slice (Some A) 0 (length l))) →
  arrays h !! A = Some l →
  l !! search_label l c = Some e' → label e' = c →
  delEdge n c h
  = Ok () (Heap (<[n := MkNode lf pre (Slice (Some A) 0 (length l - 1))]> (nodes h))
                (<[A := base.delete (search_label l c) l ++ [zero_edge]]> (arrays h))).
Proof.
  intros Hn Hl Hi Hlab. set (idx := search_label l c) in *.
  pose proof (lookup_lt_Some _ _ _ Hi) as Hlt.
  set (sl := Slice (Some A) 0 (length l)).
  assert (view h sl l) as Hv.
  { exists l. cbn. rewrite drop_0, firstn_all. done. }
  unfold delEdge.
  rewrite (bind_ok _ _ _ _ _ (read_node_ok _ _ _ Hn)). cbn [edges len]. fold sl.
  rewrite (bind_ok _ _ _ _ _ (elems_ok _ _ _ Hv)). fold idx.
  rewrite (proj2 (Nat.ltb_lt _ _) Hlt).
  rewrite (bind_ok _ _ _ _ _ (index_ok _ _ _ _ _ Hv Hi)).
  rewrite bool_decide_eq_true_2 by done.
  erewrite bind_ok; [|apply (reslice_ok h sl l); [exact Hl|lia|simpl; lia]].
  erewrite bind_ok; [|apply (reslice_ok h sl l); [exact Hl|lia|simpl; lia]].
  cbn [arr off len sl].
  erewrite bind_ok.
  2:{ apply (copy_ok h A _ _ l _ (drop (S idx) l)); [|exact Hl|cbn [len]; lia].
      exists l. cbn [arr off len]. split; [exact Hl|]. split; [lia|].
      replace (0 + (idx + 1)) with (S idx) by lia.
      rewrite firstn_all2; [done|]. rewrite length_drop. lia. }
  cbn [len].
  erewrite bind_ok.
  2:{ apply (set_index_ok _ A 0 (length l)); [|lia|].
      - cbn [arrays]. apply list_lookup_insert_eq. by eapply lookup_lt_Some.
      - rewrite !length_app, !length_take, !length_drop. lia. }
  cbn [nodes arrays]. rewrite list_insert_insert_eq.
  erewrite bind_ok.
  2:{ eapply (reslice_ok _ sl); [|lia|].
      - cbn [arr_at arr sl arrays]. apply list_lookup_insert_eq. by eapply lookup_lt_Some.
      - rewrite length_insert, !length_app, !length_take, !length_drop. simpl. lia. }
  erewrite set_edges_ok by done. cbn [nodes arrays leaf prefix arr off sl].
  do 3 f_equal.
  - do 2 f_equal. lia.
  - f_equal.
    replace (Nat.min (length l - idx) (length l - (idx + 1)))
      with (length l - (idx + 1)) by lia.
    rewrite (firstn_all2 (drop (S idx) l)) by (rewrite length_drop; lia).
    replace (0 + idx) with idx by lia. replace (0 + (length l - 1)) with (length l - 1) by lia.
    by apply (delete_shift _ _ e').
Qed.

Lemma mergeChild_ok h n lf pre sl e0 rest c cd ces :
  nodes h !! n = Some (MkNode lf pre sl) →
  view h sl (e0 :: rest) → node e0 = Some c →
  nodes h !! c = Some cd → view h (edges cd) ces →
  mergeChild n h
  = Ok () (Heap (<[n := MkNode (leaf cd) (concat pre (prefix cd))
                          (copy_slice (length (arrays h)) ces)]> (nodes h))
                (arrays h ++ copy_arrays ces)).
Proof.
  intros Hn Hv Hc Hcd Hcv. unfold mergeChild.
  pose proof (lookup_lt_Some _ _ _ Hn) as Hlt.
  rewrite (bind_ok _ _ _ _ _ (read_node_ok _ _ _ Hn)). cbn [edges prefix].
  rewrite (bind_ok _ _ _ _ _ (index_ok _ _ _ 0 e0 Hv eq_refl)).
  rewrite Hc. cbn [deref]. erewrite bind_ok; [|reflexivity].
  rewrite (bind_ok _ _ _ _ _ (read_node_ok _ _ _ Hcd)).
  erewrite bind_ok; [|by eapply set_prefix_ok].
  erewrite bind_ok.
  2:{ eapply set_leaf_ok. cbn [nodes]. by apply list_lookup_insert_eq. }
  cbn [nodes arrays leaf prefix edges]. rewrite list_insert_insert_eq.
  pose proof (view_length _ _ _ Hcv) as Hlen.
  unfold copy_slice, copy_arrays. rewrite Hlen.
  case_bool_decide as Hne.
  - erewrite bind_ok; [|reflexivity].
    erewrite bind_ok.
    2:{ eapply (copy_ok _ _ 0 _ (replicate (len (edges cd)) zero_edge)).
        - eapply view_mono; [|exact Hcv]. cbn [arrays]. by apply prefix_app_r.
        - apply lookup_snoc.
        - rewrite length_replicate. lia. }
    cbn [nodes arrays].
    erewrite set_edges_ok by (by apply list_lookup_insert_eq).
    cbn [nodes arrays leaf prefix]. rewrite list_insert_insert_eq, insert_snoc.
    do 3 f_equal. rewrite Nat.min_id, take_0, app_nil_l.
    rewrite <-Hlen, firstn_all, drop_replicate.
    replace (length ces - (0 + length ces)) with 0 by lia. simpl. by rewrite app_nil_r.
  - erewrite set_edges_ok by (by apply list_lookup_insert_eq).
    cbn [nodes arrays leaf prefix]. by rewrite list_insert_insert_eq, app_nil_r.
Qed.

End NodeOps.

(** ** Edge tables and the children of the functional model *)

Section EdgeTables.

Context {V : Type}.

Implicit Types (h g : heap V) (nd : Node V) (e : edge) (sl : slice).
Implicit Types (es : list edge) (a n : addr) (lf : option (leafNode V)).
Implicit Types (t : tree V) (kids : list (byte * tree V)).

Definition edge_repr h e (lt : byte * tree V) : Prop :=
  label e = lt.1 ∧ ∃ c, node e = Some c ∧ repr h c lt.2.

Lemma repr_inv h a lf pre kids :
  repr h a (Tr lf pre kids) →
  ∃ sl es, nodes h !! a = Some (MkNode lf pre sl) ∧ view h sl es
           ∧ Forall2 (edge_repr h) es kids.
Proof. inversion 1; subst. eauto. Qed.

Lemma repr_intro h a lf pre sl es kids :
  nodes h !! a = Some (MkNode lf pre sl) → view h sl es →
  Forall2 (edge_repr h) es kids → repr h a (Tr lf pre kids).
Proof. intros. by econstructor. Qed.

Lemma edge_repr_mono h h' e lt : heap_ext h h' → edge_repr h e lt → edge_repr h' e lt.
Proof.
  intros Hext [Hl (c & Hc & Hr)]. split; [done|]. exists c. split; [done|].
  by eapply heap_ext_repr.
Qed.

Lemma edges_repr_mono h h' es kids :
  heap_ext h h' → Forall2 (edge_repr h) es kids → Forall2 (edge_repr h') es kids.
Proof.
  intros Hext H. eapply Forall2_impl; [exact H|]. intros e lt. by apply edge_repr_mono.
Qed.

Lemma edges_repr_labels h es kids :
  Forall2 (edge_repr h) es kids → label <$> es = kids.*1.
Proof. induction 1 as [|e lt es ks [Hl _] _ IH]; csimpl; [done|]. by rewrite Hl, IH. Qed.

(** *** Binary search on ascending labels *)

Definition search_labels (ls : list byte) (c : byte) : nat :=
  Search (length ls)
    (λ i, match ls !! i with
          | Some l => byte_geb l c
          | None => false
          end).

Lemma search_label_labels es c : search_label es c = search_labels (label <$> es) c.
Proof.
  unfold search_label, search_labels. rewrite length_fmap.
  apply Search_ext. intros i _. rewrite list_lookup_fmap. by destruct (es !! i).
Qed.

Lemma ascending_lookup_lt (ls : list byte) i j (a b : byte) :
  ascending ls → i < j → ls !! i = Some a → ls !! j = Some b →
  byte_ltb a b = true.
Proof.
  revert i j. induction ls as [|l ls IH]; intros i j Hasc Hij Hi Hj; [done|].
  apply ascending_cons in Hasc as [Hl Hasc].
  destruct j as [|j]; [lia|]. simpl in Hj. destruct i as [|i].
  - simpl in Hi. injection Hi as ->. rewrite Forall_forall in Hl.
    apply Hl. by eapply list_elem_of_lookup_2.
  - simpl in Hi. eapply (IH i j); [done|lia|done..].
Qed.

Lemma search_labels_split (ls : list byte) c :
  ascending ls →
  search_labels ls c ≤ length ls
  ∧ Forall (λ l, byte_ltb l c = true) (take (search_labels ls c) ls)
  ∧ Forall (λ l, byte_ltb l c = false) (drop (search_labels ls c) ls).
Proof.
  intros Hasc. unfold search_labels.
  set (f := λ i, match ls !! i with Some l => byte_geb l c | None => false end).
  assert (∀ i j, i ≤ j → j < length ls → f i = true → f j = true) as Hmono.
  { intros i j Hij Hj. unfold f.
    destruct (ls !! i) as [x|] eqn:Hi; [|done].
    destruct (lookup_lt_is_Some_2 ls j Hj) as [b Hb]. rewrite Hb.
    rewrite !byte_geb_ge. intros Hca.
    destruct (decide (i = j)) as [->|Hne]; [by simplify_eq|].
    pose proof (ascending_lookup_lt ls i j x b Hasc ltac:(lia) Hi Hb) as Hab.
    apply byte_ltb_lt in Hab. lia. }
  destruct (Search_spec _ f Hmono) as (Hle & Hlo & Hhi).
  set (idx := Search (length ls) f) in *. split; [done|]. split.
  - apply Forall_forall. intros l [i Hi]%list_elem_of_lookup_1.
    apply lookup_take_Some in Hi as [Hi Hlt].
    specialize (Hlo i Hlt). unfold f in Hlo. rewrite Hi in Hlo.
    by apply byte_geb_lt, byte_ltb_lt in Hlo.
  - apply Forall_forall. intros l [i Hi]%list_elem_of_lookup_1.
    rewrite lookup_drop in Hi. pose proof (lookup_lt_Some _ _ _ Hi) as Hlt.
    assert (f idx = true) as Hfi by (apply Hhi; lia).
    assert (f (idx + i) = true) as Hf by (apply (Hmono idx); [lia|done|done]).
    unfold f in Hf. rewrite Hi in Hf. by apply byte_geb_ge, byte_ltb_ge in Hf.
Qed.

(** *** Children split around a label *)

Lemma add_kid_split (n : byte * tree V) k1 k2 :
  Forall (λ lt, byte_ltb lt.1 n.1 = true) k1 →
  Forall (λ lt, byte_ltb lt.1 n.1 = false) k2 →
  add_kid n (k1 ++ k2) = k1 ++ n :: k2.
Proof.
  intros H1 H2. induction H1 as [|[l t] k1 Hl _ IH]; simpl.
  - destruct H2 as [|[l t] k2 Hl _]; simpl; [done|].
    unfold byte_geb. simpl in Hl. by rewrite Hl.
  - unfold byte_geb. simpl in Hl. rewrite Hl. simpl. by rewrite IH.
Qed.

Lemma has_kid_split c k1 k2 :
  Forall (λ lt : byte * tree V, byte_ltb lt.1 c = true) k1 →
  has_kid c (k1 ++ k2) = has_kid c k2.
Proof.
  unfold has_kid. induction 1 as [|[l t] k1 Hl _ IH]; simpl; [done|].
  simpl in Hl. by rewrite bool_decide_eq_false_2 by (by apply byte_ltb_neq).
Qed.

Lemma upd_kid_split (F : tree V → tree V) c k1 k2 :
  Forall (λ lt : byte * tree V, byte_ltb lt.1 c = true) k1 →
  upd_kid F c (k1 ++ k2) = k1 ++ upd_kid F c k2.
Proof.
  induction 1 as [|[l t] k1 Hl _ IH]; simpl; [done|].
  simpl in Hl. rewrite bool_decide_eq_false_2 by (by apply byte_ltb_neq).
  by rewrite IH.
Qed.

Lemma del_kid_split c k1 k2 :
  Forall (λ lt : byte * tree V, byte_ltb lt.1 c = true) k1 →
  del_kid c (k1 ++ k2) = k1 ++ del_kid c k2.
Proof.
  induction 1 as [|[l t] k1 Hl _ IH]; simpl; [done|].
  simpl in Hl. rewrite bool_decide_eq_false_2 by (by apply byte_ltb_neq).
  by rewrite IH.
Qed.

Lemma has_kid_above c kids :
  ascending (kids.*1) →
  Forall (λ lt : byte * tree V, byte_ltb lt.1 c = false) kids →
  has_kid c kids = match kids with
                   | (l, _) :: _ => bool_decide (l = c)
                   | [] => false
                   end.
Proof.
  intros Hasc Hge. destruct kids as [|[l t] ks]; [done|].
  unfold has_kid. simpl. case_bool_decide as Hl; [done|].
  csimpl in Hasc. apply ascending_cons in Hasc as [Hlt _].
  apply Forall_cons in Hge as [Hlc _]. simpl in Hlc.
  fold (has_kid c ks). apply has_kid_false_labels. intros Hin.
  rewrite Forall_forall in Hlt. specialize (Hlt _ Hin).
  apply byte_ltb_lt in Hlt. apply byte_ltb_ge in Hlc.
  apply Hl. apply byte_to_nat_inj. lia.
Qed.

(** The outcome of [getEdge] on a well-formed node, in both models. *)
Lemma kids_search h es kids c :
  Forall2 (edge_repr h) es kids → ascending (kids.*1) →
  let idx := search_label es c in
  (has_kid c kids = false
   ∧ find_edge es c = ((-1)%Z, None)
   ∧ idx ≤ length es
   ∧ ∀ tn, add_kid (c, tn) kids = take idx kids ++ (c, tn) :: drop idx kids)
  ∨ (∃ e child t,
       has_kid c kids = true
       ∧ find_edge es c = (Z.of_nat idx, Some child)
       ∧ es !! idx = Some e ∧ label e = c ∧ node e = Some child
       ∧ kids !! idx = Some (c, t) ∧ repr h child t
       ∧ (∀ F, upd_kid F c kids = <[idx := (c, F t)]> kids)
       ∧ del_kid c kids = base.delete idx kids).
Proof.
  intros Hes Hasc idx. pose proof (edges_repr_labels _ _ _ Hes) as Hlab.
  pose proof (Forall2_length _ _ _ Hes) as Hlen.
  assert (idx = search_labels (kids.*1) c) as Hidx.
  { unfold idx. by rewrite search_label_labels, Hlab. }
  destruct (search_labels_split (kids.*1) c Hasc) as (Hle & Hlo & Hhi).
  rewrite <-Hidx in Hle, Hlo, Hhi. rewrite length_fmap in Hle.
  rewrite <-fmap_take in Hlo. rewrite <-fmap_drop in Hhi.
  rewrite Forall_fmap in Hlo, Hhi.
  assert (ascending (drop idx kids).*1) as Hasc2.
  { rewrite <-(take_drop idx kids), fmap_app in Hasc.
    by apply StronglySorted_app in Hasc as (_ & _ & ?). }
  pose proof (has_kid_above c _ Hasc2 Hhi) as Hhas.
  rewrite <-(has_kid_split c (take idx kids)), take_drop in Hhas by done.
  destruct (kids !! idx) as [[l t]|] eqn:Hk.
  2:{ left. apply lookup_ge_None in Hk.
      rewrite drop_ge in Hhas by done. split; [done|].
      unfold find_edge. fold idx. rewrite (proj2 (lookup_ge_None _ _)) by lia.
      split; [done|]. split; [lia|]. intros tn.
      rewrite <-(take_drop idx kids) at 1. by apply add_kid_split. }
  pose proof (take_drop_middle _ _ _ Hk) as Hmid.
  rewrite (drop_S _ _ _ Hk) in Hhas.
  destruct (Forall2_lookup_r _ _ _ _ _ Hes Hk) as (e & He & Hel & child & Hc & Hr).
  cbn [fst snd] in *.
  destruct (decide (l = c)) as [->|Hne].
  - right. exists e, child, t. rewrite bool_decide_eq_true_2 in Hhas by done.
    split; [done|]. unfold find_edge. fold idx. rewrite He.
    rewrite bool_decide_eq_true_2 by done. rewrite Hc.
    do 6 (split; [done|]). split.
    + intros F. rewrite insert_take_drop by (by eapply lookup_lt_Some).
      trans (upd_kid F c (take idx kids ++ (c, t) :: drop (S idx) kids));
        [by rewrite Hmid|].
      rewrite upd_kid_split by done. simpl. by rewrite bool_decide_eq_true_2.
    + rewrite delete_take_drop.
      trans (del_kid c (take idx kids ++ (c, t) :: drop (S idx) kids));
        [by rewrite Hmid|].
      rewrite del_kid_split by done. simpl. by rewrite bool_decide_eq_true_2.
  - left. rewrite bool_decide_eq_false_2 in Hhas by done.
    split; [done|]. unfold find_edge. fold idx. rewrite He.
    rewrite bool_decide_eq_false_2 by congruence.
    split; [done|]. split; [lia|]. intros tn.
    rewrite <-(take_drop idx kids) at 1. by apply add_kid_split.
Qed.

End EdgeTables.

(** ** [insert] on the heap refines the functional model *)

(** Extension of an explicit heap. *)
Ltac ext_solve :=
  repeat match goal with h := Heap _ _ |- _ => unfold h end;
  split; cbn [nodes arrays]; repeat apply prefix_app_r; reflexivity.

Section InsertRefines.

Context {V : Type}.

Implicit Types (h g : heap V) (nd : Node V) (e : edge) (sl : slice).
Implicit Types (es : list edge) (a n : addr) (lf : option (leafNode V)).
Implicit Types (t : tree V) (kids : list (byte * tree V)) (k s : list byte).

Lemma copy_slice_exact (N : list (Node V)) (A : list (list edge)) xs es :
  arr_at (Heap N (A ++ copy_arrays es ++ xs)) (copy_slice (length A) es) es
  ∧ off (copy_slice (length A) es) = 0
  ∧ len (copy_slice (length A) es) = length es.
Proof.
  unfold copy_slice, copy_arrays, arr_at. case_bool_decide as Hne; cbn.
  - by rewrite list_lookup_middle.
  - destruct es; [done|simpl in Hne; lia].
Qed.

Lemma copy_slice_cons A es i e :
  es !! i = Some e →
  copy_slice A es = Slice (Some A) 0 (length es) ∧ copy_arrays es = [es].
Proof.
  intros Hi. apply lookup_lt_Some in Hi. unfold copy_slice, copy_arrays.
  rewrite bool_decide_eq_true_2 by lia. done.
Qed.

Lemma view_last (N : list (Node V)) (A : list (list edge)) l m :
  m ≤ length l → view (Heap N (A ++ [l])) (Slice (Some (length A)) 0 m) (take m l).
Proof.
  intros Hm. exists l. cbn. rewrite list_lookup_middle by done.
  by rewrite drop_0.
Qed.

Lemma view_last_pad (N : list (Node V)) (A : list (list edge)) l pad m :
  m = length l →
  view (Heap N (A ++ [l ++ pad])) (Slice (Some (length A)) 0 m) l.
Proof.
  intros ->. rewrite <-(take_app_length l pad) at 3.
  apply view_last. rewrite length_app. lia.
Qed.

Lemma view_last_exact (N : list (Node V)) (A : list (list edge)) l m :
  m = length l → view (Heap N (A ++ [l])) (Slice (Some (length A)) 0 m) l.
Proof.
  intros Hm. rewrite <-(app_nil_r l) at 1. by apply view_last_pad.
Qed.

Lemma repr_leaf_node h a (l : leafNode V) p :
  nodes h !! a = Some (MkNode (Some l) p nil_slice) →
  repr h a (Tr (Some l) p []).
Proof. intros Hn. eapply repr_intro; [done|apply view_nil|constructor]. Qed.

Lemma add_at_length i e es : i ≤ length es → length (add_at i e es) = S (length es).
Proof.
  intros Hi. unfold add_at. rewrite length_app, length_take. simpl.
  rewrite length_drop. lia.
Qed.

Lemma Forall2_add_at {B} (R : edge → B → Prop) i e (x : B) es (ks : list B) :
  Forall2 R es ks → R e x →
  Forall2 R (add_at i e es) (take i ks ++ x :: drop i ks).
Proof.
  intros Hes Hx. unfold add_at. apply Forall2_app.
  - by apply Forall2_take.
  - constructor; [done|]. by apply Forall2_drop.
Qed.

Lemma lookup_grow {A} (l ns : list A) i : (l ++ ns) !! (length l + i) = ns !! i.
Proof. rewrite lookup_app_r by lia. f_equal. lia. Qed.

Lemma insert_grow0 {A} (l ns : list A) x y :
  <[length l := y]> (l ++ x :: ns) = l ++ y :: ns.
Proof.
  rewrite <-(Nat.add_0_r (length l)) at 1. by rewrite insert_app_r.
Qed.

Lemma add_kid_nil (x : byte * tree V) : add_kid x [] = [x].
Proof. done. Qed.

Lemma add_at_nil i e : add_at i e [] = [e].
Proof. unfold add_at. by rewrite take_nil, drop_nil. Qed.

Lemma t_find_kid lf pre kids c s (t' : tree V) :
  ascending (kids.*1) → (c, t') ∈ kids →
  t_find (Tr lf pre kids) (c :: s) = t_lookup t' (c :: s).
Proof.
  intros Hasc Hin. rewrite t_find_cons.
  by rewrite (with_kid_elem _ _ c t').
Qed.

Lemma insert_refines t : ∀ fuel h n r path k s v,
  repr h n t → wf r path t → length s < fuel →
  ∃ nc h',
    insert fuel n k s v h = Ok (Some nc, val <$> t_find t s) h'
    ∧ heap_ext h h'
    ∧ length (nodes h) ≤ nc
    ∧ repr h' nc (t_insert t k s v).
Proof.
  induction t as [lf pre kids IH] using tree_ind'.
  intros fuel h n r path k s v Hrep Hwf Hfuel.
  apply repr_inv in Hrep as (sl & es & Hn & Hv & Hes).
  apply wf_inv in Hwf as (_ & _ & Hasc & _ & Hkids).
  destruct fuel as [|fuel]; [lia|]. cbn [insert].
  destruct s as [|c s'].
  { (* key exhaustion *)
    rewrite (bind_ok _ _ _ _ _ (read_node_ok _ _ _ Hn)).
    rewrite (bind_ok _ _ _ _ _ (writeNode_ok _ _ _ _ Hn Hv)).
    erewrite bind_ok; [|by eapply set_leaf_ok, lookup_snoc].
    cbn [nodes arrays leaf prefix edges]. rewrite insert_snoc.
    eexists _, _. split; [reflexivity|]. split; [apply heap_ext_grow|].
    split; [done|]. cbn [t_insert].
    eapply repr_intro.
    - apply lookup_snoc.
    - rewrite <-(app_nil_r (copy_arrays es)). apply copy_slice_view.
    - eapply edges_repr_mono; [|exact Hes]. apply heap_ext_grow. }
  rewrite (bind_ok _ _ _ _ _ (getEdge_ok _ _ _ _ c Hn Hv)).
  destruct (kids_search h es kids c Hes Hasc)
    as [(Hhas & Hfind & Hidx & Hadd)|(e & child & t' & Hhas & Hfind & He & Hel & Hec & Hk & Hrc & Hupd & _)];
    rewrite Hfind; cbv beta iota.
  { (* no edge *)
    erewrite bind_ok; [|reflexivity].
    set (lnode := MkNode (Some (LeafNode k v)) (c :: s') nil_slice).
    set (h1 := Heap (nodes h ++ [lnode]) (arrays h)).
    assert (heap_ext h h1) as Hext1 by ext_solve.
    erewrite bind_ok.
    2:{ eapply (writeNode_ok h1 n _ es); [by eapply heap_ext_node|by eapply heap_ext_view]. }
    cbn [nodes arrays leaf prefix edges h1].
    destruct (copy_slice_exact ((nodes h ++ [lnode]) ++ [MkNode lf pre (copy_slice (length (arrays h)) es)])
                (arrays h) [] es) as (Harr & Hoff & Hlen).
    rewrite app_nil_r in Harr.
    pose proof (addEdge_ok (Heap _ _) (length (nodes h ++ [lnode])) lf pre _ es
                 (Edge c (Some (length (nodes h)))) (lookup_snoc _ _) Harr Hoff Hlen)
      as Hadd'.
    rewrite (bind_ok _ _ _ _ _ Hadd'). cbn [nodes arrays label]. rewrite insert_snoc.
    eexists _, _. split.
    { unfold ret. cbn [t_find]. rewrite (with_kid_none _ _ _ _ Hhas). reflexivity. }
    split. { ext_solve. }
    split. { rewrite length_app. simpl. lia. }
    cbn [t_insert]. rewrite Hhas, Hadd.
    fold (search_label es c). set (idx := search_label es c) in *.
    eapply repr_intro.
    - apply lookup_snoc.
    - apply view_last_pad. by rewrite add_at_length.
    - apply Forall2_add_at.
      + eapply edges_repr_mono; [|exact Hes]. ext_solve.
      + split; [done|]. eexists. split; [done|]. cbn [snd].
        apply repr_leaf_node. cbn [nodes].
        rewrite lookup_app_l by (rewrite length_app; simpl; lia).
        apply lookup_snoc. }
  (* an edge with the label exists *)
  assert ((c, t') ∈ kids) as Hin by (by eapply list_elem_of_lookup_2).
  rewrite Forall_forall in IH, Hkids.
  destruct (Hkids _ Hin) as [Hhd Hwf']. specialize (IH _ Hin). cbn [fst snd] in *.
  destruct t' as [lf' p' kids'].
  pose proof Hrc as (sl' & ces & Hcn & Hcv & Hces)%repr_inv.
  rewrite (bind_ok _ _ _ _ _ (read_node_ok _ _ _ Hcn)). cbn [prefix t_prefix] in *.
  cbv zeta.
  assert (t_insert (Tr lf pre kids) k (c :: s') v
          = Tr lf pre (<[search_label es c :=
               (c, let cp := longestPrefix (c :: s') p' in
                   if bool_decide (cp = length p')
                   then t_insert (Tr lf' p' kids') k (drop cp (c :: s')) v
                   else t_split (Tr lf' p' kids') cp k (c :: s') v)]> kids)) as ->.
  { cbn [t_insert]. by rewrite Hhas, Hupd. }
  rewrite (t_find_kid _ _ _ _ _ _ Hasc Hin). unfold t_lookup. cbn [t_prefix].
  cbv zeta.
  destruct (longestPrefix_decomp (c :: s') p') as (u & s2 & p2 & Hs & Hp & Hcp & Hd).
  assert (u ≠ []) as Hu.
  { intros ->. simpl in *. subst. destruct p2; simplify_eq/=. }
  rewrite Hcp. case_bool_decide as Hfull.
  { (* the child's prefix is consumed: recurse *)
    assert (p2 = []) as ->.
    { rewrite Hp, length_app in Hfull. destruct p2; [done|simpl in Hfull; lia]. }
    rewrite app_nil_r in Hp. subst p'.
    rewrite Hs, HasPrefix_app, !drop_app_length.
    destruct (IH fuel h child false (path ++ pre) k s2 v Hrc Hwf')
      as (nc1 & h1 & Hins & Hext1 & Hge1 & Hrep1).
    { apply (f_equal length) in Hs. rewrite length_app in Hs.
      destruct u; [done|]. simpl in *. lia. }
    rewrite (bind_ok _ _ _ _ _ Hins). cbv beta iota.
    erewrite bind_ok.
    2:{ eapply (writeNode_ok h1 n _ es);
          [by eapply heap_ext_node|by eapply heap_ext_view]. }
    destruct (copy_slice_cons (length (arrays h1)) es _ e He) as [-> ->].
    cbn [leaf prefix edges].
    erewrite bind_ok.
    2:{ eapply (set_edge_node_ok _ _ lf pre (length (arrays h1)) (length es) es es _ e);
          cbn [nodes arrays];
          [apply lookup_snoc|apply lookup_snoc|done|by rewrite firstn_all|exact He]. }
    cbn [nodes arrays]. rewrite insert_snoc.
    eexists _, _. split; [reflexivity|].
    assert (heap_ext h1 (Heap (nodes h1 ++ [MkNode lf pre (Slice (Some (length (arrays h1))) 0 (length es))])
                              (arrays h1 ++ [<[search_label es c := Edge (label e) (Some nc1)]> es])))
      as Hext2 by ext_solve.
    split; [by eapply heap_ext_trans|].
    split. { destruct Hext1 as [Hp1 _]. apply prefix_length in Hp1. lia. }
    eapply repr_intro.
    - apply lookup_snoc.
    - apply view_last_exact. by rewrite length_insert.
    - apply Forall2_insert.
      + eapply edges_repr_mono; [|exact Hes]. by eapply heap_ext_trans.
      + split; [done|]. exists nc1. split; [done|]. by eapply heap_ext_repr. }
  (* the child's prefix diverges from the key: split *)
  destruct p2 as [|b p3].
  { rewrite Hp, app_nil_r in Hfull. done. }
  assert (p' !! length u = Some b) as Hb by (rewrite Hp; by apply list_lookup_middle).
  assert (HasPrefix (c :: s') p' = false) as ->.
  { apply HasPrefix_false. intros [z Hz].
    apply Hfull. rewrite <-Hcp. apply longestPrefix_full. eauto. }
  assert (drop (length u) (c :: s') = s2) as Hdrop by (by rewrite Hs, drop_app_length).
  assert (take (length u) (c :: s') = u) as Htake by (by rewrite Hs, take_app_length).
  assert (drop (length u) p' = b :: p3) as Hdropp by (by rewrite Hp, drop_app_length).
  destruct (copy_slice_cons (length (arrays h)) es _ e He) as [Hcs Hca].
  rewrite (bind_ok _ _ _ _ _ (writeNode_ok _ _ _ _ Hn Hv)). rewrite Hcs, Hca.
  cbn [leaf prefix edges].
  erewrite bind_ok; [|reflexivity]. cbn [nodes arrays].
  rewrite <-(app_assoc (A:=Node V)). cbn [app].
  rewrite (length_app (nodes h)). cbn [length].
  erewrite bind_ok.
  2:{ eapply (replaceEdge_ok _ _ lf pre (length (arrays h)) (length es) es es e);
        cbn [nodes arrays label node];
        [by apply list_lookup_middle|apply lookup_snoc|done
        |by rewrite firstn_all|exact He|done]. }
  cbn [nodes arrays label node]. rewrite insert_snoc.
  erewrite bind_ok.
  2:{ eapply (writeNode_ok _ child _ ces); cbn [nodes arrays].
      - rewrite lookup_app_l by (by eapply lookup_lt_Some). exact Hcn.
      - eapply view_mono; [|exact Hcv]. cbn [arrays]. by apply prefix_app_r. }
  cbn [nodes arrays leaf prefix edges].
  rewrite <-(app_assoc (A:=Node V)). cbn [app].
  rewrite (length_app (nodes h)). cbn [length].
  erewrite bind_ok.
  2:{ eapply read_node_ok. cbn [nodes]. rewrite lookup_grow. reflexivity. }
  cbn [prefix]. rewrite Hb.
  erewrite bind_ok.
  2:{ eapply (addEdge_ok _ _ None _ nil_slice []); cbn [nodes arrays];
        [rewrite lookup_grow; reflexivity|done|done|done]. }
  cbn [nodes arrays label length]. rewrite insert_app_r.
  cbn [insert list_insert]. rewrite add_at_nil.
  change (grow_pad 0) with 0. cbn [replicate]. rewrite (app_nil_r [_]).
  rewrite Hdropp, Hdrop, Htake.
  erewrite bind_ok.
  2:{ eapply set_prefix_ok. cbn [nodes]. rewrite lookup_grow. reflexivity. }
  cbn [nodes arrays leaf prefix edges]. rewrite insert_app_r. cbn [insert list_insert].
  unfold t_split. cbn [t_prefix t_leaf t_kids]. rewrite Hdropp, Hdrop, Htake, Hb.
  cbn [default]. rewrite !add_kid_nil.
  set (A1 := arrays h ++ [<[search_label es c := Edge (label e) (Some (length (nodes h) + 1))]> es]).
  set (ncn := MkNode lf pre (Slice (Some (length (arrays h))) 0 (length es))).
  set (mdn := MkNode lf' (b :: p3) (copy_slice (length A1) ces)).
  set (e1 := Edge b (Some (length (nodes h) + 2))).
  assert (∀ (N : list (Node V)) xs, view (Heap N (A1 ++ xs)) (Slice (Some (length (arrays h))) 0 (length es))
                    (<[search_label es c := Edge (label e) (Some (length (nodes h) + 1))]> es))
    as Hvnc.
  { intros N xs. eapply view_mono; [|apply (view_last_exact N (arrays h)); by rewrite length_insert].
    cbn [arrays]. by apply prefix_app_r. }
  assert (∀ (N : list (Node V)) xs, view (Heap N ((A1 ++ copy_arrays ces) ++ xs)) (copy_slice (length A1) ces) ces)
    as Hvmd.
  { intros N xs. rewrite <-app_assoc. apply copy_slice_view. }
  assert (∀ h', heap_ext h h' →
            nodes h' !! (length (nodes h) + 2) = Some mdn →
            view h' (copy_slice (length A1) ces) ces →
            edge_repr h' e1 (b, Tr lf' (b :: p3) kids')) as Hmod.
  { intros h' Hext Hmd Hv'. split; [done|]. eexists. split; [done|]. cbn [snd].
    eapply repr_intro; [exact Hmd|exact Hv'|].
    eapply edges_repr_mono; [exact Hext|exact Hces]. }
  destruct s2 as [|c2 s3].
  - erewrite bind_ok.
    2:{ eapply set_leaf_ok. cbn [nodes]. rewrite lookup_grow. reflexivity. }
    cbn [nodes arrays leaf prefix edges]. rewrite insert_app_r. cbn [insert list_insert].
    set (h' := Heap _ _).
    assert (heap_ext h h') as Hext by ext_solve.
    eexists _, _. split; [reflexivity|]. split; [done|]. split; [done|].
    eapply repr_intro.
    + by apply list_lookup_middle.
    + unfold h'. rewrite <-(app_assoc A1). apply Hvnc.
    + apply Forall2_insert; [by eapply edges_repr_mono|].
      split; [done|]. eexists. split; [done|]. cbn [snd].
      eapply repr_intro.
      * unfold h'. cbn [nodes]. rewrite lookup_grow. reflexivity.
      * apply view_last_exact. done.
      * constructor; [|constructor]. apply Hmod; [done| |].
        -- unfold h'. cbn [nodes]. rewrite lookup_grow. reflexivity.
        -- apply Hvmd.
  - erewrite bind_ok; [|reflexivity]. cbn [nodes arrays].
    rewrite <-(app_assoc (A:=Node V)). cbn [app].
    rewrite (length_app (nodes h)). cbn [length].
    erewrite bind_ok.
    2:{ eapply (addEdge_ok _ _ None u (Slice (Some (length (A1 ++ copy_arrays ces))) 0 1) [e1]);
          cbn [nodes arrays arr_at arr];
          [rewrite lookup_grow; reflexivity|apply lookup_snoc|done|done]. }
    cbn [nodes arrays label length]. rewrite insert_app_r. cbn [insert list_insert].
    change (grow_pad 1) with 0. cbn [replicate]. rewrite (app_nil_r (add_at _ _ _)).
    set (h' := Heap _ _).
    assert (heap_ext h h') as Hext by ext_solve.
    eexists _, _. split; [reflexivity|]. split; [done|]. split; [done|].
    assert (edge_repr h' e1 (b, Tr lf' (b :: p3) kids')) as Hmod'.
    { apply Hmod; [done| |].
      - unfold h'. cbn [nodes]. rewrite lookup_grow. reflexivity.
      - unfold h'. rewrite <-(app_assoc (A1 ++ copy_arrays ces)). apply Hvmd. }
    destruct (kids_search h' [e1] [(b, Tr lf' (b :: p3) kids')] c2)
      as [(_ & _ & Hidx2 & Hadd2)|(? & ? & ? & Hhas2 & _)].
    { by constructor. }
    { csimpl. apply ascending_cons. split; constructor. }
    2:{ unfold has_kid in Hhas2. simpl in Hhas2.
        rewrite bool_decide_eq_false_2 in Hhas2 by congruence. done. }
    rewrite Hadd2.
    eapply repr_intro.
    + by apply list_lookup_middle.
    + unfold h'. rewrite <-!(app_assoc A1). apply Hvnc.
    + apply Forall2_insert; [by eapply edges_repr_mono|].
      split; [done|]. eexists. split; [done|]. cbn [snd].
      eapply repr_intro.
      * unfold h'. cbn [nodes]. rewrite lookup_grow. reflexivity.
      * apply view_last_exact. by rewrite add_at_length.
      * apply Forall2_add_at; [by constructor|].
        split; [done|]. eexists. split; [done|]. cbn [snd].
        apply repr_leaf_node. unfold h'. cbn [nodes]. rewrite lookup_grow. reflexivity.
Qed.

End InsertRefines.

(** ** [delete] on the heap refines the functional model *)

Section DeleteRefines.

Context {V : Type}.

Implicit Types (h g : heap V) (nd : Node V) (e : edge) (sl : slice).
Implicit Types (es : list edge) (a n : addr) (lf : option (leafNode V)).
Implicit Types (t : tree V) (kids : list (byte * tree V)) (k s : list byte).

(** The outcome of [delete], read off the functional model. *)
Definition delete_spec (fuel : nat) (txn : Txn) n s h (r : bool) t : Prop :=
  match t_delete r t s with
  | None => delete fuel txn n s h = Ok (None, None) h
  | Some t' =>
      ∃ nc h',
        delete fuel txn n s h = Ok (Some nc, t_find t s) h'
        ∧ heap_ext h h'
        ∧ length (nodes h) ≤ nc
        ∧ repr h' nc t'
  end.

(** The test [n != t.root] is decided by the prefixes: only the root has
    an empty one. *)
Definition root_flag h (txn : Txn) n (r : bool) (pre : list byte) : Prop :=
  (∃ rd, nodes h !! root txn = Some rd ∧ prefix rd = [])
  ∧ if r then n = root txn else pre ≠ [].

Lemma root_flag_decide h txn n r lf pre sl :
  root_flag h txn n r pre →
  nodes h !! n = Some (MkNode lf pre sl) →
  bool_decide (n ≠ root txn) = negb r.
Proof.
  intros [(rd & Hrd & Hpre) Hr] Hn. destruct r; simpl.
  - by rewrite bool_decide_eq_false_2 by (intros H; by apply H).
  - rewrite bool_decide_eq_true_2; [done|]. intros ->. simplify_eq/=.
Qed.

Lemma repr_merge h h0 nc pre e0 l (t1 : tree V) sl0 :
  heap_ext h0 h →
  nodes h !! nc = Some (MkNode None pre sl0) →
  view h sl0 [e0] → edge_repr h0 e0 (l, t1) →
  ∃ mn xs,
    mergeChild nc h = Ok () (Heap (<[nc := mn]> (nodes h)) (arrays h ++ xs))
    ∧ (∀ g, nodes g !! nc = Some mn → heap_ext h0 g →
            (arrays h ++ xs) `prefix_of` arrays g →
            repr g nc (t_merge (Tr None pre [(l, t1)]))).
Proof.
  intros Hext Hn Hv [_ (c & Hc & Hrc)]. destruct t1 as [lf1 p1 kids1].
  cbn [snd] in Hrc. apply repr_inv in Hrc as (sl1 & ces & Hcn & Hcv & Hces).
  pose proof (heap_ext_node _ _ _ _ Hext Hcn) as Hcn'.
  pose proof (heap_ext_view _ _ _ _ Hext Hcv) as Hcv'.
  eexists _, _. split; [by eapply (mergeChild_ok h nc None pre sl0 e0 [] c _ ces)|].
  cbn [leaf prefix]. intros g Hg Hextg Harr. cbn [t_merge].
  eapply repr_intro; [exact Hg| |].
  - eapply (view_mono (Heap [] (arrays h ++ copy_arrays ces ++ []))).
    + cbn [arrays]. by rewrite app_nil_r.
    + apply copy_slice_view.
  - eapply edges_repr_mono; [exact Hextg|exact Hces].
Qed.

Lemma delete_refines t : ∀ fuel h txn n r path s,
  repr h n t → wf r path t → length s < fuel →
  root_flag h txn n r (t_prefix t) →
  delete_spec fuel txn n s h r t.
Proof.
  induction t as [lf pre kids IH] using tree_ind'.
  intros fuel h txn n r path s Hrep Hwf Hfuel Hflag.
  apply repr_inv in Hrep as (sl & es & Hn & Hv & Hes).
  apply wf_inv in Hwf as (_ & _ & Hasc & _ & Hkids).
  pose proof (root_flag_decide _ _ _ _ _ _ _ Hflag Hn) as Hroot.
  pose proof (Forall2_length _ _ _ Hes) as Hlen.
  destruct fuel as [|fuel]; [lia|]. unfold delete_spec. cbn [delete].
  destruct s as [|c s'].
  { (* key exhaustion *)
    rewrite t_delete_nil.
    rewrite (bind_ok _ _ _ _ _ (read_node_ok _ _ _ Hn)). cbn [leaf].
    destruct lf as [l|]; [|done].
    rewrite (bind_ok _ _ _ _ _ (writeNode_ok _ _ _ _ Hn Hv)).
    erewrite bind_ok; [|by eapply set_leaf_ok, lookup_snoc].
    cbn [nodes arrays leaf prefix edges]. rewrite insert_snoc.
    erewrite bind_ok; [|by eapply read_node_ok, lookup_snoc].
    cbn [edges].
    destruct (copy_slice_exact (nodes h ++ [MkNode None pre (copy_slice (length (arrays h)) es)])
                (arrays h) [] es) as (_ & _ & ->).
    rewrite Hroot, Hlen. cbn [t_find].
    destruct (negb r && bool_decide (length kids = 1)) eqn:Hm.
    - apply andb_true_iff in Hm as [_ Hk1]. apply bool_decide_eq_true in Hk1.
      destruct Hes as [|e0 [l1 t1] es0 ks0 He0 Hes0]; [done|].
      destruct Hes0; [|done]. clear Hk1.
      edestruct (repr_merge
                   (Heap (nodes h ++ [MkNode None pre (copy_slice (length (arrays h)) [e0])])
                         (arrays h ++ copy_arrays [e0])) h
                   (length (nodes h)) pre e0 l1 t1) as (mn & xs & Hmerge & Hrep);
        [ext_solve|apply lookup_snoc| |exact He0|].
      { rewrite <-(app_nil_r (copy_arrays [e0])). apply copy_slice_view. }
      rewrite (bind_ok _ _ _ _ _ Hmerge). cbn [nodes arrays]. rewrite insert_snoc.
      eexists _, _. split; [reflexivity|]. split; [ext_solve|]. split; [done|].
      apply Hrep; [apply lookup_snoc|ext_solve|done].
    - erewrite bind_ok; [|reflexivity].
      eexists _, _. split; [reflexivity|]. split; [ext_solve|]. split; [done|].
      eapply repr_intro.
      + apply lookup_snoc.
      + rewrite <-(app_nil_r (copy_arrays es)). apply copy_slice_view.
      + eapply edges_repr_mono; [|exact Hes]. ext_solve. }
  rewrite t_delete_cons.
  rewrite (bind_ok _ _ _ _ _ (getEdge_ok _ _ _ _ c Hn Hv)).
  destruct (kids_search h es kids c Hes Hasc)
    as [(Hhas & Hfind & Hidx & Hadd)|(e & child & t1 & Hhas & Hfind & He & Hel & Hec & Hk & Hrc & Hupd & Hdk)];
    rewrite Hfind; cbv beta iota.
  { by rewrite (with_kid_none _ _ _ _ Hhas). }
  assert ((c, t1) ∈ kids) as Hin by (by eapply list_elem_of_lookup_2).
  rewrite (with_kid_elem _ _ c t1) by done.
  rewrite (t_find_kid _ _ _ _ _ _ Hasc Hin). unfold t_lookup.
  rewrite Forall_forall in IH, Hkids.
  destruct (Hkids _ Hin) as [Hhd Hwf1]. specialize (IH _ Hin). cbn [fst snd] in *.
  pose proof Hrc as Hrc'. destruct t1 as [lf1 p1 kids1].
  apply repr_inv in Hrc' as (sl1 & ces & Hcn & Hcv & Hces).
  rewrite (bind_ok _ _ _ _ _ (read_node_ok _ _ _ Hcn)). cbn [prefix t_prefix] in *.
  destruct (HasPrefix (c :: s') p1) eqn:Hpre; cbn [negb]; [|done].
  apply HasPrefix_spec in Hpre as [s2 Hs]. rewrite Hs, drop_app_length.
  assert (p1 ≠ []) as Hp1 by (by destruct p1).
  specialize (IH fuel h txn child false (path ++ pre) s2 Hrc Hwf1).
  unfold delete_spec in IH.
  destruct (t_delete false (Tr lf1 p1 kids1) s2) as [t''|] eqn:Hd; cbn [fmap option_fmap option_map].
  2:{ erewrite bind_ok.
      2:{ apply IH.
          - apply (f_equal length) in Hs. rewrite length_app in Hs.
            destruct p1; [done|]. simpl in *. lia.
          - split; [apply Hflag|done]. }
      done. }
  destruct IH as (nc1 & h1 & Hdel & Hext1 & Hge1 & Hrep1).
  { apply (f_equal length) in Hs. rewrite length_app in Hs. destruct p1; [done|].
    simpl in *. lia. }
  { split; [apply Hflag|done]. }
  rewrite (bind_ok _ _ _ _ _ Hdel). cbv beta iota.
  erewrite bind_ok.
  2:{ eapply (writeNode_ok h1 n _ es);
        [by eapply heap_ext_node|by eapply heap_ext_view]. }
  destruct (copy_slice_cons (length (arrays h1)) es _ e He) as [-> ->].
  cbn [leaf prefix edges].
  destruct t'' as [lf2 p2 kids2].
  pose proof Hrep1 as (sl2 & ces2 & Hn1 & Hv1 & Hes1)%repr_inv.
  erewrite bind_ok.
  2:{ eapply read_node_ok. cbn [nodes].
      rewrite lookup_app_l by (by eapply lookup_lt_Some). exact Hn1. }
  cbn [leaf edges].
  rewrite (eq_sym (view_length _ _ _ Hv1)), (Forall2_length _ _ _ Hes1).
  unfold after_delete, t_empty. cbn [t_leaf t_kids].
  set (ncn := MkNode lf pre (Slice (Some (length (arrays h1))) 0 (length es))).
  set (h2 := Heap (nodes h1 ++ [ncn]) (arrays h1 ++ [es])).
  assert (heap_ext h1 h2) as Hext2 by ext_solve.
  assert (length (nodes h) ≤ length (nodes h1)) as Hge.
  { destruct Hext1 as [Hp _]. by apply prefix_length in Hp. }
  destruct (bool_decide (lf2 = None) && bool_decide (length kids2 = 0)) eqn:Hemp.
  - (* the child became empty: drop the edge *)
    rewrite bind_assoc. erewrite bind_ok.
    2:{ eapply (delEdge_ok h2 _ lf pre (length (arrays h1)) es c e);
          [apply lookup_snoc|apply lookup_snoc|exact He|exact Hel]. }
    unfold h2. cbn [nodes arrays]. rewrite !insert_snoc.
    rewrite bind_assoc.
    erewrite bind_ok; [|by eapply read_node_ok, lookup_snoc].
    cbn [edges len]. unfold isLeaf. cbn [leaf].
    assert (bool_decide (n ≠ root txn) = negb r) as -> by done.
    rewrite Hdk, length_delete by (rewrite Hk; by eexists).
    rewrite Hlen.
    set (idx := search_label es c) in *.
    set (h3 := Heap _ _).
    assert (heap_ext h1 h3) as Hext3 by ext_solve.
    assert (Forall2 (edge_repr h) (base.delete idx es) (base.delete idx kids)) as Hes'
      by (by apply Forall2_delete).
    assert (view h3 (Slice (Some (length (arrays h1))) 0 (length kids - 1))
              (base.delete idx es)) as Hv3.
    { apply view_last_pad. rewrite length_delete by (rewrite He; by eexists). lia. }
    destruct (negb r && bool_decide (length kids - 1 = 1)
              && negb (bool_decide (is_Some lf))) eqn:Hm.
    + rewrite !andb_true_iff, bool_decide_eq_true, !negb_true_iff,
        bool_decide_eq_false in Hm. destruct Hm as [[_ Hk1] Hlf].
      assert (lf = None) as -> by (destruct lf; [exfalso; eauto|done]).
      assert (length (base.delete idx kids) = 1) as Hl1
        by (rewrite length_delete by (rewrite Hk; by eexists); lia).
      destruct (base.delete idx kids) as [|[l2 t2] [|]] eqn:Hdkk; try done.
      apply Forall2_cons_inv_r in Hes' as (e0 & es0 & He0 & ->%Forall2_nil_inv_r & Hde).
      rewrite Hde in *.
      assert (heap_ext h h3) as Hext03 by (by eapply heap_ext_trans).
      edestruct (repr_merge h3 h (length (nodes h1)) pre e0 l2 t2)
        as (mn & xs & Hmerge & Hrep);
        [exact Hext03|apply lookup_snoc|exact Hv3|exact He0|].
      rewrite (bind_ok _ _ _ _ _ Hmerge). unfold h3 in *.
      cbn [nodes arrays] in *. rewrite insert_snoc.
      eexists _, _. split; [reflexivity|].
      split; [eapply heap_ext_trans; [exact Hext1|ext_solve]|]. split; [lia|].
      apply Hrep; [apply lookup_snoc| |done].
      eapply heap_ext_trans; [exact Hext1|ext_solve].
    + erewrite bind_ok; [|reflexivity].
      eexists _, _. split; [reflexivity|].
      split; [eapply heap_ext_trans; [exact Hext1|exact Hext3]|]. split; [lia|].
      eapply repr_intro; [apply lookup_snoc|exact Hv3|].
      eapply edges_repr_mono; [|exact Hes'].
      eapply heap_ext_trans; [exact Hext1|exact Hext3].
  - (* the child survives: redirect the edge to its copy *)
    erewrite bind_ok.
    2:{ eapply (set_edge_node_ok _ _ lf pre (length (arrays h1)) (length es) es es _ e);
          cbn [nodes arrays];
          [apply lookup_snoc|apply lookup_snoc|done|by rewrite firstn_all|exact He]. }
    cbn [nodes arrays]. rewrite insert_snoc.
    eexists _, _. split; [reflexivity|].
    assert (heap_ext h1 (Heap (nodes h1 ++ [MkNode lf pre (Slice (Some (length (arrays h1))) 0 (length es))])
                              (arrays h1 ++ [<[search_label es c := Edge (label e) (Some nc1)]> es])))
      as Hext3 by ext_solve.
    split; [by eapply heap_ext_trans|]. split; [lia|].
    rewrite Hupd. eapply repr_intro.
    + apply lookup_snoc.
    + apply view_last_exact. by rewrite length_insert.
    + apply Forall2_insert.
      * eapply edges_repr_mono; [|exact Hes]. by eapply heap_ext_trans.
      * split; [done|]. exists nc1. split; [done|]. by eapply heap_ext_repr.
Qed.

End DeleteRefines.

(** ** Lookups and walks on the heap refine the functional model *)

Section ReadRefines.

Context {V : Type}.

Implicit Types (h g : heap V) (nd : Node V) (e : edge) (sl : slice).
Implicit Types (es : list edge) (a n : addr) (lf : option (leafNode V)).
Implicit Types (t : tree V) (kids : list (byte * tree V)) (k s : list byte).

Lemma suffix_shorter (c : byte) s' p s2 :
  c :: s' = p ++ s2 → p ≠ [] → length s2 < length (c :: s').
Proof.
  intros Hs Hp. rewrite Hs, length_app. destruct p; [done|]. simpl. lia.
Qed.

Lemma Get_refines t : ∀ fuel h n r path s,
  repr h n t → wf r path t → length s < fuel →
  Get_loop fuel n s h = Ok (t_get t s) h.
Proof.
  induction t as [lf pre kids IH] using tree_ind'.
  intros fuel h n r path s Hrep Hwf Hfuel.
  apply repr_inv in Hrep as (sl & es & Hn & Hv & Hes).
  apply wf_inv in Hwf as (_ & _ & Hasc & _ & Hkids).
  destruct fuel as [|fuel]; [lia|]. unfold t_get. cbn [Get_loop].
  destruct s as [|c s'].
  { by rewrite (bind_ok _ _ _ _ _ (read_node_ok _ _ _ Hn)). }
  rewrite (bind_ok _ _ _ _ _ (getEdge_ok _ _ _ _ c Hn Hv)).
  destruct (kids_search h es kids c Hes Hasc)
    as [(Hhas & Hfind & _)|(e & child & t1 & Hhas & Hfind & He & Hel & Hec & Hk & Hrc & _)];
    rewrite Hfind; cbv beta iota.
  { rewrite t_find_cons. by rewrite (with_kid_none _ _ _ _ Hhas). }
  assert ((c, t1) ∈ kids) as Hin by (by eapply list_elem_of_lookup_2).
  rewrite (t_find_kid _ _ _ _ _ _ Hasc Hin). unfold t_lookup.
  rewrite Forall_forall in IH, Hkids.
  destruct (Hkids _ Hin) as [Hhd Hwf1]. specialize (IH _ Hin). cbn [fst snd] in *.
  pose proof Hrc as Hrc'. destruct t1 as [lf1 p1 kids1].
  apply repr_inv in Hrc' as (sl1 & ces & Hcn & Hcv & Hces).
  rewrite (bind_ok _ _ _ _ _ (read_node_ok _ _ _ Hcn)). cbn [prefix t_prefix] in *.
  destruct (HasPrefix (c :: s') p1) eqn:Hpre; [|done].
  apply HasPrefix_spec in Hpre as [s2 Hs]. rewrite Hs, drop_app_length.
  assert (p1 ≠ []) as Hp1 by (by destruct p1).
  pose proof (suffix_shorter _ _ _ _ Hs Hp1) as Hshort.
  eapply IH; [exact Hrc|exact Hwf1|]. simpl in *. lia.
Qed.

Lemma height_kid (l : byte) t kids :
  (l, t) ∈ kids → height t ≤ foldr Nat.max 0 (map (λ lt, height lt.2) kids).
Proof.
  induction kids as [|[l' t'] ks IH]; [by intros ?%elem_of_nil|].
  rewrite elem_of_cons. intros [[= <- <-]|Hin]; simpl; [lia|].
  specialize (IH Hin). lia.
Qed.

Lemma Minimum_refines t : ∀ fuel h n,
  repr h n t → height t ≤ fuel → Minimum fuel n h = Ok (t_min t) h.
Proof.
  induction t as [lf pre kids IH] using tree_ind'.
  intros fuel h n Hrep Hfuel.
  apply repr_inv in Hrep as (sl & es & Hn & Hv & Hes).
  destruct fuel as [|fuel]; [simpl in Hfuel; lia|]. cbn [Minimum t_min].
  rewrite (bind_ok _ _ _ _ _ (read_node_ok _ _ _ Hn)). cbn [leaf edges].
  destruct lf as [l|]; [done|].
  rewrite <-(view_length _ _ _ Hv).
  destruct Hes as [|e [l1 t1] es' ks He Hes']; [done|].
  cbn [length]. change (0 <? S (length es')) with true. cbv iota.
  erewrite bind_ok; [|by eapply index_ok]. destruct He as [_ (c & Hc & Hrc)].
  rewrite Hc. cbn [deref]. erewrite bind_ok; [|reflexivity].
  apply Forall_cons in IH as [IH _]. apply IH; [done|].
  cbn [height map foldr snd] in Hfuel. cbn [snd]. lia.
Qed.

Lemma Maximum_refines t : ∀ fuel h n,
  repr h n t → height t ≤ fuel → Maximum fuel n h = Ok (t_max t) h.
Proof.
  induction t as [lf pre kids IH] using tree_ind'.
  intros fuel h n Hrep Hfuel.
  apply repr_inv in Hrep as (sl & es & Hn & Hv & Hes).
  destruct fuel as [|fuel]; [simpl in Hfuel; lia|].
  rewrite t_max_eq. cbn [Maximum].
  rewrite (bind_ok _ _ _ _ _ (read_node_ok _ _ _ Hn)). cbn [leaf edges].
  rewrite <-(view_length _ _ _ Hv).
  pose proof (Forall2_length _ _ _ Hes) as Hlen.
  destruct (last kids) as [[l1 t1]|] eqn:Hlast.
  - rewrite last_lookup in Hlast.
    assert (0 < length kids) as Hpos by (apply lookup_lt_Some in Hlast; lia).
    destruct (Nat.ltb_spec 0 (length es)) as [_|?]; [|lia].
    destruct (Forall2_lookup_r _ _ _ _ _ Hes Hlast) as (e & He & _ & c & Hc & Hrc).
    replace (pred (length kids)) with (length es - 1) in He by lia.
    erewrite bind_ok; [|by eapply index_ok]. rewrite Hc. cbn [deref].
    erewrite bind_ok; [|reflexivity].
    assert ((l1, t1) ∈ kids) as Hin by (by eapply list_elem_of_lookup_2).
    rewrite Forall_forall in IH. apply (IH _ Hin); [done|].
    pose proof (height_kid _ _ _ Hin). cbn [height] in Hfuel. cbn [snd]. lia.
  - apply last_None in Hlast as ->. destruct es; [|done]. simpl.
    by destruct lf.
Qed.

(** *** Walks *)

Lemma until_app (fn : @WalkFn V) l1 l2 :
  until fn (l1 ++ l2) = if aborts fn l1 then until fn l1 else l1 ++ until fn l2.
Proof.
  induction l1 as [|x l1 IH]; [done|]. simpl.
  destruct (fn x.1 x.2); [done|]. simpl. rewrite IH. by destruct (aborts fn l1).
Qed.

Lemma aborts_app (fn : @WalkFn V) l1 l2 :
  aborts fn (l1 ++ l2) = aborts fn l1 || aborts fn l2.
Proof. apply existsb_app. Qed.

Lemma until_all (fn : @WalkFn V) l : aborts fn l = false → until fn l = l.
Proof.
  induction l as [|x l IH]; [done|]. simpl.
  destruct (fn x.1 x.2); [done|]. simpl. intros H. by rewrite IH.
Qed.

Lemma range_edges_ok (walk : addr → M V (list (list byte * V) * bool))
    (fn : @WalkFn V) h : ∀ es kids seen,
  Forall2 (λ e lt, ∃ c, node e = Some c
             ∧ walk c h = Ok (until fn (t_walk lt.2), aborts fn (t_walk lt.2)) h)
          es kids →
  range_edges walk es seen h
  = Ok (seen ++ until fn (kids_walk kids), aborts fn (kids_walk kids)) h.
Proof.
  intros es kids seen Hes. revert seen.
  induction Hes as [|e [l t] es ks (c & Hc & Hw) _ IH]; intros seen.
  { simpl. by rewrite app_nil_r. }
  cbn [range_edges]. rewrite Hc. cbn [deref].
  erewrite bind_ok; [|reflexivity]. rewrite (bind_ok _ _ _ _ _ Hw). cbv beta iota.
  rewrite kids_walk_cons, until_app, aborts_app. cbn [snd] in *.
  destruct (aborts fn (t_walk t)) eqn:Hab; [done|].
  rewrite IH, (until_all _ _ Hab). by rewrite <-app_assoc.
Qed.

Lemma recursiveWalk_refines t : ∀ fuel h n fn,
  repr h n t → height t ≤ fuel →
  recursiveWalk fuel n fn h = Ok (until fn (t_walk t), aborts fn (t_walk t)) h.
Proof.
  induction t as [lf pre kids IH] using tree_ind'.
  intros fuel h n fn Hrep Hfuel.
  apply repr_inv in Hrep as (sl & es & Hn & Hv & Hes).
  destruct fuel as [|fuel]; [simpl in Hfuel; lia|].
  cbn [recursiveWalk].
  rewrite (bind_ok _ _ _ _ _ (read_node_ok _ _ _ Hn)). cbn [leaf edges].
  rewrite t_walk_eq, until_app, aborts_app.
  assert (range_edges (λ c, recursiveWalk fuel c fn) es (leaf_entry lf) h
          = Ok (leaf_entry lf ++ until fn (kids_walk kids),
                aborts fn (kids_walk kids)) h) as Hrange.
  { apply range_edges_ok. rewrite Forall_forall in IH.
    apply Forall2_same_length_lookup in Hes as [Hlen Hes].
    apply Forall2_same_length_lookup. split; [done|].
    intros i e [l1 t1] He Hk. destruct (Hes _ _ _ He Hk) as [_ (c & Hc & Hrc)].
    assert ((l1, t1) ∈ kids) as Hin by (by eapply list_elem_of_lookup_2).
    exists c. split; [done|]. apply (IH _ Hin); [done|].
    pose proof (height_kid _ _ _ Hin). cbn [height] in Hfuel. cbn [snd]. lia. }
  destruct lf as [l|]; cbn [leaf_entry aborts existsb until fst snd orb].
  - destruct (fn (key l) (val l)) eqn:Hfn; [done|].
    rewrite (bind_ok _ _ _ _ _ (elems_ok _ _ _ Hv)). cbn [orb]. exact Hrange.
  - rewrite (bind_ok _ _ _ _ _ (elems_ok _ _ _ Hv)). exact Hrange.
Qed.

Lemma Walk_refines t fuel h n fn :
  repr h n t → height t ≤ fuel →
  Walk fuel n fn h = Ok (until fn (t_walk t)) h.
Proof.
  intros Hrep Hfuel. unfold Walk.
  by rewrite (bind_ok _ _ _ _ _ (recursiveWalk_refines _ _ _ _ fn Hrep Hfuel)).
Qed.

End ReadRefines.

(** ** Transactions and committed trees *)

Section Transactions.

Context {V : Type}.

Implicit Types (h g : heap V) (nd : Node V) (e : edge) (sl : slice).
Implicit Types (es : list edge) (a n : addr) (lf : option (leafNode V)).
Implicit Types (t : tree V) (kids : list (byte * tree V)) (k s : list byte).
Implicit Types (o : op V) (ops : list (op V)) (txn : Txn) (T : Tree).

Lemma wf_root_prefix t : wf true [] t → t_prefix t = [].
Proof. destruct t. intros (Hp & _)%wf_inv. by apply Hp. Qed.

Lemma t_lookup_root t x : wf true [] t → t_lookup t x = t_find t x.
Proof.
  intros Hp%wf_root_prefix. unfold t_lookup. rewrite Hp. by destruct x.
Qed.

(** *** The functional model of the operations *)

Lemma wf_apply_op t o : wf true [] t → wf true [] (apply_op t o).
Proof.
  intros Hwf. destruct o as [k v|k]; simpl.
  - apply wf_insert; [done|]. by rewrite (wf_root_prefix t).
  - destruct (t_delete true t k) as [t'|] eqn:Hd; [|done]. simpl.
    destruct (wf_delete _ _ _ _ _ Hwf Hd) as [_ H]. apply H. by left.
Qed.

Lemma find_apply_op t o x :
  wf true [] t →
  t_find (apply_op t o) x
  = match o with
    | Insert k v => if bool_decide (k = x) then Some (LeafNode k v) else t_find t x
    | Delete k => if bool_decide (k = x) then None else t_find t x
    end.
Proof.
  intros Hwf. destruct o as [k v|k]; simpl.
  - rewrite t_find_insert.
    destruct (decide (x = k)) as [->|Hne].
    + by rewrite !bool_decide_eq_true_2.
    + by rewrite !bool_decide_eq_false_2.
  - destruct (t_delete true t k) as [t'|] eqn:Hd; simpl.
    + pose proof (wf_apply_op t (Delete k) Hwf) as Hwf'. simpl in Hwf'.
      rewrite Hd in Hwf'. simpl in Hwf'.
      rewrite <-(t_lookup_root t' x Hwf'), <-(t_lookup_root t x Hwf).
      rewrite (t_lookup_delete _ _ _ _ _ Hwf Hd), (wf_root_prefix t Hwf).
      cbn [app]. destruct (decide (x = k)) as [->|Hne].
      * by rewrite !bool_decide_eq_true_2.
      * by rewrite !bool_decide_eq_false_2.
    + apply t_delete_none in Hd. destruct (decide (k = x)) as [->|Hne].
      * by rewrite bool_decide_eq_true_2, Hd.
      * by rewrite bool_decide_eq_false_2.
Qed.

Lemma get_apply_op t o x :
  wf true [] t →
  t_get (apply_op t o) x
  = match o with
    | Insert k v => if bool_decide (k = x) then Some v else t_get t x
    | Delete k => if bool_decide (k = x) then None else t_get t x
    end.
Proof.
  intros Hwf. unfold t_get. rewrite (find_apply_op t o x Hwf).
  destruct o as [k v|k]; by case_bool_decide.
Qed.

Lemma wf_foldl t ops : wf true [] t → wf true [] (foldl apply_op t ops).
Proof.
  revert t. induction ops as [|o ops IH]; intros t Hwf; [done|].
  simpl. by apply IH, wf_apply_op.
Qed.

Lemma wf_model ops : wf true [] (model ops).
Proof. apply wf_foldl, wf_empty_root. Qed.

Lemma model_snoc ops o : model (ops ++ [o]) = apply_op (model ops) o.
Proof. unfold model. by rewrite foldl_app. Qed.

(** The model of a history answers lookups with the last write. *)
Lemma model_get ops x : t_get (model ops) x = history_get ops x.
Proof.
  unfold history_get. induction ops as [|o ops IH] using rev_ind.
  { by destruct x. }
  rewrite model_snoc, get_apply_op by apply wf_model.
  rewrite rev_unit. simpl. rewrite IH. by destruct o.
Qed.

(** *** The operations on the heap *)

Lemma tree_inv_ext h h' a t : heap_ext h h' → tree_inv h a t → tree_inv h' a t.
Proof. intros Hext [Hr Hwf]. split; [by eapply heap_ext_repr|done]. Qed.

Lemma New_spec h :
  New h = Ok (MkTree (length (nodes h)))
             (Heap (nodes h ++ [MkNode None [] nil_slice]) (arrays h)).
Proof. done. Qed.

Lemma New_inv h :
  ∃ T h', New h = Ok T h' ∧ heap_ext h h' ∧ tree_root T = length (nodes h)
          ∧ tree_inv h' (tree_root T) (Tr None [] []).
Proof.
  eexists _, _. split; [apply New_spec|]. split.
  { split; cbn [nodes arrays]; [by apply prefix_app_r|done]. }
  split; [done|]. split; [|apply wf_empty_root].
  eapply repr_intro; [apply lookup_snoc|apply view_nil|constructor].
Qed.

Lemma Txn_Insert_spec h txn t k v :
  tree_inv h (root txn) t →
  ∃ r' h',
    Txn_Insert txn k v h = Ok (MkTxn r' (orig txn), t_get t k) h'
    ∧ heap_ext h h' ∧ length (nodes h) ≤ r'
    ∧ tree_inv h' r' (apply_op t (Insert k v)).
Proof.
  intros [Hr Hwf].
  destruct (insert_refines t (depth_bound k) h (root txn) true [] k k v Hr Hwf)
    as (nc & h' & Hins & Hext & Hge & Hrep); [unfold depth_bound; lia|].
  exists nc, h'. unfold Txn_Insert. rewrite (bind_ok _ _ _ _ _ Hins).
  split; [done|]. split; [done|]. split; [done|]. split; [done|].
  by apply (wf_apply_op t (Insert k v)).
Qed.

Lemma Txn_Delete_spec h txn t k :
  tree_inv h (root txn) t →
  match t_delete true t k with
  | None => t_get t k = None ∧ Txn_Delete txn k h = Ok (txn, None) h
  | Some t' =>
      ∃ r' h',
        Txn_Delete txn k h = Ok (MkTxn r' (orig txn), t_get t k) h'
        ∧ is_Some (t_get t k)
        ∧ heap_ext h h' ∧ length (nodes h) ≤ r'
        ∧ tree_inv h' r' t'
  end.
Proof.
  intros [Hr Hwf].
  assert (root_flag h txn (root txn) true (t_prefix t)) as Hflag.
  { split; [|done]. destruct t as [lf pre kids].
    pose proof Hr as (sl & es & Hn & _)%repr_inv. eexists. split; [exact Hn|].
    by apply wf_inv in Hwf as (-> & _). }
  pose proof (delete_refines t (depth_bound k) h txn (root txn) true [] k Hr Hwf) as Hd.
  unfold delete_spec in Hd. unfold Txn_Delete.
  destruct (t_delete true t k) as [t'|] eqn:Hdel.
  - destruct Hd as (nc & h' & Hd & Hext & Hge & Hrep);
      [unfold depth_bound; lia|done|].
    exists nc, h'. rewrite (bind_ok _ _ _ _ _ Hd).
    split; [done|]. split.
    { unfold t_get. destruct (t_find t k) eqn:Hf; [by eexists|].
      apply (t_delete_none t true k) in Hf. by rewrite Hf in Hdel. }
    split; [done|]. split; [done|]. split; [done|].
    pose proof (wf_apply_op t (Delete k) Hwf) as Hwf'. simpl in Hwf'.
    by rewrite Hdel in Hwf'.
  - rewrite (bind_ok _ _ _ _ _ (Hd ltac:(unfold depth_bound; lia) Hflag)).
    split; [|done]. unfold t_get. apply t_delete_none in Hdel. by rewrite Hdel.
Qed.

(** Both operations at once: the next root holds the next tree, nothing
    that was allocated before is touched, and the root changes exactly
    when the returned root is new. *)
Lemma Txn_op_spec h txn t o :
  tree_inv h (root txn) t →
  ∃ txn' h',
    Txn_op txn o h
    = Ok (txn', t_get t (op_key o)) h'
    ∧ heap_ext h h' ∧ orig txn' = orig txn
    ∧ tree_inv h' (root txn') (apply_op t o)
    ∧ (txn' = txn ∧ h' = h ∨ length (nodes h) ≤ root txn').
Proof.
  intros Hinv. destruct o as [k v|k]; cbn [Txn_op].
  - destruct (Txn_Insert_spec h txn t k v Hinv) as (r' & h' & Hi & Hext & Hge & Hinv').
    exists (MkTxn r' (orig txn)), h'.
    split; [done|]. split; [done|]. split; [done|]. split; [done|]. by right.
  - pose proof (Txn_Delete_spec h txn t k Hinv) as Hd. simpl.
    destruct (t_delete true t k) as [t'|] eqn:Hdel.
    + destruct Hd as (r' & h' & Hd & _ & Hext & Hge & Hinv').
      exists (MkTxn r' (orig txn)), h'. cbn [default].
      split; [done|]. split; [done|]. split; [done|]. split; [done|]. by right.
    + destruct Hd as [Hg Hd]. exists txn, h. rewrite Hg. cbn [default].
      split; [done|]. split; [apply heap_ext_refl|]. split; [done|].
      split; [done|]. by left.
Qed.

Lemma tree_inv_alloc h a t : tree_inv h a t → a < length (nodes h).
Proof.
  intros [Hr _]. destruct t. apply repr_inv in Hr as (? & ? & Hn & _).
  by eapply lookup_lt_Some.
Qed.

Lemma heap_ext_length h h' : heap_ext h h' → length (nodes h) ≤ length (nodes h').
Proof. intros [Hp _]. by apply prefix_length. Qed.

Lemma Tree_op_spec h T t o :
  tree_inv h (tree_root T) t →
  ∃ T' h',
    Tree_op T o h = Ok (T', t_get t (op_key o)) h'
    ∧ heap_ext h h'
    ∧ tree_inv h' (tree_root T') (apply_op t o)
    ∧ (T' = T ∧ h' = h ∨ length (nodes h) ≤ tree_root T').
Proof.
  intros Hinv.
  destruct (Txn_op_spec h (Tree_Txn T) t o Hinv)
    as (txn' & h' & Hop & Hext & Horig & Hinv' & Hfresh).
  exists (MkTree (root txn')), h'. split.
  { destruct o as [k v|k]; cbn [Tree_op Txn_op] in *;
      unfold Tree_Insert, Tree_Delete; by rewrite (bind_ok _ _ _ _ _ Hop). }
  split; [done|]. split; [done|].
  destruct Hfresh as [[-> ->]|Hge]; [left|by right]. by destruct T.
Qed.

Lemma apply_ops_spec ops : ∀ h T t,
  tree_inv h (tree_root T) t →
  ∃ T' h',
    apply_ops T ops h = Ok T' h' ∧ heap_ext h h'
    ∧ tree_inv h' (tree_root T') (foldl apply_op t ops).
Proof.
  induction ops as [|o ops IH]; intros h T t Hinv.
  { exists T, h. split; [done|]. split; [apply heap_ext_refl|done]. }
  destruct (Tree_op_spec h T t o Hinv) as (T1 & h1 & Hop & Hext1 & Hinv1 & _).
  destruct (IH h1 T1 _ Hinv1) as (T' & h' & Hrun & Hext & Hinv').
  exists T', h'. cbn [apply_ops]. rewrite (bind_ok _ _ _ _ _ Hop).
  split; [done|]. split; [by eapply heap_ext_trans|done].
Qed.

(** Every history builds a tree: the heap holds, under the committed
    root, the well-formed tree that the model computes. *)
Lemma build_spec ops :
  ∃ T h, build ops empty_heap = Ok T h ∧ tree_inv h (tree_root T) (model ops).
Proof.
  destruct (New_inv empty_heap) as (T0 & h0 & Hnew & _ & _ & Hinv0).
  destruct (apply_ops_spec ops h0 T0 _ Hinv0) as (T & h & Hrun & _ & Hinv).
  exists T, h. unfold build. by rewrite (bind_ok _ _ _ _ _ Hnew).
Qed.

Lemma txn_ops_spec ops : ∀ h txn t,
  tree_inv h (root txn) t →
  ∃ txn' h' b,
    txn_ops txn ops h = Ok txn' h' ∧ heap_ext h h'
    ∧ orig txn' = orig txn
    ∧ tree_inv h' (root txn') (foldl apply_op t ops)
    ∧ root_replaced txn ops h = Ok b h'
    ∧ (if b then length (nodes h) ≤ root txn' else txn' = txn ∧ h' = h)
    ∧ (existsb is_insert ops = true → b = true)
    ∧ (Forall (λ o, is_insert o = false ∧ t_get t (op_key o) = None) ops →
       b = false).
Proof.
  induction ops as [|o ops IH]; intros h txn t Hinv.
  { exists txn, h, false. split; [done|]. split; [apply heap_ext_refl|].
    do 5 (split; [done|]). done. }
  destruct (Txn_op_spec h txn t o Hinv)
    as (txn1 & h1 & Hop & Hext1 & Horig1 & Hinv1 & Hfresh).
  destruct (IH h1 txn1 _ Hinv1)
    as (txn' & h' & b & Hrun & Hext & Horig & Hinv' & Hrep & Hb & Hins & Hdel).
  pose proof (tree_inv_alloc _ _ _ Hinv) as Hlt.
  pose proof (heap_ext_length _ _ Hext1) as Hlen1.
  exists txn', h', (bool_decide (root txn1 ≠ root txn) || b).
  cbn [txn_ops root_replaced]. rewrite !(bind_ok _ _ _ _ _ Hop).
  rewrite (bind_ok _ _ _ _ _ Hrep).
  split; [done|]. split; [by eapply heap_ext_trans|]. split; [congruence|].
  split; [done|]. split; [done|]. split; [|split].
  - destruct Hfresh as [[-> ->]|Hge].
    + by rewrite bool_decide_eq_false_2 by (intros H; by apply H).
    + rewrite bool_decide_eq_true_2 by lia. cbn [orb].
      destruct b; [lia|]. by destruct Hb as [-> ->].
  - cbn [existsb]. intros [Hi|Hi]%orb_true_iff; [|by rewrite (Hins Hi), orb_true_r].
    destruct o as [k v|k]; [|done].
    destruct (Txn_Insert_spec h txn t k v Hinv) as (r' & h1' & Hop' & _ & Hge & _).
    cbn [Txn_op] in Hop. rewrite Hop' in Hop. injection Hop as <- _.
    cbn [root]. by rewrite bool_decide_eq_true_2 by lia.
  - intros [[Hi Hg] Hall]%Forall_cons. destruct o as [k v|k]; [done|].
    pose proof (Txn_Delete_spec h txn t k Hinv) as Hd.
    cbn [op_key] in Hg. unfold t_get in Hg.
    destruct (t_find t k) eqn:Hf; [done|].
    apply (t_delete_none t true k) in Hf. rewrite Hf in Hd.
    destruct Hd as [_ Hd]. cbn [Txn_op] in Hop. rewrite Hd in Hop.
    injection Hop as <- _ <-.
    rewrite bool_decide_eq_false_2 by (intros H; by apply H). cbn [orb].
    apply Hdel. cbn [apply_op]. by rewrite Hf.
Qed.

Lemma transact_spec ops h T t :
  tree_inv h (tree_root T) t →
  ∃ T' h',
    transact T ops h = Ok T' h' ∧ heap_ext h h'
    ∧ tree_inv h' (tree_root T') (foldl apply_op t ops).
Proof.
  intros Hinv.
  destruct (txn_ops_spec ops h (Tree_Txn T) t Hinv)
    as (x & h' & b & Hrun & Hext & _ & Hinv' & _).
  exists (MkTree (root x)), h'. unfold transact.
  by rewrite (bind_ok _ _ _ _ _ Hrun).
Qed.

Lemma commit_all_spec (txs : list (list (op V))) : ∀ h T t,
  tree_inv h (tree_root T) t →
  ∃ T' h',
    commit_all T txs h = Ok T' h' ∧ heap_ext h h'
    ∧ tree_inv h' (tree_root T') (foldl apply_op t (mjoin txs)).
Proof.
  induction txs as [|ops txs IH]; intros h T t Hinv.
  { exists T, h. split; [done|]. split; [apply heap_ext_refl|done]. }
  destruct (transact_spec ops h T t Hinv) as (T1 & h1 & Hrun1 & Hext1 & Hinv1).
  destruct (IH h1 T1 _ Hinv1) as (T' & h' & Hrun & Hext & Hinv').
  exists T', h'. cbn [commit_all]. rewrite (bind_ok _ _ _ _ _ Hrun1).
  split; [done|]. split; [by eapply heap_ext_trans|].
  cbn [mjoin list_join]. by rewrite foldl_app.
Qed.

Lemma build_txns_spec (txs : list (list (op V))) :
  ∃ T h,
    build_txns txs empty_heap = Ok T h
    ∧ tree_inv h (tree_root T) (model (mjoin txs)).
Proof.
  destruct (New_inv empty_heap) as (T0 & h0 & Hnew & _ & _ & Hinv0).
  destruct (commit_all_spec txs h0 T0 _ Hinv0) as (T & h & Hrun & _ & Hinv).
  exists T, h. unfold build_txns. by rewrite (bind_ok _ _ _ _ _ Hnew).
Qed.

Lemma interleave_spec sched : ∀ h (a b : Txn) ta tb,
  tree_inv h (root a) ta → tree_inv h (root b) tb →
  ∃ (a' b' : Txn) h' ta' tb',
    interleave a b sched h = Ok (a', b') h' ∧ heap_ext h h'
    ∧ tree_inv h' (root a') ta' ∧ tree_inv h' (root b') tb'.
Proof.
  induction sched as [|[[] o] sched IH]; intros h a b ta tb Ha Hb.
  - exists a, b, h, ta, tb. split; [done|]. split; [apply heap_ext_refl|done].
  - destruct (Txn_op_spec h a ta o Ha) as (a1 & h1 & Hop & Hext1 & _ & Ha1 & _).
    destruct (IH h1 a1 b _ tb Ha1 (tree_inv_ext _ _ _ _ Hext1 Hb))
      as (a' & b' & h' & ta' & tb' & Hrun & Hext & Ha' & Hb').
    exists a', b', h', ta', tb'. cbn [interleave]. rewrite (bind_ok _ _ _ _ _ Hop).
    split; [done|]. split; [by eapply heap_ext_trans|done].
  - destruct (Txn_op_spec h b tb o Hb) as (b1 & h1 & Hop & Hext1 & _ & Hb1 & _).
    destruct (IH h1 a b1 ta _ (tree_inv_ext _ _ _ _ Hext1 Ha) Hb1)
      as (a' & b' & h' & ta' & tb' & Hrun & Hext & Ha' & Hb').
    exists a', b', h', ta', tb'. cbn [interleave]. rewrite (bind_ok _ _ _ _ _ Hop).
    split; [done|]. split; [by eapply heap_ext_trans|done].
Qed.

End Transactions.

(** ** Snapshots and the nodes of a tree *)

Section Nodes.

Context {V : Type}.

Implicit Types (h g : heap V) (nd : Node V) (e : edge) (sl : slice).
Implicit Types (es : list edge) (a n : addr) (lf : option (leafNode V)).
Implicit Types (t : tree V) (kids : list (byte * tree V)) (k s : list byte).

Lemma view_fun h sl es es' : view h sl es → view h sl es' → es = es'.
Proof.
  intros (l & Hl & _ & ->) (l' & Hl' & _ & ->).
  destruct (arr sl); [|by subst]. by simplify_eq.
Qed.

(** The deep copy of a represented tree is its unfolding. *)
Lemma snapshot_repr t : ∀ fuel h a,
  repr h a t → height t ≤ fuel → snapshot fuel h a = Some t.
Proof.
  induction t as [lf pre kids IH] using tree_ind'. intros fuel h a Hrep Hfuel.
  apply repr_inv in Hrep as (sl & es & Hn & (l & Hl & _ & ->) & Hes).
  destruct fuel as [|fuel]; [simpl in Hfuel; lia|]. cbn [snapshot].
  rewrite Hn. cbn [mbind option_bind edges leaf prefix].
  assert (match arr sl with
          | Some b => arrays h !! b
          | None => Some []
          end = Some l) as -> by (destruct (arr sl); by subst).
  cbn [mbind option_bind].
  assert (mapM (λ e, c ← node e; t ← snapshot fuel h c; Some (label e, t))
               (take (len sl) (drop (off sl) l)) = Some kids) as ->; [|done].
  apply mapM_Some. rewrite Forall_forall in IH.
  apply Forall2_same_length_lookup in Hes as [Hlen Hes].
  apply Forall2_same_length_lookup. split; [done|].
  intros i e [l1 t1] He Hk. destruct (Hes _ _ _ He Hk) as [Hlab (c & Hc & Hrc)].
  assert ((l1, t1) ∈ kids) as Hin by (by eapply list_elem_of_lookup_2).
  rewrite Hc. cbn [mbind option_bind]. cbn [fst snd] in *.
  rewrite (IH _ Hin fuel h c Hrc); [by rewrite Hlab|].
  pose proof (height_kid _ _ _ Hin). cbn [height] in Hfuel. cbn [snd]. lia.
Qed.

(** A node below a represented, well-formed tree carries a well-formed
    tree of its own; it is a root only if it is the node one started at. *)
Lemma node_of_repr h a n :
  node_of h a n → ∀ t r path,
  repr h a t → wf r path t →
  ∃ d r' path', repr h n d ∧ wf r' path' d ∧ (n = a ∧ r' = r ∨ r' = false).
Proof.
  induction 1 as [a|a nd es e c n Hn Hv He Hc _ IH]; intros t r path Hrep Hwf.
  { exists t, r, path. split; [done|]. split; [done|]. by left. }
  destruct t as [lf pre kids].
  apply repr_inv in Hrep as (sl & es' & Hn' & Hv' & Hes).
  rewrite Hn in Hn'. injection Hn' as ->. cbn [edges] in Hv.
  rewrite (view_fun _ _ _ _ Hv Hv') in He.
  apply wf_inv in Hwf as (_ & _ & _ & _ & Hkids).
  apply list_elem_of_lookup_1 in He as [i He].
  destruct (Forall2_lookup_l _ _ _ _ _ Hes He) as ([l1 t1] & Hk & _ & c' & Hc' & Hrc).
  rewrite Hc in Hc'. injection Hc' as <-.
  rewrite Forall_forall in Hkids.
  destruct (Hkids (l1, t1)) as [_ Hwf1]; [by eapply list_elem_of_lookup_2|].
  destruct (IH _ _ _ Hrc Hwf1) as (d & r' & path' & Hd & Hwfd & Hor).
  exists d, r', path'. split; [done|]. split; [done|]. right.
  by destruct Hor as [[_ ->]| ->].
Qed.

(** *** Reads with too little fuel

    A read that runs out of fuel says so; it fails in no other way. *)

Lemma Minimum_fuel t : ∀ fuel h n,
  repr h n t →
  Minimum fuel n h = Ok (t_min t) h ∨ Minimum fuel n h = Panic OutOfFuel.
Proof.
  induction t as [lf pre kids IH] using tree_ind'. intros fuel h n Hrep.
  apply repr_inv in Hrep as (sl & es & Hn & Hv & Hes).
  destruct fuel as [|fuel]; [by right|]. cbn [Minimum t_min].
  rewrite (bind_ok _ _ _ _ _ (read_node_ok _ _ _ Hn)). cbn [leaf edges].
  destruct lf as [l|]; [by left|].
  rewrite <-(view_length _ _ _ Hv).
  destruct Hes as [|e [l1 t1] es' ks He Hes']; [by left|].
  cbn [length]. change (0 <? S (length es')) with true. cbv iota.
  erewrite bind_ok; [|by eapply index_ok]. destruct He as [_ (c & Hc & Hrc)].
  rewrite Hc. cbn [deref]. erewrite bind_ok; [|reflexivity].
  apply Forall_cons in IH as [IH _]. by apply IH.
Qed.

Lemma Maximum_fuel t : ∀ fuel h n,
  repr h n t →
  Maximum fuel n h = Ok (t_max t) h ∨ Maximum fuel n h = Panic OutOfFuel.
Proof.
  induction t as [lf pre kids IH] using tree_ind'. intros fuel h n Hrep.
  apply repr_inv in Hrep as (sl & es & Hn & Hv & Hes).
  destruct fuel as [|fuel]; [by right|].
  rewrite t_max_eq. cbn [Maximum].
  rewrite (bind_ok _ _ _ _ _ (read_node_ok _ _ _ Hn)). cbn [leaf edges].
  rewrite <-(view_length _ _ _ Hv).
  pose proof (Forall2_length _ _ _ Hes) as Hlen.
  destruct (last kids) as [[l1 t1]|] eqn:Hlast.
  - rewrite last_lookup in Hlast.
    assert (0 < length kids) as Hpos by (apply lookup_lt_Some in Hlast; lia).
    destruct (Nat.ltb_spec 0 (length es)) as [_|?]; [|lia].
    destruct (Forall2_lookup_r _ _ _ _ _ Hes Hlast) as (e & He & _ & c & Hc & Hrc).
    replace (pred (length kids)) with (length es - 1) in He by lia.
    erewrite bind_ok; [|by eapply index_ok]. rewrite Hc. cbn [deref].
    erewrite bind_ok; [|reflexivity].
    assert ((l1, t1) ∈ kids) as Hin by (by eapply list_elem_of_lookup_2).
    rewrite Forall_forall in IH. by apply (IH _ Hin).
  - apply last_None in Hlast as ->. destruct es; [|done]. simpl.
    left. by destruct lf.
Qed.

Lemma range_edges_fuel (walk : addr → M V (list (list byte * V) * bool))
    (fn : @WalkFn V) h : ∀ es kids seen,
  Forall2 (λ e lt, ∃ c, node e = Some c
             ∧ (walk c h = Ok (until fn (t_walk lt.2), aborts fn (t_walk lt.2)) h
                ∨ walk c h = Panic OutOfFuel))
          es kids →
  range_edges walk es seen h
  = Ok (seen ++ until fn (kids_walk kids), aborts fn (kids_walk kids)) h
  ∨ range_edges walk es seen h = Panic OutOfFuel.
Proof.
  intros es kids seen Hes. revert seen.
  induction Hes as [|e [l t] es ks (c & Hc & Hw) _ IH]; intros seen.
  { left. simpl. by rewrite app_nil_r. }
  cbn [range_edges]. rewrite Hc. cbn [deref].
  erewrite bind_ok; [|reflexivity].
  destruct Hw as [Hw|Hw]; [|right; by rewrite (bind_panic _ _ _ _ Hw)].
  rewrite (bind_ok _ _ _ _ _ Hw). cbv beta iota.
  rewrite kids_walk_cons, until_app, aborts_app. cbn [snd] in *.
  destruct (aborts fn (t_walk t)) eqn:Hab; [by left|].
  rewrite (until_all _ _ Hab), app_assoc. apply IH.
Qed.

Lemma recursiveWalk_fuel t : ∀ fuel h n fn,
  repr h n t →
  recursiveWalk fuel n fn h = Ok (until fn (t_walk t), aborts fn (t_walk t)) h
  ∨ recursiveWalk fuel n fn h = Panic OutOfFuel.
Proof.
  induction t as [lf pre kids IH] using tree_ind'. intros fuel h n fn Hrep.
  apply repr_inv in Hrep as (sl & es & Hn & Hv & Hes).
  destruct fuel as [|fuel]; [by right|]. cbn [recursiveWalk].
  rewrite (bind_ok _ _ _ _ _ (read_node_ok _ _ _ Hn)). cbn [leaf edges].
  rewrite t_walk_eq, until_app, aborts_app.
  assert (range_edges (λ c, recursiveWalk fuel c fn) es (leaf_entry lf) h
          = Ok (leaf_entry lf ++ until fn (kids_walk kids),
                aborts fn (kids_walk kids)) h
          ∨ range_edges (λ c, recursiveWalk fuel c fn) es (leaf_entry lf) h
            = Panic OutOfFuel) as Hrange.
  { apply range_edges_fuel. rewrite Forall_forall in IH.
    apply Forall2_same_length_lookup in Hes as [Hlen Hes].
    apply Forall2_same_length_lookup. split; [done|].
    intros i e [l1 t1] He Hk. destruct (Hes _ _ _ He Hk) as [_ (c & Hc & Hrc)].
    assert ((l1, t1) ∈ kids) as Hin by (by eapply list_elem_of_lookup_2).
    exists c. split; [done|]. by apply (IH _ Hin). }
  destruct lf as [l|]; cbn [leaf_entry aborts existsb until fst snd orb].
  - destruct (fn (key l) (val l)) eqn:Hfn; [by left|].
    rewrite (bind_ok _ _ _ _ _ (elems_ok _ _ _ Hv)). cbn [orb]. exact Hrange.
  - rewrite (bind_ok _ _ _ _ _ (elems_ok _ _ _ Hv)). exact Hrange.
Qed.

Lemma Walk_fuel t fuel h n fn :
  repr h n t →
  Walk fuel n fn h = Ok (until fn (t_walk t)) h
  ∨ Walk fuel n fn h = Panic OutOfFuel.
Proof.
  intros Hrep. unfold Walk.
  destruct (recursiveWalk_fuel t fuel h n fn Hrep) as [Hw|Hw].
  - left. by rewrite (bind_ok _ _ _ _ _ Hw).
  - right. by rewrite (bind_panic _ _ _ _ Hw).
Qed.

End Nodes.

(** ** Sessions never fail *)

Section Sessions.

Context {V : Type}.

Implicit Types (h g : heap V) (a n : addr) (t : tree V).
Implicit Types (s : session) (c : call V) (cs : list (call V)).

Lemma session_inv_ext h h' s : heap_ext h h' → session_inv h s → session_inv h' s.
Proof.
  intros Hext [Ht Hx]. split; (eapply Forall_impl; [eassumption|]);
    intros ? [t Ht']; exists t; by eapply tree_inv_ext.
Qed.

Lemma root_of_inv h s hd a :
  session_inv h s → root_of s hd = Some a → ∃ t, tree_inv h a t.
Proof.
  intros [Ht Hx] Hr. rewrite Forall_lookup in Ht. rewrite Forall_lookup in Hx.
  destruct hd as [i|j]; cbn [root_of] in Hr.
  - destruct (trees s !! i) as [T|] eqn:Hi; [|done]. injection Hr as <-. eauto.
  - destruct (txns s !! j) as [x|] eqn:Hj; [|done]. injection Hr as <-. eauto.
Qed.

(** A read leaves the session and the heap as they are. *)
Lemma reading_spec {A} h s (o : option addr) (m : nat → addr → M V A)
    (f : tree V → A) (bound : tree V → nat) :
  session_inv h s →
  (∀ a t fuel, tree_inv h a t → bound t ≤ fuel → m fuel a h = Ok (f t) h) →
  (∀ a t fuel, tree_inv h a t →
     m fuel a h = Ok (f t) h ∨ m fuel a h = Panic OutOfFuel) →
  (∀ a, o = Some a → ∃ t, tree_inv h a t) →
  ∃ n0,
    (∀ fuel, n0 ≤ fuel → reading s o (m fuel) h = Ok s h)
    ∧ (∀ fuel, reading s o (m fuel) h = Ok s h
               ∨ reading s o (m fuel) h = Panic OutOfFuel).
Proof.
  intros Hinv Hok Hfuel Ho. destruct o as [a|]; cbn [reading].
  - destruct (Ho a eq_refl) as [t Hr]. exists (bound t). split.
    + intros fuel Hle. by rewrite (bind_ok _ _ _ _ _ (Hok _ _ _ Hr Hle)).
    + intros fuel. destruct (Hfuel a t fuel Hr) as [Hm|Hm].
      * left. by rewrite (bind_ok _ _ _ _ _ Hm).
      * right. by rewrite (bind_panic _ _ _ _ Hm).
  - exists 0. split; [done|]. by left.
Qed.

Lemma step_spec c s h :
  session_inv h s →
  ∃ n0 s' h',
    heap_ext h h' ∧ session_inv h' s'
    ∧ (∀ fuel, n0 ≤ fuel → step fuel s c h = Ok s' h')
    ∧ (∀ fuel, step fuel s c h = Ok s' h' ∨ step fuel s c h = Panic OutOfFuel).
Proof.
  intros Hinv.
  assert (∀ (o : option addr) (m : nat → option addr → M V session),
            (∃ n0, (∀ fuel, n0 ≤ fuel → m fuel o h = Ok s h)
                   ∧ (∀ fuel, m fuel o h = Ok s h ∨ m fuel o h = Panic OutOfFuel)) →
            ∃ n0 s' h', heap_ext h h' ∧ session_inv h' s'
              ∧ (∀ fuel, n0 ≤ fuel → m fuel o h = Ok s' h')
              ∧ (∀ fuel, m fuel o h = Ok s' h' ∨ m fuel o h = Panic OutOfFuel))
    as Hread.
  { intros o m (n0 & H1 & H2). exists n0, s, h.
    split; [apply heap_ext_refl|]. by split. }
  assert (∀ s' h', heap_ext h h' → session_inv h' s' →
            ∀ m : M V session, m h = Ok s' h' →
            ∃ n0 s1 h1, heap_ext h h1 ∧ session_inv h1 s1
              ∧ (∀ fuel : nat, n0 ≤ fuel → m h = Ok s1 h1)
              ∧ (∀ fuel : nat, m h = Ok s1 h1 ∨ m h = Panic OutOfFuel))
    as Hdone.
  { intros s' h' Hext Hinv' m Hm. exists 0, s', h'.
    split; [done|]. split; [done|]. split; [done|]. by left. }
  pose proof Hinv as [Ht Hx].
  destruct c as [|i|[i|j] o|j|hd k|hd|hd|hd fn]; cbn [step].
  - (* New *)
    destruct (New_inv h) as (T & h' & Hnew & Hext & _ & Hinv').
    apply (Hdone (Session (trees s ++ [T]) (txns s)) h' Hext).
    + destruct (session_inv_ext _ _ _ Hext Hinv) as [Ht' Hx'].
      split; [|done]. cbn [trees]. apply Forall_app. split; [done|].
      apply Forall_singleton. eauto.
    + by rewrite (bind_ok _ _ _ _ _ Hnew).
  - (* Txn *)
    destruct (trees s !! i) as [T|] eqn:Hi.
    + eapply (Hdone _ h (heap_ext_refl h)); [|done].
      split; [done|]. cbn [txns]. apply Forall_app. split; [done|].
      apply Forall_singleton. rewrite Forall_lookup in Ht. by apply (Ht i).
    + by apply (Hdone s h (heap_ext_refl h)).
  - (* Tree.Insert, Tree.Delete *)
    destruct (trees s !! i) as [T|] eqn:Hi; [|by apply (Hdone s h (heap_ext_refl h))].
    rewrite Forall_lookup in Ht. destruct (Ht i T Hi) as [t HT].
    destruct (Tree_op_spec h T t o HT) as (T' & h' & Hop & Hext & Hinv' & _).
    apply (Hdone (Session (trees s ++ [T']) (txns s)) h' Hext).
    + destruct (session_inv_ext _ _ _ Hext Hinv) as [Ht' Hx'].
      split; [|done]. cbn [trees]. apply Forall_app. split; [done|].
      apply Forall_singleton. eauto.
    + by rewrite (bind_ok _ _ _ _ _ Hop).
  - (* Txn.Insert, Txn.Delete *)
    destruct (txns s !! j) as [x|] eqn:Hj; [|by apply (Hdone s h (heap_ext_refl h))].
    rewrite Forall_lookup in Hx. destruct (Hx j x Hj) as [t HT].
    destruct (Txn_op_spec h x t o HT) as (x' & h' & Hop & Hext & _ & Hinv' & _).
    apply (Hdone (Session (trees s) (<[j := x']> (txns s))) h' Hext).
    + destruct (session_inv_ext _ _ _ Hext Hinv) as [Ht' Hx'].
      split; [done|]. cbn [txns]. apply Forall_insert; eauto.
    + by rewrite (bind_ok _ _ _ _ _ Hop).
  - (* Commit *)
    destruct (txns s !! j) as [x|] eqn:Hj; [|by apply (Hdone s h (heap_ext_refl h))].
    eapply (Hdone _ h (heap_ext_refl h)); [|done].
    split; [|done]. cbn [trees]. apply Forall_app. split; [done|].
    apply Forall_singleton. rewrite Forall_lookup in Hx. by apply (Hx j).
  - (* Get *)
    apply (Hread (root_of s hd) (λ _ o, reading s o (λ a, Get a k))).
    apply (reading_spec h s (root_of s hd) (λ _ a, Get a k)
             (λ t, t_get t k) (λ _, 0) Hinv).
    + intros a t _ [Hr Hwf] _. eapply Get_refines; [done..|]. unfold depth_bound. lia.
    + intros a t _ [Hr Hwf]. left.
      eapply Get_refines; [done..|]. unfold depth_bound. lia.
    + intros a. by apply root_of_inv.
  - (* Minimum *)
    apply (Hread (root_of s hd) (λ fuel o, reading s o (Minimum fuel))).
    apply (reading_spec h s (root_of s hd) Minimum t_min height Hinv).
    + intros a t fuel [Hr _]. by apply Minimum_refines.
    + intros a t fuel [Hr _]. by apply Minimum_fuel.
    + intros a. by apply root_of_inv.
  - (* Maximum *)
    apply (Hread (root_of s hd) (λ fuel o, reading s o (Maximum fuel))).
    apply (reading_spec h s (root_of s hd) Maximum t_max height Hinv).
    + intros a t fuel [Hr _]. by apply Maximum_refines.
    + intros a t fuel [Hr _]. by apply Maximum_fuel.
    + intros a. by apply root_of_inv.
  - (* Walk *)
    apply (Hread (root_of s hd) (λ fuel o, reading s o (λ a, Walk fuel a fn))).
    apply (reading_spec h s (root_of s hd) (λ fuel a, Walk fuel a fn)
             (λ t, until fn (t_walk t)) height Hinv).
    + intros a t fuel [Hr _]. by apply Walk_refines.
    + intros a t fuel [Hr _]. by apply Walk_fuel.
    + intros a. by apply root_of_inv.
Qed.

(** With enough fuel for its walks a session runs to its end, and with
    less it can only run out of fuel. *)
Lemma run_spec cs : ∀ s h,
  session_inv h s →
  ∃ n0 s' h',
    (∀ fuel, n0 ≤ fuel → run fuel s cs h = Ok s' h')
    ∧ (∀ fuel, run fuel s cs h = Ok s' h' ∨ run fuel s cs h = Panic OutOfFuel).
Proof.
  induction cs as [|c cs IH]; intros s h Hinv.
  { exists 0, s, h. split; [done|]. by left. }
  destruct (step_spec c s h Hinv) as (n1 & s1 & h1 & _ & Hinv1 & Hstep & Hstep').
  destruct (IH s1 h1 Hinv1) as (n2 & s' & h' & Hrun & Hrun').
  exists (n1 `max` n2), s', h'. split.
  - intros fuel Hle. cbn [run].
    rewrite (bind_ok _ _ _ _ _ (Hstep fuel ltac:(lia))). apply Hrun. lia.
  - intros fuel. cbn [run]. destruct (Hstep' fuel) as [Hs|Hs].
    + rewrite (bind_ok _ _ _ _ _ Hs). apply Hrun'.
    + right. by rewrite (bind_panic _ _ _ _ Hs).
Qed.

End Sessions.

(** ** The ordered iterator *)

(** *** Comparisons of byte strings *)

Lemma lex_ltb_app_same (p a b : list byte) :
  lex_ltb (p ++ a) (p ++ b) = lex_ltb a b.
Proof.
  induction p as [|x p IH]; [done|]. simpl.
  by rewrite byte_ltb_irrefl, bool_decide_eq_true_2.
Qed.

Lemma lex_ltb_extension (s x : list byte) : lex_ltb (s ++ x) s = false.
Proof.
  rewrite <-(app_nil_r s) at 2. rewrite lex_ltb_app_same. by destruct x.
Qed.

Lemma lex_ltb_cons_lt (x y : byte) (a b : list byte) :
  byte_ltb x y = true → lex_ltb (x :: a) (y :: b) = true.
Proof. simpl. by intros ->. Qed.

Lemma lex_ltb_cons_gt (x y : byte) (a b : list byte) :
  byte_ltb y x = true → lex_ltb (x :: a) (y :: b) = false.
Proof.
  intros Hlt. simpl.
  assert (byte_ltb x y = false) as ->.
  { apply byte_ltb_ge. apply byte_ltb_lt in Hlt. lia. }
  rewrite bool_decide_eq_false_2; [done|]. intros ->.
  by rewrite byte_ltb_irrefl in Hlt.
Qed.

(** What [bytes.Compare] of a prefix with the slice of the key of the
    same length says about every key that extends the prefix. *)
Lemma Compare_slice (p : list byte) : ∀ s,
  match Compare p (take (length p) s) with
  | Eq => s = p ++ drop (length p) s
  | Lt => ∀ x, lex_ltb (p ++ x) s = true
  | Gt => ∀ x, lex_ltb (p ++ x) s = false
  end.
Proof.
  induction p as [|a p IH]; intros s; [done|].
  destruct s as [|b s]; [done|]. cbn [length take Compare].
  destruct (byte_ltb a b) eqn:Hab.
  { intros x. by apply lex_ltb_cons_lt. }
  destruct (byte_ltb b a) eqn:Hba.
  { intros x. by apply lex_ltb_cons_gt. }
  pose proof (byte_ltb_antisym _ _ Hab Hba) as ->.
  specialize (IH s). destruct (Compare p (take (length p) s)).
  - cbn [app drop]. by f_equal.
  - intros x. cbn [app lex_ltb]. by rewrite Hab, bool_decide_eq_true_2.
  - intros x. cbn [app lex_ltb]. by rewrite Hab, bool_decide_eq_true_2.
Qed.

(** *** The stack, read as what is left to emit *)

Section IteratorFacts.

Context {V : Type}.

Implicit Types (h : heap V) (n c : addr) (t : tree V).
Implicit Types (kids : list (byte * tree V)) (lf : option (leafNode V)).
Implicit Types (st : list (addr * nat)) (ts : list (tree V * nat)).

(** The entries that a frame still has to emit: the leaf if the node is
    at its first visit, then the subtrees from the next edge on. *)
Definition frame_walk (f : tree V * nat) : list (list byte * V) :=
  (if f.2 =? 0 then leaf_entry (t_leaf f.1) else [])
  ++ kids_walk (drop f.2 (t_kids f.1)).

Definition pending ts : list (list byte * V) := mjoin (map frame_walk ts).

(** The number of frames that [Next] pops until a subtree is used up. *)
Fixpoint pops t : nat :=
  match t with
  | Tr _ _ kids => S (foldr (λ lt acc, S (pops lt.2 + acc)) 0 kids)
  end.

Definition kids_pops kids : nat := foldr (λ lt acc, S (pops lt.2 + acc)) 0 kids.

Definition frame_pops (f : tree V * nat) : nat :=
  S (kids_pops (drop f.2 (t_kids f.1))).

Definition stack_pops ts : nat := sum_list (frame_pops <$> ts).

Definition frame_repr h (ni : addr * nat) (f : tree V * nat) : Prop :=
  ni.2 = f.2 ∧ repr h ni.1 f.1.

Definition stack_repr h st ts : Prop := Forall2 (frame_repr h) st ts.

Lemma frame_walk_whole t : frame_walk (t, 0) = t_walk t.
Proof. destruct t as [lf pre kids]. unfold frame_walk. simpl. by rewrite drop_0. Qed.

Lemma frame_pops_whole t : frame_pops (t, 0) = pops t.
Proof. destruct t as [lf pre kids]. unfold frame_pops. simpl. by rewrite drop_0. Qed.

Lemma pending_cons f ts : pending (f :: ts) = frame_walk f ++ pending ts.
Proof. done. Qed.

Lemma stack_pops_cons f ts : stack_pops (f :: ts) = frame_pops f + stack_pops ts.
Proof. done. Qed.

(** One pop: the frame is replaced by the child of its next edge and by
    itself at the following index, or dropped when no edge is left. *)
Lemma pop_spec h n i lf pre sl es kids st ts :
  nodes h !! n = Some (MkNode lf pre sl) → view h sl es →
  Forall2 (edge_repr h) es kids →
  stack_repr h st ts →
  ∃ st1 ts1,
    (if i <? len sl then
       do e <- index sl i;
       do c <- deref (node e);
       ret ((c, 0) :: (n, S i) :: st)
     else ret st) h = Ok st1 h
    ∧ stack_repr h st1 ts1
    ∧ pending ((Tr lf pre kids, i) :: ts)
      = (if i =? 0 then leaf_entry lf else []) ++ pending ts1
    ∧ stack_pops ((Tr lf pre kids, i) :: ts) = S (stack_pops ts1).
Proof.
  intros Hn Hv Hes Hst. pose proof (Forall2_length _ _ _ Hes) as Hlen.
  rewrite <-(view_length _ _ _ Hv).
  destruct (Nat.ltb_spec i (length es)) as [Hlt|Hge].
  - destruct (lookup_lt_is_Some_2 es i Hlt) as [e He].
    destruct (Forall2_lookup_l _ _ _ _ _ Hes He) as ([l tk] & Hk & _ & c & Hc & Hrc).
    cbn [snd] in Hrc.
    exists ((c, 0) :: (n, S i) :: st), ((tk, 0) :: (Tr lf pre kids, S i) :: ts).
    split; [|split; [|split]].
    + erewrite bind_ok; [|by eapply index_ok]. by rewrite Hc.
    + constructor; [done|]. constructor; [|done]. split; [done|].
      by eapply repr_intro.
    + rewrite !pending_cons, frame_walk_whole. unfold frame_walk.
      cbn [fst snd t_leaf t_kids Nat.eqb]. rewrite (drop_S _ _ _ Hk), kids_walk_cons.
      cbn [app]. by rewrite <-!app_assoc.
    + rewrite !stack_pops_cons, frame_pops_whole. unfold frame_pops.
      cbn [fst snd t_kids]. rewrite (drop_S _ _ _ Hk). unfold kids_pops.
      cbn [foldr snd]. lia.
  - exists st, ts. split; [done|]. split; [done|].
    rewrite pending_cons, stack_pops_cons. unfold frame_walk, frame_pops.
    cbn [fst snd t_leaf t_kids]. rewrite drop_ge by lia. by rewrite app_nil_r.
Qed.

Lemma Next_spec h r : ∀ fuel st ts,
  stack_repr h st ts → stack_pops ts < fuel →
  ∃ st' ts',
    Next fuel (MkIterator r st) h = Ok (MkIterator r st', head (pending ts)) h
    ∧ stack_repr h st' ts'
    ∧ pending ts' = tail (pending ts)
    ∧ (is_Some (head (pending ts)) → stack_pops ts' < stack_pops ts).
Proof.
  induction fuel as [|fuel IH]; intros st ts Hst Hfuel; [lia|].
  cbn [Next stack it_node]. destruct Hst as [|[n i] [t j] st ts [Hi Hr] Hst].
  { exists [], []. split; [done|]. split; [constructor|]. split; [done|].
    by intros [? ?]. }
  cbn [fst snd] in Hi, Hr. subst j. destruct t as [lf pre kids].
  pose proof Hr as (sl & es & Hn & Hv & Hes)%repr_inv.
  rewrite (bind_ok _ _ _ _ _ (read_node_ok _ _ _ Hn)). cbn [edges leaf].
  destruct (pop_spec h n i lf pre sl es kids st ts Hn Hv Hes Hst)
    as (st1 & ts1 & Hpop & Hst1 & Hpend & Hpops).
  rewrite (bind_ok _ _ _ _ _ Hpop). rewrite Hpend, Hpops in *.
  assert (∃ st' ts',
            Next fuel (MkIterator r st1) h
            = Ok (MkIterator r st', head (pending ts1)) h
            ∧ stack_repr h st' ts' ∧ pending ts' = tail (pending ts1)
            ∧ (is_Some (head (pending ts1)) → stack_pops ts' < S (stack_pops ts1)))
    as Hrest.
  { destruct (IH st1 ts1 Hst1) as (st' & ts' & HN & Hst' & Hp' & Hlt); [lia|].
    exists st', ts'. do 3 (split; [done|]). intros Hs. specialize (Hlt Hs). lia. }
  destruct lf as [l|]; [|by destruct i].
  destruct i as [|i]; [|done]. cbn [Nat.eqb leaf_entry app head tail].
  exists st1, ts1. do 3 (split; [done|]). intros _. lia.
Qed.

Lemma collect_spec h r : ∀ fuel st ts,
  stack_repr h st ts → S (stack_pops ts) < fuel →
  collect fuel (MkIterator r st) h = Ok (pending ts) h.
Proof.
  induction fuel as [|fuel IH]; intros st ts Hst Hfuel; [lia|].
  cbn [collect].
  destruct (Next_spec h r fuel st ts Hst) as (st' & ts' & HN & Hst' & Hp & Hlt); [lia|].
  rewrite (bind_ok _ _ _ _ _ HN). cbv beta iota.
  destruct (pending ts) as [|kv l] eqn:Hpend; [done|]. cbn [head tail] in *.
  rewrite (bind_ok _ _ _ _ _ (IH st' ts' Hst' ltac:(specialize (Hlt (mk_is_Some _ _ eq_refl)); lia))).
  by rewrite Hp.
Qed.

(** *** The descent of [SeekLowerBound] *)

Lemma getLowerBoundEdge_ok h n (nd : Node V) es (b : byte) :
  nodes h !! n = Some nd → view h (edges nd) es →
  getLowerBoundEdge n b h
  = Ok (match es !! search_label es b with
        | Some e => (Z.of_nat (search_label es b), node e)
        | None => ((-1)%Z, None)
        end) h.
Proof.
  intros Hn Hv. unfold getLowerBoundEdge.
  rewrite (bind_ok _ _ _ _ _ (read_node_ok _ _ _ Hn)).
  rewrite (bind_ok _ _ _ _ _ (elems_ok _ _ _ Hv)).
  pose proof (view_length _ _ _ Hv) as Hlen. rewrite <-Hlen.
  destruct (es !! search_label es b) as [e'|] eqn:He.
  - pose proof (lookup_lt_Some _ _ _ He) as Hlt. apply Nat.ltb_lt in Hlt.
    rewrite Hlt. by rewrite (bind_ok _ _ _ _ _ (index_ok _ _ _ _ _ Hv He)).
  - apply lookup_ge_None in He. apply Nat.ltb_ge in He. by rewrite He.
Qed.

Lemma filter_none {A} (P : A → Prop) `{∀ x, Decision (P x)} (l : list A) :
  Forall (λ x, ¬ P x) l → filter P l = [].
Proof.
  induction 1 as [|x l Hx _ IH]; [done|]. by rewrite filter_cons_False.
Qed.

Lemma filter_all {A} (P : A → Prop) `{∀ x, Decision (P x)} (l : list A) :
  Forall P l → filter P l = l.
Proof.
  induction 1 as [|x l Hx _ IH]; [done|]. rewrite filter_cons_True by done.
  by rewrite IH.
Qed.

(** The keys below a child start with the key prefix of the parent and
    the label of the child. *)
Lemma kid_keys (P : list byte) (l : byte) t :
  kid_ok P (l, t) → Forall (λ kv, ∃ x, kv.1 = P ++ l :: x) (t_walk t).
Proof.
  intros [Hhd Hwf]. cbn [fst snd] in *.
  destruct (walk_sorted_keys t false P Hwf) as [_ Hkeys].
  eapply Forall_impl; [exact Hkeys|]. intros kv [x Hx].
  destruct (t_prefix t) as [|b p]; [done|]. injection Hhd as ->.
  exists (p ++ x). by rewrite Hx.
Qed.

Lemma kids_keys (P : list byte) (Q : byte → Prop) kids :
  Forall (kid_ok P) kids → Forall Q kids.*1 →
  Forall (λ kv, ∃ l x, Q l ∧ kv.1 = P ++ l :: x) (kids_walk kids).
Proof.
  intros Hk Hl. apply Forall_forall. intros kv (l & t & Hin & Hkv)%elem_of_kids_walk.
  rewrite Forall_forall in Hk. rewrite Forall_forall in Hl.
  pose proof (kid_keys P l t (Hk _ Hin)) as Hkeys. rewrite Forall_forall in Hkeys.
  destruct (Hkeys _ Hkv) as [x Hx]. exists l, x. split; [|done].
  apply Hl. by apply (list_elem_of_fmap_2 fst _ (l, t)).
Qed.

Lemma keys_below (P : list byte) (c : byte) (s' : list byte)
    (l : list (list byte * V)) :
  Forall (λ kv, ∃ b x, byte_ltb b c = true ∧ kv.1 = P ++ b :: x) l →
  filter (λ kv, ¬ lex_lt kv.1 (P ++ c :: s')) l = [].
Proof.
  intros Hl. apply filter_none. eapply Forall_impl; [exact Hl|].
  intros kv (b & x & Hb & ->) Hn. apply Hn. unfold lex_lt.
  rewrite lex_ltb_app_same. by apply lex_ltb_cons_lt.
Qed.

Lemma keys_above (P : list byte) (c : byte) (s' : list byte)
    (l : list (list byte * V)) :
  Forall (λ kv, ∃ b x, byte_ltb c b = true ∧ kv.1 = P ++ b :: x) l →
  filter (λ kv, ¬ lex_lt kv.1 (P ++ c :: s')) l = l.
Proof.
  intros Hl. apply filter_all. eapply Forall_impl; [exact Hl|].
  intros kv (b & x & Hb & ->). unfold lex_lt.
  rewrite lex_ltb_app_same. by rewrite lex_ltb_cons_gt.
Qed.

Lemma kids_pops_lookup kids : ∀ i (l : byte) t,
  kids !! i = Some (l, t) →
  pops t + S (kids_pops (drop (S i) kids)) ≤ kids_pops kids.
Proof.
  induction kids as [|[l' t'] ks IH]; intros i l t Hi; [done|].
  destruct i as [|i]; simpl in Hi.
  - injection Hi as -> ->. cbn [drop]. rewrite drop_0. unfold kids_pops. simpl. lia.
  - specialize (IH i l t Hi). cbn [drop]. unfold kids_pops in *. simpl. lia.
Qed.

Lemma seek_spec t : ∀ fuel h n r path s st ts,
  repr h n t → wf r path t → length s < fuel → stack_repr h st ts →
  ∃ st' ts',
    seek fuel n s st h = Ok st' h
    ∧ stack_repr h st' ts'
    ∧ pending ts'
      = filter (λ kv, ¬ lex_lt kv.1 (path ++ t_prefix t ++ s)) (t_walk t)
        ++ pending ts
    ∧ stack_pops ts' ≤ pops t + stack_pops ts.
Proof.
  induction t as [lf pre kids IH] using tree_ind'.
  intros fuel h n r path s st ts Hrep Hwf Hfuel Hst.
  pose proof Hrep as (sl & es & Hn & Hv & Hes)%repr_inv.
  pose proof (walk_sorted_keys _ _ _ Hwf) as [_ Hkeys].
  apply wf_inv in Hwf as (_ & Hleaf & Hasc & _ & Hkids).
  destruct fuel as [|fuel]; [lia|]. cbn [seek t_prefix] in *.
  rewrite (app_assoc path pre). set (P := path ++ pre) in *.
  destruct s as [|c s'].
  { exists ((n, 0) :: st), ((Tr lf pre kids, 0) :: ts). split; [done|].
    split; [by constructor|]. split; [|by rewrite stack_pops_cons, frame_pops_whole].
    rewrite pending_cons, frame_walk_whole. f_equal. symmetry. apply filter_all.
    eapply Forall_impl; [exact Hkeys|]. intros kv [x Hx].
    rewrite Hx, app_nil_r, (app_assoc path pre). fold P.
    unfold lex_lt. by rewrite lex_ltb_extension. }
  rewrite (bind_ok _ _ _ _ _ (getLowerBoundEdge_ok _ _ _ _ c Hn Hv)).
  pose proof (edges_repr_labels _ _ _ Hes) as Hlab.
  pose proof (Forall2_length _ _ _ Hes) as Hlen.
  set (idx := search_label es c).
  assert (idx = search_labels (kids.*1) c) as Hidx
    by (unfold idx; by rewrite search_label_labels, Hlab).
  destruct (search_labels_split (kids.*1) c Hasc) as (Hle & Hlo & Hhi).
  rewrite <-Hidx in Hle, Hlo, Hhi.
  rewrite <-fmap_take in Hlo. rewrite <-fmap_drop in Hhi.
  assert (t_walk (Tr lf pre kids)
          = leaf_entry lf ++ kids_walk (take idx kids) ++ kids_walk (drop idx kids))
    as -> by (by rewrite t_walk_eq, <-kids_walk_app, take_drop).
  rewrite !filter_app.
  assert (filter (λ kv, ¬ lex_lt kv.1 (P ++ c :: s')) (leaf_entry lf) = []) as ->.
  { apply filter_none. destruct lf as [l|]; [|constructor].
    cbn [leaf_entry]. apply Forall_singleton. cbn [fst]. intros Hn'. apply Hn'.
    rewrite (Hleaf l eq_refl). fold P. unfold lex_lt.
    rewrite <-(app_nil_r P) at 1. by rewrite lex_ltb_app_same. }
  rewrite (keys_below P c s' (kids_walk (take idx kids))).
  2:{ apply kids_keys; [by apply Forall_take|done]. }
  cbn [app].
  destruct (es !! idx) as [e|] eqn:He.
  2:{ apply lookup_ge_None in He. rewrite drop_ge by lia.
      exists st, ts. split; [done|]. split; [done|]. split; [done|]. lia. }
  destruct (Forall2_lookup_l _ _ _ _ _ Hes He) as ([l tk] & Hk & Hl & child & Hc & Hrc).
  cbn [fst snd] in Hl, Hrc. rewrite Hc. rewrite Nat2Z.id.
  rewrite (bind_ok _ _ _ _ _ (read_node_ok _ _ _ Hn)). cbn [edges].
  rewrite (bind_ok _ _ _ _ _ (index_ok _ _ _ _ _ Hv He)). rewrite Hl.
  pose proof Hrc as Hrc'. destruct tk as [lf1 p1 kids1].
  apply repr_inv in Hrc' as (sl1 & ces & Hcn & Hcv & Hces).
  rewrite (bind_ok _ _ _ _ _ (read_node_ok _ _ _ Hcn)). cbn [prefix].
  rewrite (drop_S _ _ _ Hk) in *. rewrite kids_walk_cons, filter_app.
  apply Forall_cons in Hhi as [Hlc Hhi]. cbn [fst] in Hlc.
  assert ((l, Tr lf1 p1 kids1) ∈ kids) as Hin by (by eapply list_elem_of_lookup_2).
  rewrite Forall_forall in IH, Hkids. pose proof (Hkids _ Hin) as Hok.
  specialize (IH _ Hin). cbn [fst snd] in IH.
  (* the later siblings are above the key *)
  rewrite (keys_above P c s' (kids_walk (drop (S idx) kids))).
  2:{ apply kids_keys; [apply Forall_drop; by apply Forall_forall|].
      apply Forall_forall. intros b Hb. apply list_elem_of_lookup_1 in Hb as [j Hj].
      rewrite fmap_drop, lookup_drop in Hj.
      assert (byte_ltb l b = true) as Hlb.
      { eapply (ascending_lookup_lt (kids.*1) idx (S idx + j)); [done|lia| |done].
        by rewrite list_lookup_fmap, Hk. }
      apply byte_ltb_lt in Hlb. apply byte_ltb_ge in Hlc. apply byte_ltb_lt. lia. }
  assert (stack_repr h ((n, S idx) :: st) ((Tr lf pre kids, S idx) :: ts)) as Hst1
    by (by constructor).
  assert (pending ((Tr lf pre kids, S idx) :: ts)
          = kids_walk (drop (S idx) kids) ++ pending ts) as Hp1.
  { rewrite pending_cons. unfold frame_walk. cbn [fst snd t_kids Nat.eqb].
    done. }
  assert (∀ keep : list (list byte * V),
            keep ++ kids_walk (drop (S idx) kids) ++ pending ts
            = (keep ++ kids_walk (drop (S idx) kids)) ++ pending ts) as Hassoc
    by (intros; by rewrite app_assoc).
  rewrite <-Hassoc.
  pose proof (kids_pops_lookup kids idx l _ Hk) as Hpops.
  assert (stack_pops ((Tr lf pre kids, S idx) :: ts)
          = S (kids_pops (drop (S idx) kids)) + stack_pops ts) as Hs1 by done.
  assert (pops (Tr lf pre kids) = S (kids_pops kids)) as Hpt by done.
  destruct (byte_ltb c l) eqn:Hcl.
  { (* a greater label: the whole subtree *)
    exists ((child, 0) :: (n, S idx) :: st),
           ((Tr lf1 p1 kids1, 0) :: (Tr lf pre kids, S idx) :: ts).
    split; [done|]. split; [by constructor|].
    split; [|rewrite stack_pops_cons, frame_pops_whole, Hs1; lia].
    rewrite pending_cons, frame_walk_whole, Hp1. f_equal. symmetry.
    apply keys_above. eapply Forall_impl; [exact (kid_keys P l _ Hok)|].
    intros kv [x Hx]. by exists l, x. }
  pose proof (byte_ltb_antisym _ _ Hlc Hcl) as ->.
  pose proof (Compare_slice p1 (c :: s')) as Hcmp.
  destruct Hok as [Hhd Hwf1]. cbn [fst snd t_prefix] in Hhd, Hwf1.
  pose proof (walk_sorted_keys _ _ _ Hwf1) as [_ Hkeys1]. cbn [t_prefix] in Hkeys1.
  destruct (Compare p1 (take (length p1) (c :: s'))).
  - (* the prefix is consumed *)
    destruct (IH fuel h child false P (drop (length p1) (c :: s'))
                ((n, S idx) :: st) ((Tr lf pre kids, S idx) :: ts) Hrc Hwf1)
      as (st' & ts' & Hseek & Hst' & Hp' & Hle'); [|done|].
    { destruct p1 as [|b p1]; [done|]. rewrite Hcmp in Hfuel.
      rewrite length_app in Hfuel. simpl in *. lia. }
    exists st', ts'. split; [done|]. split; [done|].
    split; [|rewrite Hs1 in Hle'; lia].
    rewrite Hp', Hp1. cbn [t_prefix]. by rewrite <-Hcmp.
  - (* the subtree is below the key *)
    exists ((n, S idx) :: st), ((Tr lf pre kids, S idx) :: ts).
    split; [done|]. split; [done|]. split; [|rewrite Hs1; lia]. rewrite Hp1.
    rewrite filter_none; [done|]. eapply Forall_impl; [exact Hkeys1|].
    intros kv [x Hx] Hn'. apply Hn'. unfold lex_lt.
    by rewrite Hx, lex_ltb_app_same, Hcmp.
  - (* the subtree is above the key *)
    exists ((child, 0) :: (n, S idx) :: st),
           ((Tr lf1 p1 kids1, 0) :: (Tr lf pre kids, S idx) :: ts).
    split; [done|]. split; [by constructor|].
    split; [|rewrite stack_pops_cons, frame_pops_whole, Hs1; lia].
    rewrite pending_cons, frame_walk_whole, Hp1. f_equal. symmetry.
    apply filter_all. eapply Forall_impl; [exact Hkeys1|].
    intros kv [x Hx]. unfold lex_lt.
    by rewrite Hx, lex_ltb_app_same, Hcmp.
Qed.

End IteratorFacts.

(** * The other walks of [node.go] *)

Section MoreWalks.

Context {V : Type}.

Implicit Types (h : heap V) (n c : addr) (t : tree V).
Implicit Types (kids : list (byte * tree V)) (lf : option (leafNode V)).
Implicit Types (fn : @WalkFn V).

(** [reverseRecursiveWalk] does a reverse pre-order walk of a node: the
    leaf first, then the children from the last edge to the first. *)
Fixpoint reverseRecursiveWalk (fuel : nat) (n : addr) fn
  : M V (list (list byte * V) * bool) :=
  match fuel with
  | 0 => panic OutOfFuel
  | S fuel =>
      do nd <- read_node n;
      (* Visit the leaf values if any *)
      let seen := match leaf nd with
                  | Some lf => [(key lf, val lf)]
                  | None => []
                  end in
      if match leaf nd with
         | Some lf => fn (key lf) (val lf)
         | None => false
         end
      then ret (seen, true)
      else
        (* Recurse on the children in reverse order *)
        do es <- elems (edges nd);
        range_edges (λ c, reverseRecursiveWalk fuel c fn) (rev es) seen
  end.

(** [WalkBackwards] is used to walk the tree in reverse order. *)
Definition WalkBackwards (fuel : nat) (n : addr) fn : M V (list (list byte * V)) :=
  do '(out, _) <- reverseRecursiveWalk fuel n fn; ret out.

(** The loop of [WalkPrefix]; [wfuel] bounds the depth of the walk that
    it ends with. *)
Fixpoint WalkPrefix_loop (fuel wfuel : nat) (curr : addr) (search : list byte) fn
  : M V (list (list byte * V)) :=
  match fuel with
  | 0 => panic OutOfFuel
  | S fuel =>
      match search with
      | [] =>
          (* Check for key exhaustion *)
          do '(out, _) <- recursiveWalk wfuel curr fn; ret out
      | c :: _ =>
          (* Look for an edge *)
          do '(_, child) <- getEdge curr c;
          match child with
          | None => ret []
          | Some curr =>
              do cd <- read_node curr;
              (* Consume the search prefix *)
              if HasPrefix search (prefix cd) then
                WalkPrefix_loop fuel wfuel curr (drop (length (prefix cd)) search) fn
              else if HasPrefix (prefix cd) search then
                (* Child may be under our search prefix *)
                do '(out, _) <- recursiveWalk wfuel curr fn; ret out
              else ret []
          end
      end
  end.

(** [WalkPrefix] is used to walk the tree under a prefix. *)
Definition WalkPrefix (wfuel : nat) (n : addr) (pre : list byte) fn
  : M V (list (list byte * V)) :=
  WalkPrefix_loop (depth_bound pre) wfuel n pre fn.

(** The loop of [WalkPath]; [seen] collects what [fn] has been handed. *)
Fixpoint WalkPath_loop (fuel : nat) (curr : addr) (search : list byte) fn
    (seen : list (list byte * V)) : M V (list (list byte * V)) :=
  match fuel with
  | 0 => panic OutOfFuel
  | S fuel =>
      do nd <- read_node curr;
      (* Visit the leaf values if any *)
      let seen := match leaf nd with
                  | Some lf => seen ++ [(key lf, val lf)]
                  | None => seen
                  end in
      if match leaf nd with
         | Some lf => fn (key lf) (val lf)
         | None => false
         end
      then ret seen
      else
        match search with
        | [] => ret seen   (* Check for key exhaustion *)
        | c :: _ =>
            (* Look for an edge *)
            do '(_, child) <- getEdge curr c;
            match child with
            | None => ret seen
            | Some curr =>
                do cd <- read_node curr;
                (* Consume the search prefix *)
                if HasPrefix search (prefix cd) then
                  WalkPath_loop fuel curr (drop (length (prefix cd)) search) fn seen
                else ret seen
            end
        end
  end.

(** [WalkPath] is used to walk the tree, but only visiting nodes from
    the root down to a given leaf. *)
Definition WalkPath (n : addr) (path : list byte) fn
  : M V (list (list byte * V)) :=
  WalkPath_loop (depth_bound path) n path fn [].

(** The reverse pre-order listing. *)
Fixpoint t_walk_rev t : list (list byte * V) :=
  match t with
  | Tr lf pre kids =>
      match lf with
      | Some l => [(key l, val l)]
      | None => []
      end ++ mjoin (rev (map (λ lt, t_walk_rev lt.2) kids))
  end.

(** *** [WalkBackwards] *)

Lemma range_edges_outs (walk : addr → M V (list (list byte * V) * bool)) fn h :
  ∀ es (outs : list (list (list byte * V))) seen,
  Forall2 (λ e out, ∃ c, node e = Some c
             ∧ walk c h = Ok (until fn out, aborts fn out) h) es outs →
  range_edges walk es seen h
  = Ok (seen ++ until fn (mjoin outs), aborts fn (mjoin outs)) h.
Proof.
  intros es outs seen Hes. revert seen.
  induction Hes as [|e out es outs (c & Hc & Hw) _ IH]; intros seen.
  { simpl. by rewrite app_nil_r. }
  cbn [range_edges]. rewrite Hc. cbn [deref].
  erewrite bind_ok; [|reflexivity]. rewrite (bind_ok _ _ _ _ _ Hw). cbv beta iota.
  cbn [mjoin list_join]. rewrite until_app, aborts_app.
  destruct (aborts fn out) eqn:Hab; [done|].
  rewrite IH, (until_all _ _ Hab). by rewrite <-app_assoc.
Qed.

Lemma Forall2_rev {A B} (P : A → B → Prop) l k :
  Forall2 P l k → Forall2 P (rev l) (rev k).
Proof.
  induction 1 as [|x y l k Hxy _ IH]; [constructor|]. simpl.
  apply Forall2_app; [done|]. by constructor.
Qed.

Lemma reverseRecursiveWalk_refines t : ∀ fuel h n fn,
  repr h n t → height t ≤ fuel →
  reverseRecursiveWalk fuel n fn h
  = Ok (until fn (t_walk_rev t), aborts fn (t_walk_rev t)) h.
Proof.
  induction t as [lf pre kids IH] using tree_ind'.
  intros fuel h n fn Hrep Hfuel.
  apply repr_inv in Hrep as (sl & es & Hn & Hv & Hes).
  destruct fuel as [|fuel]; [simpl in Hfuel; lia|].
  cbn [reverseRecursiveWalk t_walk_rev].
  rewrite (bind_ok _ _ _ _ _ (read_node_ok _ _ _ Hn)). cbn [leaf edges].
  fold (leaf_entry lf). rewrite until_app, aborts_app.
  set (outs := rev (map (λ lt : byte * tree V, t_walk_rev lt.2) kids)).
  assert (range_edges (λ c, reverseRecursiveWalk fuel c fn) (rev es) (leaf_entry lf) h
          = Ok (leaf_entry lf ++ until fn (mjoin outs), aborts fn (mjoin outs)) h)
    as Hrange.
  { apply range_edges_outs. unfold outs. apply Forall2_rev.
    rewrite Forall_forall in IH.
    apply Forall2_same_length_lookup in Hes as [Hlen Hes].
    apply Forall2_same_length_lookup. split; [by rewrite length_map|].
    intros i e out He Hout. rewrite list_lookup_fmap in Hout.
    destruct (kids !! i) as [[l1 t1]|] eqn:Hk; [|done]. injection Hout as <-.
    destruct (Hes _ _ _ He Hk) as [_ (c & Hc & Hrc)].
    assert ((l1, t1) ∈ kids) as Hin by (by eapply list_elem_of_lookup_2).
    exists c. split; [done|]. apply (IH _ Hin); [done|].
    pose proof (height_kid _ _ _ Hin). cbn [height] in Hfuel. cbn [snd]. lia. }
  destruct lf as [l|]; cbn [leaf_entry aborts existsb until fst snd orb].
  - destruct (fn (key l) (val l)) eqn:Hfn; [done|].
    rewrite (bind_ok _ _ _ _ _ (elems_ok _ _ _ Hv)). cbn [orb]. exact Hrange.
  - rewrite (bind_ok _ _ _ _ _ (elems_ok _ _ _ Hv)). exact Hrange.
Qed.

Lemma WalkBackwards_refines t fuel h n fn :
  repr h n t → height t ≤ fuel →
  WalkBackwards fuel n fn h = Ok (until fn (t_walk_rev t)) h.
Proof.
  intros Hrep Hfuel. unfold WalkBackwards.
  by rewrite (bind_ok _ _ _ _ _ (reverseRecursiveWalk_refines _ _ _ _ fn Hrep Hfuel)).
Qed.

Lemma join_rev_perm {A} (ls : list (list A)) : mjoin (rev ls) ≡ₚ mjoin ls.
Proof.
  induction ls as [|l ls IH]; [done|]. simpl.
  rewrite join_app. simpl. rewrite app_nil_r, IH. apply Permutation_app_comm.
Qed.

(** The reverse walk visits what the forward walk visits. *)
Lemma t_walk_rev_perm t : t_walk_rev t ≡ₚ t_walk t.
Proof.
  induction t as [lf pre kids IH] using tree_ind'. cbn [t_walk_rev t_walk].
  apply Permutation_app_head. rewrite join_rev_perm.
  induction IH as [|[l t] ks Ht _ IHks]; [done|]. simpl. by rewrite Ht, IHks.
Qed.

Lemma join_rev_rev {A} (ls : list (list A)) :
  rev (mjoin ls) = mjoin (rev (map (@rev A) ls)).
Proof.
  induction ls as [|l ls IH]; [done|]. simpl.
  rewrite rev_app_distr, IH, join_app. simpl. by rewrite app_nil_r.
Qed.

(** Where no node carries both a leaf and edges, the reverse walk is the
    forward walk read backwards. *)
Fixpoint leaves_only t : Prop :=
  match t with
  | Tr lf pre kids =>
      (is_Some lf → kids = [])
      ∧ foldr (λ lt acc, leaves_only lt.2 ∧ acc) True kids
  end.

Lemma t_walk_rev_leaves_only t : leaves_only t → t_walk_rev t = rev (t_walk t).
Proof.
  induction t as [lf pre kids IH] using tree_ind'. cbn [leaves_only].
  intros [Hlf Hkids]. cbn [t_walk_rev t_walk].
  destruct lf as [l|].
  { rewrite (Hlf ltac:(by eexists)). done. }
  cbn [app]. rewrite join_rev_rev. f_equal. f_equal. rewrite map_map.
  clear Hlf. induction IH as [|[l t] ks Ht _ IHks]; [done|].
  cbn [foldr snd] in Hkids. destruct Hkids as [Hk Hks]. cbn [map snd] in *.
  f_equal; [by apply Ht|by apply IHks].
Qed.

(** The order of the reverse walk: a key comes before the keys that it
    is a proper prefix of, and else the greater key comes first. *)
Definition rev_before (a b : list byte) : Prop :=
  (HasPrefix b a = true ∧ a ≠ b)
  ∨ (HasPrefix b a = false ∧ HasPrefix a b = false ∧ lex_lt b a).

Lemma HasPrefix_app_same (p a b : list byte) :
  HasPrefix (p ++ a) (p ++ b) = HasPrefix a b.
Proof.
  induction p as [|x p IH]; [done|]. simpl. by rewrite bool_decide_eq_true_2.
Qed.

Lemma HasPrefix_cons_ne (x y : byte) (a b : list byte) :
  x ≠ y → HasPrefix (x :: a) (y :: b) = false.
Proof. intros Hne. simpl. by rewrite bool_decide_eq_false_2. Qed.

Lemma t_walk_rev_keys t r path :
  wf r path t →
  Forall (λ kv, ∃ x, kv.1 = path ++ t_prefix t ++ x) (t_walk_rev t).
Proof.
  intros Hwf. destruct (walk_sorted_keys t r path Hwf) as [_ Hk].
  by rewrite t_walk_rev_perm.
Qed.

Lemma walk_rev_sorted t : ∀ r path,
  wf r path t → StronglySorted rev_before (t_walk_rev t).*1.
Proof.
  induction t as [lf pre kids IH] using tree_ind'. intros r path Hwf.
  apply wf_inv in Hwf as (_ & Hl & Hasc & _ & Hkids).
  cbn [t_walk_rev]. fold (leaf_entry lf). set (P := path ++ pre) in *.
  assert (StronglySorted rev_before
            (mjoin (rev (map (λ lt : byte * tree V, t_walk_rev lt.2) kids))).*1
          ∧ Forall (λ kv, ∃ b x, b ∈ kids.*1 ∧ kv.1 = P ++ b :: x)
              (mjoin (rev (map (λ lt : byte * tree V, t_walk_rev lt.2) kids))))
    as [Hs Hk].
  { clear Hl. induction kids as [|[l t] ks IHks]; [split; constructor|].
    apply Forall_cons in IH as [IHt IH]. apply Forall_cons in Hkids as [Hok Hkids].
    csimpl in Hasc. apply ascending_cons in Hasc as [Hlt Hasc].
    destruct (IHks IH Hasc Hkids) as [Hs Hk]. clear IHks.
    destruct Hok as [Hhd Hwf1]. cbn [fst snd] in *.
    pose proof (t_walk_rev_keys _ _ _ Hwf1) as Hkt.
    assert (Forall (λ kv, ∃ x, kv.1 = P ++ l :: x) (t_walk_rev t)) as Hkt'.
    { eapply Forall_impl; [exact Hkt|]. intros kv [x Hx].
      destruct (t_prefix t) as [|b p]; [done|]. injection Hhd as ->.
      exists (p ++ x). by rewrite Hx. }
    cbn [map rev]. rewrite join_app. cbn [mjoin list_join]. rewrite app_nil_r.
    split.
    - rewrite fmap_app. apply StronglySorted_app_2; [|done|by eapply IHt].
      intros k1 k2 (kv1 & -> & Hin1)%list_elem_of_fmap (kv2 & -> & Hin2)%list_elem_of_fmap.
      rewrite Forall_forall in Hk. rewrite Forall_forall in Hkt'.
      rewrite Forall_forall in Hlt.
      destruct (Hk _ Hin1) as (b & x1 & Hb & ->). destruct (Hkt' _ Hin2) as (x2 & ->).
      specialize (Hlt _ Hb). right. rewrite !HasPrefix_app_same.
      pose proof (byte_ltb_neq _ _ Hlt) as Hne.
      split; [by apply HasPrefix_cons_ne|]. split; [by apply HasPrefix_cons_ne|].
      unfold lex_lt. rewrite lex_ltb_app_same. by apply lex_ltb_cons_lt.
    - apply Forall_app. split.
      + eapply Forall_impl; [exact Hk|]. intros kv (b & x & Hb & ->).
        exists b, x. split; [|done]. csimpl. by right.
      + eapply Forall_impl; [exact Hkt'|]. intros kv [x ->].
        exists l, x. split; [|done]. csimpl. by left. }
  destruct lf as [l|]; [|done]. cbn [leaf_entry]. csimpl.
  constructor; [done|]. rewrite Forall_fmap. eapply Forall_impl; [exact Hk|].
  intros kv (b & x & _ & Hkv). cbn [compose]. left. rewrite Hkv, (Hl l eq_refl). fold P.
  split; [apply HasPrefix_app|]. intros Heq.
  apply (f_equal length) in Heq. rewrite length_app in Heq. simpl in Heq. lia.
Qed.

(** *** [WalkPrefix] and [WalkPath] *)

(** Only the subtree under the label [c] can hold an entry that [Q]
    keeps, when [Q] keeps nothing under the other labels. *)
Lemma kids_walk_filter_one (Q : list byte * V → Prop) `{∀ kv, Decision (Q kv)}
    kids (c : byte) t1 :
  ascending (kids.*1) → (c, t1) ∈ kids →
  (∀ l t', (l, t') ∈ kids → l ≠ c → Forall (λ kv, ¬ Q kv) (t_walk t')) →
  filter Q (kids_walk kids) = filter Q (t_walk t1).
Proof.
  induction kids as [|[l t] ks IH]; intros Hasc Hin Hno.
  { by apply elem_of_nil in Hin. }
  rewrite kids_walk_cons, filter_app. csimpl in Hasc.
  pose proof (ascending_not_elem _ _ Hasc) as Hl.
  apply ascending_cons in Hasc as [Hlt Hasc].
  destruct (decide (l = c)) as [->|Hne].
  - assert (t = t1) as ->.
    { apply elem_of_cons in Hin as [[= ->]|Hin]; [done|].
      exfalso. apply Hl. by apply (list_elem_of_fmap_2 fst _ (c, t1)). }
    rewrite (filter_none Q (kids_walk ks)); [by rewrite app_nil_r|].
    apply Forall_forall. intros kv (l' & t' & Hin' & Hkv)%elem_of_kids_walk.
    assert (l' ≠ c) as Hne'.
    { intros ->. apply Hl. by apply (list_elem_of_fmap_2 fst _ (c, t')). }
    pose proof (Hno l' t' ltac:(by right) Hne') as Hall.
    rewrite Forall_forall in Hall. by apply Hall.
  - rewrite (filter_none Q (t_walk t)) by (apply (Hno l t); [by left|done]).
    apply elem_of_cons in Hin as [[= ? ?]|Hin]; [done|]. cbn [app].
    apply IH; [done..|]. intros l' t' Hin'. apply Hno. by right.
Qed.

Lemma kids_walk_filter_none (Q : list byte * V → Prop) `{∀ kv, Decision (Q kv)}
    kids :
  (∀ l t', (l, t') ∈ kids → Forall (λ kv, ¬ Q kv) (t_walk t')) →
  filter Q (kids_walk kids) = [].
Proof.
  intros Hno. apply filter_none, Forall_forall.
  intros kv (l & t & Hin & Hkv)%elem_of_kids_walk.
  pose proof (Hno l t Hin) as Hall. rewrite Forall_forall in Hall. by apply Hall.
Qed.

Lemma HasPrefix_diverge (s p x : list byte) :
  HasPrefix s p = false → HasPrefix p s = false → HasPrefix (p ++ x) s = false.
Proof.
  revert p. induction s as [|a s IH]; intros [|b p]; simpl; try done.
  case_bool_decide as Hab.
  - subst. rewrite bool_decide_eq_true_2 by done. simpl. apply IH.
  - intros _ _. rewrite bool_decide_eq_false_2; [done|]. by intros ->.
Qed.

Lemma HasPrefix_shorten (s p x : list byte) :
  HasPrefix s (p ++ x) = true → HasPrefix s p = true.
Proof.
  rewrite !HasPrefix_spec. intros [r ->]. exists (x ++ r). by rewrite <-app_assoc.
Qed.

Lemma WalkPrefix_loop_spec t : ∀ fuel wfuel h n r path s fn,
  repr h n t → wf r path t → length s < fuel → height t ≤ wfuel →
  WalkPrefix_loop fuel wfuel n s fn h
  = Ok (until fn (filter (λ kv, HasPrefix kv.1 (path ++ t_prefix t ++ s) = true)
                         (t_walk t))) h.
Proof.
  induction t as [lf pre kids IH] using tree_ind'.
  intros fuel wfuel h n r path s fn Hrep Hwf Hfuel Hwfuel.
  pose proof Hrep as (sl & es & Hn & Hv & Hes)%repr_inv.
  pose proof (walk_sorted_keys _ _ _ Hwf) as [_ Hkeys].
  apply wf_inv in Hwf as (_ & Hleaf & Hasc & _ & Hkids).
  destruct fuel as [|fuel]; [lia|]. cbn [WalkPrefix_loop t_prefix] in *.
  rewrite (app_assoc path pre). set (P := path ++ pre) in *.
  destruct s as [|c s'].
  { rewrite (bind_ok _ _ _ _ _ (recursiveWalk_refines _ _ _ _ fn Hrep Hwfuel)).
    cbv beta iota. rewrite filter_all; [done|].
    eapply Forall_impl; [exact Hkeys|]. intros kv [x ->].
    rewrite app_nil_r, (app_assoc path pre). apply HasPrefix_app. }
  rewrite (bind_ok _ _ _ _ _ (getEdge_ok _ _ _ _ c Hn Hv)).
  rewrite t_walk_eq, filter_app.
  assert (filter (λ kv : list byte * V, HasPrefix kv.1 (P ++ c :: s') = true)
                 (leaf_entry lf) = []) as ->.
  { apply filter_none. destruct lf as [l|]; [|constructor].
    cbn [leaf_entry]. apply Forall_singleton. cbn [fst].
    rewrite (Hleaf l eq_refl). fold P. rewrite <-(app_nil_r P) at 1.
    by rewrite HasPrefix_app_same. }
  cbn [app].
  assert (∀ l t', (l, t') ∈ kids → l ≠ c →
            Forall (λ kv, ¬ HasPrefix kv.1 (P ++ c :: s') = true) (t_walk t')) as Hother.
  { intros l t' Hin Hne. rewrite Forall_forall in Hkids.
    eapply Forall_impl; [exact (kid_keys P l t' (Hkids _ Hin))|].
    intros kv [x ->]. by rewrite HasPrefix_app_same, HasPrefix_cons_ne. }
  destruct (kids_search h es kids c Hes Hasc)
    as [(Hhas & Hfind & _)|(e & child & t1 & Hhas & Hfind & He & Hel & Hec & Hk & Hrc & _)];
    rewrite Hfind; cbv beta iota.
  { rewrite kids_walk_filter_none; [done|]. intros l t' Hin. apply (Hother l t' Hin).
    intros ->. apply has_kid_false_labels in Hhas. apply Hhas.
    by apply (list_elem_of_fmap_2 fst _ (c, t')). }
  assert ((c, t1) ∈ kids) as Hin by (by eapply list_elem_of_lookup_2).
  rewrite (kids_walk_filter_one _ kids c t1 Hasc Hin Hother).
  rewrite Forall_forall in IH, Hkids.
  destruct (Hkids _ Hin) as [Hhd Hwf1]. specialize (IH _ Hin). cbn [fst snd] in *.
  pose proof (walk_sorted_keys _ _ _ Hwf1) as [_ Hkeys1].
  assert (height t1 ≤ wfuel) as Hh.
  { pose proof (height_kid _ _ _ Hin). cbn [height] in Hwfuel. cbn [snd] in *. lia. }
  pose proof Hrc as Hrc'. destruct t1 as [lf1 p1 kids1].
  apply repr_inv in Hrc' as (sl1 & ces & Hcn & Hcv & Hces).
  rewrite (bind_ok _ _ _ _ _ (read_node_ok _ _ _ Hcn)). cbn [prefix t_prefix] in *.
  destruct (HasPrefix (c :: s') p1) eqn:Hpre.
  - apply HasPrefix_spec in Hpre as [s2 Hs]. rewrite Hs, drop_app_length.
    assert (p1 ≠ []) as Hp1 by (by destruct p1).
    pose proof (suffix_shorter _ _ _ _ Hs Hp1) as Hshort.
    rewrite (IH fuel wfuel h child false P s2 fn Hrc Hwf1); [done| |done].
    simpl in *. lia.
  - destruct (HasPrefix p1 (c :: s')) eqn:Hpre'.
    + rewrite (bind_ok _ _ _ _ _ (recursiveWalk_refines _ _ _ _ fn Hrc Hh)).
      cbv beta iota. rewrite filter_all; [done|].
      eapply Forall_impl; [exact Hkeys1|]. intros kv [x ->].
      apply HasPrefix_spec in Hpre' as [y ->].
      rewrite HasPrefix_app_same, <-app_assoc. apply HasPrefix_app.
    + rewrite filter_none; [done|].
      eapply Forall_impl; [exact Hkeys1|]. intros kv [x ->].
      by rewrite HasPrefix_app_same, HasPrefix_diverge.
Qed.

Lemma WalkPath_loop_spec t : ∀ fuel h n r path s fn seen,
  repr h n t → wf r path t → length s < fuel →
  WalkPath_loop fuel n s fn seen h
  = Ok (seen ++ until fn (filter (λ kv, HasPrefix (path ++ t_prefix t ++ s) kv.1 = true)
                                 (t_walk t))) h.
Proof.
  induction t as [lf pre kids IH] using tree_ind'.
  intros fuel h n r path s fn seen Hrep Hwf Hfuel.
  pose proof Hrep as (sl & es & Hn & Hv & Hes)%repr_inv.
  apply wf_inv in Hwf as (_ & Hleaf & Hasc & _ & Hkids).
  destruct fuel as [|fuel]; [lia|]. cbn [WalkPath_loop t_prefix] in *.
  rewrite (app_assoc path pre). set (P := path ++ pre) in *.
  rewrite (bind_ok _ _ _ _ _ (read_node_ok _ _ _ Hn)). cbn [leaf].
  rewrite t_walk_eq, filter_app.
  assert (filter (λ kv : list byte * V, HasPrefix (P ++ s) kv.1 = true)
                 (leaf_entry lf) = leaf_entry lf) as ->.
  { apply filter_all. destruct lf as [l|]; [|constructor].
    cbn [leaf_entry]. apply Forall_singleton. cbn [fst].
    rewrite (Hleaf l eq_refl). fold P. apply HasPrefix_app. }
  set (seen' := match lf with
                | Some lf0 => seen ++ [(key lf0, val lf0)]
                | None => seen
                end).
  assert (∀ rest,
            (if match lf with Some lf0 => fn (key lf0) (val lf0) | None => false end
             then Ok seen' h
             else Ok (seen' ++ until fn rest) h)
            = Ok (seen ++ until fn (leaf_entry lf ++ rest)) h) as Hhead.
  { intros rest. unfold seen'. destruct lf as [l|]; [|done].
    cbn [leaf_entry app until fst snd]. destruct (fn (key l) (val l)); [done|].
    by rewrite <-app_assoc. }
  rewrite <-Hhead.
  destruct (match lf with Some lf0 => fn (key lf0) (val lf0) | None => false end);
    [done|]. fold seen'.
  assert (∀ l t', (l, t') ∈ kids → ∀ (b : byte) s', s = b :: s' → l ≠ b →
            Forall (λ kv, ¬ HasPrefix (P ++ s) kv.1 = true) (t_walk t')) as Hother.
  { intros l t' Hin b s' -> Hne. rewrite Forall_forall in Hkids.
    eapply Forall_impl; [exact (kid_keys P l t' (Hkids _ Hin))|].
    intros kv [x ->]. rewrite HasPrefix_app_same, HasPrefix_cons_ne; [done|].
    by intros ->. }
  destruct s as [|c s'].
  { rewrite kids_walk_filter_none; [by rewrite app_nil_r|].
    intros l t' Hin. rewrite Forall_forall in Hkids.
    eapply Forall_impl; [exact (kid_keys P l t' (Hkids _ Hin))|].
    intros kv [x ->]. rewrite app_nil_r. rewrite <-(app_nil_r P) at 1.
    by rewrite HasPrefix_app_same. }
  rewrite (bind_ok _ _ _ _ _ (getEdge_ok _ _ _ _ c Hn Hv)).
  destruct (kids_search h es kids c Hes Hasc)
    as [(Hhas & Hfind & _)|(e & child & t1 & Hhas & Hfind & He & Hel & Hec & Hk & Hrc & _)];
    rewrite Hfind; cbv beta iota.
  { rewrite kids_walk_filter_none; [by rewrite app_nil_r|].
    intros l t' Hin. apply (Hother l t' Hin c s' eq_refl).
    intros ->. apply has_kid_false_labels in Hhas. apply Hhas.
    by apply (list_elem_of_fmap_2 fst _ (c, t')). }
  assert ((c, t1) ∈ kids) as Hin by (by eapply list_elem_of_lookup_2).
  rewrite (kids_walk_filter_one _ kids c t1 Hasc Hin
             (λ l t' Hin', Hother l t' Hin' c s' eq_refl)).
  rewrite Forall_forall in IH, Hkids.
  destruct (Hkids _ Hin) as [Hhd Hwf1]. specialize (IH _ Hin). cbn [fst snd] in *.
  pose proof (walk_sorted_keys _ _ _ Hwf1) as [_ Hkeys1].
  pose proof Hrc as Hrc'. destruct t1 as [lf1 p1 kids1].
  apply repr_inv in Hrc' as (sl1 & ces & Hcn & Hcv & Hces).
  rewrite (bind_ok _ _ _ _ _ (read_node_ok _ _ _ Hcn)). cbn [prefix t_prefix] in *.
  destruct (HasPrefix (c :: s') p1) eqn:Hpre.
  - apply HasPrefix_spec in Hpre as [s2 Hs]. rewrite Hs, drop_app_length.
    assert (p1 ≠ []) as Hp1 by (by destruct p1).
    pose proof (suffix_shorter _ _ _ _ Hs Hp1) as Hshort.
    rewrite (IH fuel h child false P s2 fn seen' Hrc Hwf1); [done|].
    simpl in *. lia.
  - rewrite filter_none; [by rewrite app_nil_r|].
    eapply Forall_impl; [exact Hkeys1|]. intros kv [x ->].
    rewrite HasPrefix_app_same. intros Hp%HasPrefix_shorten. congruence.
Qed.

End MoreWalks.

(** * The shape of a tree is determined by its contents *)

Section Canonical.

Context {V : Type}.

Implicit Types (t : tree V) (kids : list (byte * tree V)).
Implicit Types (lf : option (leafNode V)) (W : list (list byte * V)).

(** Two ways to cut a list into a part that satisfies [Q] everywhere
    and a part that satisfies it nowhere are the same. *)
Lemma split_by {A} (Q : A → Prop) (a a' b b' : list A) :
  a ++ b = a' ++ b' →
  Forall Q a → Forall Q a' → Forall (λ x, ¬ Q x) b → Forall (λ x, ¬ Q x) b' →
  a = a' ∧ b = b'.
Proof.
  revert a'. induction a as [|x a IH]; intros [|x' a'] Heq Ha Ha' Hb Hb'.
  - done.
  - simpl in Heq. subst b. apply Forall_cons in Hb as [Hx _].
    apply Forall_cons in Ha' as [Hx' _]. done.
  - simpl in Heq. subst b'. apply Forall_cons in Hb' as [Hx _].
    apply Forall_cons in Ha as [Hx' _]. done.
  - simpl in Heq. injection Heq as -> Heq.
    apply Forall_cons in Ha as [_ Ha]. apply Forall_cons in Ha' as [_ Ha'].
    destruct (IH a' Heq Ha Ha' Hb Hb') as [-> ->]. done.
Qed.

(** [P] is a common prefix of the keys of [W] that cannot be extended. *)
Definition tight (P : list byte) W : Prop :=
  (∃ kv, kv ∈ W ∧ kv.1 = P)
  ∨ (∃ kv1 kv2 (l1 l2 : byte) x1 x2,
       kv1 ∈ W ∧ kv2 ∈ W ∧ l1 ≠ l2
       ∧ kv1.1 = P ++ l1 :: x1 ∧ kv2.1 = P ++ l2 :: x2).

Lemma tight_extends (P z : list byte) W :
  tight P W → Forall (λ kv, ∃ x, kv.1 = (P ++ z) ++ x) W → z = [].
Proof.
  intros [(kv & Hin & Hkv)|(kv1 & kv2 & l1 & l2 & x1 & x2 & Hin1 & Hin2 & Hne & Hk1 & Hk2)] Hall;
    rewrite Forall_forall in Hall.
  - destruct (Hall _ Hin) as [x Hx]. rewrite Hkv, <-app_assoc in Hx.
    rewrite <-(app_nil_r P) in Hx at 1. apply app_inv_head in Hx.
    symmetry in Hx. by apply app_eq_nil in Hx as [-> _].
  - destruct (Hall _ Hin1) as [y1 Hy1]. destruct (Hall _ Hin2) as [y2 Hy2].
    rewrite Hk1, <-app_assoc in Hy1. rewrite Hk2, <-app_assoc in Hy2.
    apply app_inv_head in Hy1, Hy2. destruct z as [|c z]; [done|].
    simpl in Hy1, Hy2. congruence.
Qed.

Lemma tight_unique (P1 P2 : list byte) W :
  tight P1 W → tight P2 W →
  Forall (λ kv, ∃ x, kv.1 = P1 ++ x) W → Forall (λ kv, ∃ x, kv.1 = P2 ++ x) W →
  P1 = P2.
Proof.
  intros Ht1 Ht2 Hc1 Hc2.
  assert (∃ kv, kv ∈ W) as [kv Hin].
  { destruct Ht1 as [(kv & ? & _)|(kv & _ & _ & _ & _ & _ & ? & _)]; eauto. }
  pose proof Hc1 as Hc1'. pose proof Hc2 as Hc2'.
  rewrite Forall_forall in Hc1', Hc2'.
  destruct (Hc1' _ Hin) as [a Ha]. destruct (Hc2' _ Hin) as [b Hb].
  rewrite Ha in Hb. apply app_eq_inv in Hb as [(z & -> & _)|(z & -> & _)].
  - rewrite (tight_extends P2 z W Ht2 Hc1). by rewrite app_nil_r.
  - rewrite (tight_extends P1 z W Ht1 Hc2). by rewrite app_nil_r.
Qed.

Lemma kid_walk_entry (P : list byte) (l : byte) t :
  kid_ok P (l, t) → ∃ kv x, kv ∈ t_walk t ∧ kv.1 = P ++ l :: x.
Proof.
  intros Hok. pose proof (kid_keys P l t Hok) as Hkeys.
  destruct Hok as [_ Hwf]. cbn [snd] in Hwf.
  pose proof (wf_walk_nonempty t P Hwf) as Hne.
  destruct (t_walk t) as [|kv W]; [done|].
  apply Forall_cons in Hkeys as [[x Hx] _]. exists kv, x. split; [left|done].
Qed.

Lemma wf_tight t path : wf false path t → tight (path ++ t_prefix t) (t_walk t).
Proof.
  destruct t as [lf pre kids]. intros Hwf.
  apply wf_inv in Hwf as (_ & Hl & Hasc & Hcnt & Hkids).
  cbn [t_prefix]. rewrite t_walk_eq. destruct lf as [l|].
  { left. exists (key l, val l). split; [left|]. apply (Hl l eq_refl). }
  specialize (Hcnt eq_refl eq_refl).
  destruct kids as [|[l1 t1] [|[l2 t2] ks]]; [simpl in Hcnt; lia..|].
  apply Forall_cons in Hkids as [Hok1 Hkids]. apply Forall_cons in Hkids as [Hok2 _].
  destruct (kid_walk_entry _ _ _ Hok1) as (kv1 & x1 & Hin1 & Hk1).
  destruct (kid_walk_entry _ _ _ Hok2) as (kv2 & x2 & Hin2 & Hk2).
  right. exists kv1, kv2, l1, l2, x1, x2. rewrite !kids_walk_cons. cbn [leaf_entry app].
  split; [apply elem_of_app; by left|].
  split; [apply elem_of_app; right; apply elem_of_app; by left|].
  split; [|done]. csimpl in Hasc. apply ascending_cons in Hasc as [Hlt _].
  apply Forall_cons in Hlt as [Hlt _]. by apply byte_ltb_neq.
Qed.

Lemma cons_key_ne (P : list byte) (l l' : byte) (x x' : list byte) :
  l ≠ l' → P ++ l :: x ≠ P ++ l' :: x'.
Proof. intros Hne Heq. apply app_inv_head in Heq. congruence. Qed.

(** The children are determined by their joint listing. *)
Lemma kids_canonical (P : list byte) kids1 : ∀ kids2,
  Forall (λ lt, ∀ t2, wf false P lt.2 → wf false P t2 →
                      t_walk lt.2 = t_walk t2 → lt.2 = t2) kids1 →
  Forall (kid_ok P) kids1 → Forall (kid_ok P) kids2 →
  ascending (kids1.*1) → ascending (kids2.*1) →
  kids_walk kids1 = kids_walk kids2 →
  kids1 = kids2.
Proof.
  induction kids1 as [|[l1 t1] ks1 IHk]; intros [|[l2 t2] ks2] IH Hk1 Hk2 Ha1 Ha2 Hw.
  - done.
  - apply Forall_cons in Hk2 as [Hok2 _].
    destruct (kid_walk_entry _ _ _ Hok2) as (kv & x & Hin & _).
    rewrite kids_walk_cons in Hw. simpl in Hw. symmetry in Hw.
    apply app_eq_nil in Hw as [Hw _]. rewrite Hw in Hin. by apply elem_of_nil in Hin.
  - apply Forall_cons in Hk1 as [Hok1 _].
    destruct (kid_walk_entry _ _ _ Hok1) as (kv & x & Hin & _).
    rewrite kids_walk_cons in Hw. simpl in Hw.
    apply app_eq_nil in Hw as [Hw _]. rewrite Hw in Hin. by apply elem_of_nil in Hin.
  - apply Forall_cons in IH as [IHt IH].
    apply Forall_cons in Hk1 as [Hok1 Hk1]. apply Forall_cons in Hk2 as [Hok2 Hk2].
    csimpl in Ha1. csimpl in Ha2.
    apply ascending_cons in Ha1 as [Hlt1 Ha1]. apply ascending_cons in Ha2 as [Hlt2 Ha2].
    rewrite !kids_walk_cons in Hw.
    pose proof (kid_keys P l1 t1 Hok1) as Hkeys1.
    pose proof (kid_keys P l2 t2 Hok2) as Hkeys2.
    assert (l1 = l2) as <-.
    { pose proof Hok1 as [_ Hwf1]. pose proof Hok2 as [_ Hwf2]. cbn [snd] in *.
      pose proof (wf_walk_nonempty _ _ Hwf1) as Hne1.
      pose proof (wf_walk_nonempty _ _ Hwf2) as Hne2.
      destruct (t_walk t1) as [|kv1 W1]; [done|].
      destruct (t_walk t2) as [|kv2 W2]; [done|].
      apply Forall_cons in Hkeys1 as [[x1 Hx1] _].
      apply Forall_cons in Hkeys2 as [[x2 Hx2] _].
      simpl in Hw. injection Hw as <- _. rewrite Hx1 in Hx2.
      apply app_inv_head in Hx2. congruence. }
    assert (∀ ks : list (byte * tree V),
              Forall (kid_ok P) ks → Forall (λ l', byte_ltb l1 l' = true) ks.*1 →
              Forall (λ kv, ¬ ∃ x, kv.1 = P ++ l1 :: x) (kids_walk ks)) as Hrest.
    { intros ks Hks Hlt.
      eapply Forall_impl; [exact (kids_keys P _ ks Hks Hlt)|].
      intros kv (b & x & Hb & ->) [x' Hx']. apply byte_ltb_neq in Hb.
      by apply (cons_key_ne P b l1 x x'). }
    destruct (split_by (λ kv, ∃ x, kv.1 = P ++ l1 :: x) _ _ _ _ Hw Hkeys1 Hkeys2
                (Hrest ks1 Hk1 Hlt1) (Hrest ks2 Hk2 Hlt2)) as [Hwt Hwk].
    destruct Hok1 as [_ Hwf1], Hok2 as [_ Hwf2]. cbn [snd] in *.
    rewrite (IHt t2 Hwf1 Hwf2 Hwt). f_equal. by apply IHk.
Qed.

Lemma leaf_entry_inj lf1 lf2 : leaf_entry lf1 = leaf_entry lf2 → lf1 = lf2.
Proof. destruct lf1 as [[]|], lf2 as [[]|]; simpl; congruence. Qed.

(** Two well-formed trees below the same key prefix that list the same
    entries are the same tree. *)
Lemma wf_canonical t1 : ∀ t2 r path,
  wf r path t1 → wf r path t2 → t_walk t1 = t_walk t2 → t1 = t2.
Proof.
  induction t1 as [lf1 pre1 kids1 IH] using tree_ind'.
  intros [lf2 pre2 kids2] r path Hwf1 Hwf2 Hw.
  assert (pre1 = pre2) as <-.
  { destruct r.
    - apply wf_inv in Hwf1 as (-> & _); [|done].
      by apply wf_inv in Hwf2 as (-> & _).
    - pose proof (wf_tight _ _ Hwf1) as Ht1. pose proof (wf_tight _ _ Hwf2) as Ht2.
      destruct (walk_sorted_keys _ _ _ Hwf1) as [_ Hk1].
      destruct (walk_sorted_keys _ _ _ Hwf2) as [_ Hk2].
      rewrite <-Hw in Ht2, Hk2. cbn [t_prefix] in *.
      eapply (app_inv_head path), (tight_unique _ _ _ Ht1 Ht2).
      + eapply Forall_impl; [exact Hk1|]. intros kv [x ->]. exists x. by rewrite app_assoc.
      + eapply Forall_impl; [exact Hk2|]. intros kv [x ->]. exists x. by rewrite app_assoc. }
  apply wf_inv in Hwf1 as (_ & Hl1 & Ha1 & _ & Hk1).
  apply wf_inv in Hwf2 as (_ & Hl2 & Ha2 & _ & Hk2).
  rewrite !t_walk_eq in Hw. set (P := path ++ pre1) in *.
  assert (∀ lf, (∀ l, lf = Some l → key l = P) → Forall (λ kv, kv.1 = P) (leaf_entry lf))
    as Hleaf.
  { intros [l|] Hl; [|constructor]. apply Forall_singleton. by apply Hl. }
  assert (∀ ks : list (byte * tree V),
            Forall (kid_ok P) ks → Forall (λ kv, ¬ kv.1 = P) (kids_walk ks)) as Hbelow.
  { intros ks Hks. apply Forall_forall.
    intros kv (l & t & Hin & Hkv)%elem_of_kids_walk Heq.
    rewrite Forall_forall in Hks. pose proof (kid_keys P l t (Hks _ Hin)) as Hkeys.
    rewrite Forall_forall in Hkeys. destruct (Hkeys _ Hkv) as [x Hx].
    rewrite Heq in Hx. rewrite <-(app_nil_r P) in Hx at 1.
    by apply app_inv_head in Hx. }
  destruct (split_by (λ kv, kv.1 = P) _ _ _ _ Hw (Hleaf _ Hl1) (Hleaf _ Hl2)
              (Hbelow _ Hk1) (Hbelow _ Hk2)) as [Hlf Hkw].
  apply leaf_entry_inj in Hlf as <-. f_equal.
  apply (kids_canonical P); try done.
  eapply Forall_impl; [exact IH|]. intros [l t] IHt t2 Hw1 Hw2. by apply (IHt t2 false P).
Qed.

End Canonical.

(** * Edge tables and the nodes of built trees *)

Section EdgeSearch.

Context {V : Type}.

Implicit Types (h : heap V) (nd : Node V) (e : edge) (es : list edge).
Implicit Types (t : tree V) (kids : list (byte * tree V)).

(** The binary search on ascending labels, on the elements themselves. *)
Lemma search_label_split es (b : byte) :
  ascending (label <$> es) →
  search_label es b ≤ length es
  ∧ Forall (λ e, byte_ltb (label e) b = true) (take (search_label es b) es)
  ∧ Forall (λ e, byte_ltb (label e) b = false) (drop (search_label es b) es).
Proof.
  intros Hasc. rewrite search_label_labels.
  destruct (search_labels_split (label <$> es) b Hasc) as (Hle & Hlo & Hhi).
  rewrite length_fmap in Hle. rewrite <-fmap_take in Hlo. rewrite <-fmap_drop in Hhi.
  rewrite Forall_fmap in Hlo. rewrite Forall_fmap in Hhi. done.
Qed.

(** On ascending labels the search finds the edge that carries a label. *)
Lemma search_label_found es (b : byte) i e :
  ascending (label <$> es) → es !! i = Some e → label e = b →
  search_label es b = i.
Proof.
  intros Hasc He Hl. destruct (search_label_split es b Hasc) as (Hle & Hlo & Hhi).
  set (idx := search_label es b) in *.
  rewrite Forall_lookup in Hlo. rewrite Forall_lookup in Hhi.
  destruct (Nat.lt_trichotomy i idx) as [Hlt|[->|Hgt]]; [|done|].
  - specialize (Hlo i e). rewrite lookup_take_lt in Hlo by done.
    specialize (Hlo He). rewrite Hl, byte_ltb_irrefl in Hlo. done.
  - assert (idx < length es) as Hidx by (apply lookup_lt_Some in He; lia).
    destruct (lookup_lt_is_Some_2 es idx Hidx) as [e0 He0].
    pose proof (Hhi 0 e0) as H0. rewrite lookup_drop, Nat.add_0_r in H0.
    specialize (H0 He0). cbn beta in H0.
    assert (byte_ltb (label e0) (label e) = true) as Hlt.
    { eapply (ascending_lookup_lt (label <$> es) idx i); [done|done|..];
        by rewrite list_lookup_fmap, ?He0, ?He. }
    rewrite Hl in Hlt. congruence.
Qed.

Lemma view_insert h sl es a l i (x : edge) :
  view h sl es → arr sl = Some a → arrays h !! a = Some l → i < len sl →
  view (Heap (nodes h) (<[a := <[off sl + i := x]> l]> (arrays h))) sl (<[i := x]> es).
Proof.
  intros (l' & Hl' & Hlen & ->) Ha Hl Hi. rewrite Ha in Hl'.
  rewrite Hl in Hl'. injection Hl' as <-.
  exists (<[off sl + i := x]> l). rewrite Ha. cbn [arrays].
  split; [|split].
  - rewrite list_lookup_insert_eq; [done|]. by eapply lookup_lt_Some.
  - by rewrite length_insert.
  - rewrite drop_insert_ge by lia. rewrite take_insert_lt by lia.
    f_equal. lia.
Qed.

Lemma view_arr h sl es e :
  view h sl es → e ∈ es → ∃ a l, arr sl = Some a ∧ arrays h !! a = Some l.
Proof.
  intros (l & Hl & _ & ->) Hin. destruct (arr sl) as [a|]; [by eauto|].
  subst l. rewrite drop_nil, take_nil in Hin. by apply elem_of_nil in Hin.
Qed.

(** A node below a tree lists a part of what the tree lists. *)
Lemma node_of_sub h (a n : addr) :
  node_of h a n → ∀ t r path,
  repr h a t → wf r path t →
  ∃ d r' path',
    repr h n d ∧ wf r' path' d ∧ ∀ kv, kv ∈ t_walk d → kv ∈ t_walk t.
Proof.
  induction 1 as [a|a nd es e c n Hn Hv He Hc _ IH]; intros t r path Hrep Hwf.
  { by exists t, r, path. }
  destruct t as [lf pre kids].
  apply repr_inv in Hrep as (sl & es' & Hn' & Hv' & Hes).
  rewrite Hn in Hn'. injection Hn' as ->. cbn [edges] in Hv.
  rewrite (view_fun _ _ _ _ Hv Hv') in He.
  apply wf_inv in Hwf as (_ & _ & _ & _ & Hkids).
  apply list_elem_of_lookup_1 in He as [i He].
  destruct (Forall2_lookup_l _ _ _ _ _ Hes He) as ([l1 t1] & Hk & _ & c' & Hc' & Hrc).
  rewrite Hc in Hc'. injection Hc' as <-.
  assert ((l1, t1) ∈ kids) as Hin by (by eapply list_elem_of_lookup_2).
  rewrite Forall_forall in Hkids. destruct (Hkids _ Hin) as [_ Hwf1].
  destruct (IH _ _ _ Hrc Hwf1) as (d & r' & path' & Hd & Hwfd & Hsub).
  exists d, r', path'. split; [done|]. split; [done|].
  intros kv Hkv. rewrite t_walk_eq. apply elem_of_app. right.
  apply elem_of_kids_walk. exists l1, t1. split; [done|]. by apply Hsub.
Qed.

Lemma leaves_only_kids kids :
  foldr (λ lt acc, leaves_only lt.2 ∧ acc) True kids
  ↔ Forall (λ lt, leaves_only lt.2) kids.
Proof.
  induction kids as [|lt ks IH]; simpl; [by split; [constructor|]|].
  rewrite Forall_cons, IH. done.
Qed.

(** Where no key is a proper prefix of another key, no node carries both
    a leaf and edges. *)
Lemma prefix_free_leaves_only t : ∀ r path,
  wf r path t →
  (∀ kv1 kv2, kv1 ∈ t_walk t → kv2 ∈ t_walk t →
              HasPrefix kv2.1 kv1.1 = true → kv1.1 = kv2.1) →
  leaves_only t.
Proof.
  induction t as [lf pre kids IH] using tree_ind'. intros r path Hwf Hfree.
  apply wf_inv in Hwf as (_ & Hl & _ & _ & Hkids).
  cbn [leaves_only]. split.
  - intros [l ->]. destruct kids as [|[l1 t1] ks]; [done|]. exfalso.
    apply Forall_cons in Hkids as [Hok _].
    destruct (kid_walk_entry _ _ _ Hok) as (kv & x & Hin & Hkv).
    assert ((key l, val l).1 = kv.1) as Heq.
    { apply Hfree.
      - rewrite t_walk_eq. apply elem_of_app. left. simpl. left.
      - rewrite t_walk_eq, kids_walk_cons. apply elem_of_app. right.
        apply elem_of_app. by left.
      - cbn [fst]. rewrite Hkv, (Hl l eq_refl). apply HasPrefix_app. }
    cbn [fst] in Heq. rewrite Hkv, (Hl l eq_refl) in Heq.
    apply (f_equal length) in Heq. rewrite !length_app in Heq.
    cbn [length] in Heq. lia.
  - apply leaves_only_kids. rewrite Forall_forall in IH, Hkids.
    apply Forall_forall. intros [l1 t1] Hin.
    destruct (Hkids _ Hin) as [_ Hwf1]. cbn [snd] in *.
    apply (IH _ Hin false (path ++ pre) Hwf1).
    intros kv1 kv2 H1 H2. apply Hfree; rewrite t_walk_eq; apply elem_of_app; right;
      apply elem_of_kids_walk; eauto.
Qed.

End EdgeSearch.

(** * The root and the nodes below it *)

Section RootShape.

Context {V : Type}.

Implicit Types (h : heap V) (nd : Node V) (e : edge) (es : list edge).
Implicit Types (t : tree V) (kids : list (byte * tree V)).

Lemma Get_root_spec h (a : addr) t k :
  tree_inv h a t → Get a k h = Ok (t_get t k) h.
Proof.
  intros [Hr Hwf]. unfold Get.
  eapply Get_refines; [done..|]. unfold depth_bound. lia.
Qed.

(** Below the root no node is left with one edge and no leaf. *)
Lemma below_root_merged h (a : addr) t :
  tree_inv h a t →
  ∀ n nd, node_of h a n → n ≠ a → nodes h !! n = Some nd →
          ¬ (leaf nd = None ∧ len (edges nd) = 1).
Proof.
  intros [Hr Hwf] n nd Hof Hne Hn [Hleaf Hlen].
  destruct (node_of_repr _ _ _ Hof _ _ _ Hr Hwf)
    as ([lf pre kids] & r' & path' & Hd & Hwfd & [[? _]| ->]); [done|].
  apply repr_inv in Hd as (sl & es & Hn' & Hv & Hes).
  rewrite Hn in Hn'. injection Hn' as ->. cbn [leaf edges] in *. subst lf.
  apply wf_inv in Hwfd as (_ & _ & _ & Hcnt & _).
  specialize (Hcnt eq_refl eq_refl).
  rewrite <-(Forall2_length _ _ _ Hes), (view_length _ _ _ Hv) in Hcnt. lia.
Qed.

(** The root has one edge for each first byte of the keys of the tree. *)
Lemma root_kids_keys lf pre kids (b : byte) :
  wf true [] (Tr lf pre kids) →
  b ∈ kids.*1 ↔ ∃ k v, t_get (Tr lf pre kids) (b :: k) = Some v.
Proof.
  intros Hwf. pose proof Hwf as Hwf'.
  apply wf_inv in Hwf' as (Hpre & _ & Hasc & _ & Hkids).
  specialize (Hpre eq_refl). subst pre. cbn [app] in Hkids. split.
  - intros ([b' t'] & -> & Hin)%list_elem_of_fmap. cbn [fst].
    rewrite Forall_forall in Hkids.
    destruct (kid_walk_entry [] b' t' (Hkids _ Hin)) as ([k v] & x & Hkv & Hk).
    cbn [fst app] in Hk. subst k.
    assert ((b' :: x, v) ∈ t_walk (Tr lf [] kids)) as Hw.
    { rewrite t_walk_eq, elem_of_app. right. apply elem_of_kids_walk. eauto. }
    apply (walk_find_root _ _ _ Hwf) in Hw.
    exists x, v. unfold t_get. by rewrite Hw.
  - intros (k & v & Hget). unfold t_get in Hget. rewrite t_find_cons in Hget.
    destruct (has_kid b kids) eqn:Hhas.
    + apply has_kid_elem in Hhas as [t' Hin].
      by apply (list_elem_of_fmap_2 fst _ (b, t')).
    + by rewrite with_kid_none in Hget.
Qed.

Lemma ascending_NoDup (ls : list byte) : ascending ls → NoDup ls.
Proof.
  induction ls as [|l ls IH]; intros Hasc; constructor.
  - by apply ascending_not_elem.
  - apply IH. by apply ascending_cons in Hasc as [_ ?].
Qed.

Lemma NoDup_all_equal (ls : list byte) (b : byte) :
  NoDup ls → b ∈ ls → (∀ b', b' ∈ ls → b' = b) → length ls = 1.
Proof.
  intros Hnd Hin Hall. destruct ls as [|x [|y ls]]; [by apply elem_of_nil in Hin|done|].
  apply NoDup_cons in Hnd as [Hx _]. exfalso. apply Hx.
  rewrite (Hall x) by left. rewrite <-(Hall y) by (right; left). left.
Qed.

(** The root is kept as it is: its prefix stays empty, its leaf is the
    entry of the empty key, and every first byte of a key has its edge. *)
Lemma root_kept h (a : addr) t :
  tree_inv h a t →
  ∃ rd es,
    nodes h !! a = Some rd ∧ view h (edges rd) es
    ∧ prefix rd = []
    ∧ (leaf rd = None ↔ Get a [] h = Ok None h)
    ∧ (∀ b : byte, b ∈ label <$> es ↔ ∃ k v, Get a (b :: k) h = Ok (Some v) h)
    ∧ (∀ b : byte,
         Get a [] h = Ok None h →
         (∃ k v, Get a (b :: k) h = Ok (Some v) h) →
         (∀ (b' : byte) k v, Get a (b' :: k) h = Ok (Some v) h → b' = b) →
         leaf rd = None ∧ len (edges rd) = 1).
Proof.
  intros Hinv. pose proof Hinv as [Hr Hwf]. destruct t as [lf pre kids].
  pose proof Hwf as Hwf'. apply wf_inv in Hwf' as (Hpre & _ & Hasc & _).
  specialize (Hpre eq_refl). subst pre.
  apply repr_inv in Hr as (sl & es & Hn & Hv & Hes).
  pose proof (edges_repr_labels _ _ _ Hes) as Hlab.
  assert (leaf (MkNode lf [] sl) = None ↔ Get a [] h = Ok None h) as Hleaf.
  { rewrite (Get_root_spec _ _ _ [] Hinv). unfold t_get. cbn [t_find leaf].
    destruct lf; split; (done || by intros [= ?]). }
  assert (∀ b : byte, b ∈ label <$> es
                      ↔ ∃ k v, Get a (b :: k) h = Ok (Some v) h) as Hedges.
  { intros b. rewrite Hlab, (root_kids_keys _ _ _ b Hwf).
    split; intros (k & v & Hget); exists k, v.
    - by rewrite (Get_root_spec _ _ _ _ Hinv), Hget.
    - rewrite (Get_root_spec _ _ _ _ Hinv) in Hget. by injection Hget. }
  exists (MkNode lf [] sl), es. split; [done|]. split; [done|]. split; [done|].
  split; [done|]. split; [done|].
  intros b Hnone Hsome Hall. split; [by apply Hleaf|]. cbn [edges].
  rewrite <-(view_length _ _ _ Hv), <-(length_fmap label).
  apply (NoDup_all_equal _ b).
  - apply ascending_NoDup. by rewrite Hlab.
  - by apply Hedges.
  - intros b' (k & v & Hget)%Hedges. by eapply Hall.
Qed.

(** A session keeps its invariant to its end. *)
Lemma run_inv (cs : list (call V)) : ∀ (s : session) h,
  session_inv h s →
  ∃ n0 s' h',
    session_inv h' s'
    ∧ (∀ fuel, n0 ≤ fuel → run fuel s cs h = Ok s' h')
    ∧ (∀ fuel, run fuel s cs h = Ok s' h' ∨ run fuel s cs h = Panic OutOfFuel).
Proof.
  induction cs as [|c cs IH]; intros s h Hinv.
  { exists 0, s, h. split; [done|]. split; [done|]. by left. }
  destruct (step_spec c s h Hinv) as (n1 & s1 & h1 & _ & Hinv1 & Hstep & Hstep').
  destruct (IH s1 h1 Hinv1) as (n2 & s' & h' & Hinv' & Hrun & Hrun').
  exists (n1 `max` n2), s', h'. split; [done|]. split.
  - intros fuel Hle. cbn [run].
    rewrite (bind_ok _ _ _ _ _ (Hstep fuel ltac:(lia))). apply Hrun. lia.
  - intros fuel. cbn [run]. destruct (Hstep' fuel) as [Hs|Hs].
    + rewrite (bind_ok _ _ _ _ _ Hs). apply Hrun'.
    + right. by rewrite (bind_panic _ _ _ _ Hs).
Qed.

End RootShape.

(** * The properties of the specification *)

(** The keys ["a"] and ["b"]. *)
Definition key_a : list byte := ["a"%byte].
Definition key_b : list byte := ["b"%byte].

Section Specification.

Context {V : Type}.

Implicit Types (h g : heap V) (a n : addr) (t : tree V).
Implicit Types (o : op V) (ops : list (op V)) (k : list byte) (T : Tree).

Lemma build_inv ops T h :
  build ops empty_heap = Ok T h → tree_inv h (tree_root T) (model ops).
Proof.
  intros Hb. destruct (build_spec ops) as (T' & h' & Hb' & Hinv).
  rewrite Hb in Hb'. by injection Hb' as -> ->.
Qed.

Lemma Tree_Get_spec h T t k :
  tree_inv h (tree_root T) t → Tree_Get T k h = Ok (t_get t k) h.
Proof.
  intros [Hr Hwf]. unfold Tree_Get, Get.
  eapply Get_refines; [done..|]. unfold depth_bound. lia.
Qed.

Lemma Txn_Get_spec h (x : Txn) t k :
  tree_inv h (root x) t → Txn_Get x k h = Ok (t_get t k) h.
Proof.
  intros [Hr Hwf]. unfold Txn_Get, Get.
  eapply Get_refines; [done..|]. unfold depth_bound. lia.
Qed.

Lemma sorted_NoDup (l : list (list byte)) : StronglySorted lex_lt l → NoDup l.
Proof.
  induction 1 as [|x l _ IH Hx]; constructor; [|done].
  intros Hin. rewrite Forall_forall in Hx. by apply (lex_lt_irrefl x), Hx.
Qed.

Lemma until_prefix (fn : @WalkFn V) l : until fn l `prefix_of` l.
Proof.
  induction l as [|x l IH]; [done|]. simpl. destruct (fn x.1 x.2).
  - apply (prefix_cons x []). apply prefix_nil.
  - by apply prefix_cons.
Qed.

Lemma sorted_prefix (l1 l2 : list (list byte)) :
  l1 `prefix_of` l2 → StronglySorted lex_lt l2 → StronglySorted lex_lt l1.
Proof.
  intros [l' ->] H. revert H. induction l1 as [|x l1 IH]; [constructor|].
  simpl. inversion 1 as [|? ? Hs Hx]; subst. constructor; [by apply IH|].
  by apply Forall_app in Hx as [Hx _].
Qed.

(** C1: for every tree committed from [New] by a sequence of [Insert] and
    [Delete], be it with [Tree.Insert] and [Tree.Delete] or inside
    transactions that are committed one after the other, and for every
    key, [Tree.Get] returns the value of the last [Insert] of the key that
    no [Delete] of the key follows, and reports the key absent when there
    is none. *)
Theorem C1_get_returns_last_write ops (txs : list (list (op V))) k :
  (∃ T h,
     build ops empty_heap = Ok T h
     ∧ Tree_Get T k h = Ok (history_get ops k) h)
  ∧ (∃ T h,
       build_txns txs empty_heap = Ok T h
       ∧ Tree_Get T k h = Ok (history_get (mjoin txs) k) h).
Proof.
  split.
  - destruct (build_spec ops) as (T & h & Hb & Hinv). exists T, h.
    split; [done|]. by rewrite (Tree_Get_spec _ _ _ k Hinv), model_get.
  - destruct (build_txns_spec txs) as (T & h & Hb & Hinv). exists T, h.
    split; [done|]. by rewrite (Tree_Get_spec _ _ _ k Hinv), model_get.
Qed.

(** C3: the keys that [Walk] hands to its callback, on a tree built by any
    sequence of operations (of [Insert]s in particular), are in strict
    lexicographic order, hence without duplicates. *)
Theorem C3_walk_strictly_sorted ops (fn : WalkFn) :
  ∃ T h n0 out,
    build ops empty_heap = Ok T h
    ∧ (∀ m, Walk (n0 + m) (tree_root T) fn h = Ok out h)
    ∧ StronglySorted lex_lt out.*1
    ∧ NoDup out.*1.
Proof.
  destruct (build_spec ops) as (T & h & Hb & [Hr Hwf]).
  exists T, h, (height (model ops)), (until fn (t_walk (model ops))).
  split; [done|]. split.
  { intros m. apply Walk_refines; [done|lia]. }
  assert (StronglySorted lex_lt (until fn (t_walk (model ops))).*1) as Hs.
  { eapply sorted_prefix; [|by eapply walk_sorted].
    destruct (until_prefix fn (t_walk (model ops))) as [l' Hl].
    exists (l'.*1). rewrite <-fmap_app. by rewrite <-Hl. }
  split; [done|]. by apply sorted_NoDup.
Qed.

(** C7: [Tree.Delete] of a key that is not present returns the tree it
    was called on, with the same root over an unchanged heap, and reports
    the key absent. *)
Theorem C7_delete_absent_is_identity ops T h k :
  build ops empty_heap = Ok T h →
  Tree_Get T k h = Ok None h →
  Tree_Delete T k h = Ok (T, None) h.
Proof.
  intros Hb Hget. pose proof (build_inv _ _ _ Hb) as Hinv.
  rewrite (Tree_Get_spec _ _ _ k Hinv) in Hget. injection Hget as Hget.
  pose proof (Txn_Delete_spec h (Tree_Txn T) (model ops) k Hinv) as Hd.
  unfold t_get in Hget. destruct (t_find (model ops) k) eqn:Hf; [done|].
  apply (t_delete_none _ true) in Hf. rewrite Hf in Hd. destruct Hd as [_ Hd].
  unfold Tree_Delete. rewrite (bind_ok _ _ _ _ _ Hd). by destruct T.
Qed.

(** C2: whatever two transactions derived from a committed tree [T0] do,
    in any interleaving (deletes that merge a child and later inserts
    included), every node and every edge array that existed before is left
    as it was; [T0] answers every [Get] as before and its deep copy is the
    one taken before; and what one transaction goes on to do changes no
    answer of its sibling. *)
Theorem C2_mutation_isolation ops (sched : list (bool * op V)) (more : list (op V)) :
  ∃ T0 h0 (a b : Txn) h1 (a' : Txn) h2,
    build ops empty_heap = Ok T0 h0
    ∧ interleave (Tree_Txn T0) (Tree_Txn T0) sched h0 = Ok (a, b) h1
    ∧ txn_ops a more h1 = Ok a' h2
    ∧ heap_ext h0 h1 ∧ heap_ext h1 h2
    ∧ (∀ k, Tree_Get T0 k h0 = Ok (history_get ops k) h0
            ∧ Tree_Get T0 k h1 = Ok (history_get ops k) h1
            ∧ Tree_Get T0 k h2 = Ok (history_get ops k) h2)
    ∧ (∃ t0 n0, ∀ m,
         snapshot (n0 + m) h0 (tree_root T0) = Some t0
         ∧ snapshot (n0 + m) h1 (tree_root T0) = Some t0
         ∧ snapshot (n0 + m) h2 (tree_root T0) = Some t0)
    ∧ (∀ k, ∃ v, Txn_Get b k h1 = Ok v h1 ∧ Txn_Get b k h2 = Ok v h2).
Proof.
  destruct (build_spec ops) as (T0 & h0 & Hb & Hinv0).
  destruct (interleave_spec sched h0 (Tree_Txn T0) (Tree_Txn T0) _ _ Hinv0 Hinv0)
    as (a & b & h1 & ta & tb & Hrun & Hext1 & Ha & Hb1).
  destruct (txn_ops_spec more h1 a ta Ha)
    as (a' & h2 & r & Hmore & Hext2 & _).
  pose proof (heap_ext_trans _ _ _ Hext1 Hext2) as Hext.
  exists T0, h0, a, b, h1, a', h2. do 5 (split; [done|]). split; [|split].
  - intros k. rewrite <-model_get.
    split; [exact (Tree_Get_spec _ _ _ k Hinv0)|].
    split; apply Tree_Get_spec; eapply tree_inv_ext; eassumption.
  - exists (model ops), (height (model ops)). intros m. destruct Hinv0 as [Hr _].
    split; [apply snapshot_repr; [done|lia]|].
    split; (apply snapshot_repr; [by eapply heap_ext_repr|lia]).
  - intros k. exists (t_get tb k). split; [exact (Txn_Get_spec _ _ _ k Hb1)|].
    apply Txn_Get_spec. exact (tree_inv_ext _ _ _ _ Hext2 Hb1).
Qed.

Lemma aborts_never (l : list (list byte * V)) : aborts (λ _ _, false) l = false.
Proof. by induction l. Qed.

Lemma listing_spec h T t fuel :
  repr h (tree_root T) t → height t ≤ fuel → listing fuel T h = Ok (t_walk t) h.
Proof.
  intros Hr Hfuel. unfold listing. rewrite (Walk_refines t); [|done..].
  by rewrite until_all by apply aborts_never.
Qed.

(** In a strictly sorted listing nothing is below the first entry and
    nothing is above the last. *)
Lemma sorted_bounds (l : list (list byte * V)) :
  StronglySorted lex_lt l.*1 →
  Forall (λ kv, ∀ lo hi, head l = Some lo → last l = Some hi →
                ¬ lex_lt kv.1 lo.1 ∧ ¬ lex_lt hi.1 kv.1) l.
Proof.
  intros Hs. apply Forall_forall. intros kv Hin lo hi Hlo Hhi. split.
  - destruct l as [|x l]; [done|]. injection Hlo as ->. csimpl in Hs.
    apply StronglySorted_inv in Hs as [_ Hx]. rewrite Forall_forall in Hx.
    apply elem_of_cons in Hin as [->|Hin]; [apply lex_lt_irrefl|].
    apply lex_lt_asym, Hx. by apply list_elem_of_fmap_2.
  - clear Hlo. induction l as [|x l IH]; [done|]. csimpl in Hs.
    apply StronglySorted_inv in Hs as [Hs Hx]. rewrite Forall_forall in Hx.
    destruct l as [|y l]; [injection Hhi as <-|].
    { apply list_elem_of_singleton in Hin as ->. apply lex_lt_irrefl. }
    change (last (x :: y :: l)) with (last (y :: l)) in Hhi.
    apply elem_of_cons in Hin as [->|Hin]; [|by apply IH].
    apply lex_lt_asym, Hx, list_elem_of_fmap_2. by apply last_Some_elem_of.
Qed.

(** C4: in every tree that a client obtains from [New] by [Insert]s and
    [Delete]s, on trees or inside transactions of any length, no node
    other than the root has exactly one edge and no leaf.  The root is
    never collapsed: its prefix stays empty, its leaf is the entry of the
    empty key, and it has an edge for each first byte of a key of the
    tree.  So a root with a single edge and no leaf is what every tree has
    whose keys all start with the same byte. *)
Theorem C4_merge_child_invariant (cs : list (call V)) :
  ∃ n0 s h,
    (∀ m, run (n0 + m) (Session [] []) cs empty_heap = Ok s h)
    ∧ ∀ hd r,
        root_of s hd = Some r →
        (∀ n nd,
           node_of h r n → n ≠ r → nodes h !! n = Some nd →
           ¬ (leaf nd = None ∧ len (edges nd) = 1))
        ∧ ∃ rd es,
            nodes h !! r = Some rd ∧ view h (edges rd) es
            ∧ prefix rd = []
            ∧ (leaf rd = None ↔ Get r [] h = Ok None h)
            ∧ (∀ b : byte,
                 b ∈ label <$> es ↔ ∃ k v, Get r (b :: k) h = Ok (Some v) h)
            ∧ (∀ b : byte,
                 Get r [] h = Ok None h →
                 (∃ k v, Get r (b :: k) h = Ok (Some v) h) →
                 (∀ (b' : byte) k v,
                    Get r (b' :: k) h = Ok (Some v) h → b' = b) →
                 leaf rd = None ∧ len (edges rd) = 1).
Proof.
  assert (session_inv (V:=V) empty_heap (Session [] [])) as Hinv by (by split).
  destruct (run_inv cs _ _ Hinv) as (n0 & s & h & Hinv' & Hrun & _).
  exists n0, s, h. split; [intros m; apply Hrun; lia|].
  intros hd r Hroot. destruct (root_of_inv _ _ _ _ Hinv' Hroot) as [t Ht].
  split; [exact (below_root_merged _ _ _ Ht)|exact (root_kept _ _ _ Ht)].
Qed.

(** C6, as amended: for a key that is not present in the tree, [Insert] of
    the key followed by [Delete] of it yields a tree with the same in-order
    key/value listing. *)
Theorem C6_insert_then_delete_absent ops T h k (v : V) :
  build ops empty_heap = Ok T h →
  Tree_Get T k h = Ok None h →
  ∃ T2 h2 l n0,
    insert_then_delete T k v h = Ok T2 h2
    ∧ ∀ m, listing (n0 + m) T h = Ok l h
           ∧ listing (n0 + m) T2 h2 = Ok l h2.
Proof.
  intros Hb Hget. pose proof (build_inv _ _ _ Hb) as Hinv.
  rewrite (Tree_Get_spec _ _ _ k Hinv) in Hget. injection Hget as Hget.
  set (t := model ops) in *.
  destruct (Tree_op_spec h T t (Insert k v) Hinv) as (T1 & h1 & Hop1 & _ & Hinv1 & _).
  destruct (Tree_op_spec h1 T1 _ (Delete k) Hinv1) as (T2 & h2 & Hop2 & _ & Hinv2 & _).
  set (t2 := apply_op (apply_op t (Insert k v)) (Delete k)) in *.
  exists T2, h2, (t_walk t), (height t `max` height t2). split.
  { unfold insert_then_delete. cbn [Tree_op] in Hop1, Hop2.
    by rewrite (bind_ok _ _ _ _ _ Hop1), (bind_ok _ _ _ _ _ Hop2). }
  assert (t_walk t2 = t_walk t) as Hw.
  { destruct Hinv as [_ Hwf], Hinv1 as [_ Hwf1], Hinv2 as [_ Hwf2].
    apply walk_ext; [done..|]. intros x. unfold t2.
    rewrite (find_apply_op _ (Delete k) x Hwf1), (find_apply_op _ (Insert k v) x Hwf).
    case_bool_decide as Hx; [|done]. subst x. unfold t_get in Hget.
    by destruct (t_find t k). }
  intros m. destruct Hinv as [Hr _], Hinv2 as [Hr2 _].
  split; [apply listing_spec; [done|lia]|].
  rewrite <-Hw. apply listing_spec; [done|lia].
Qed.

(** C9: on every node of a committed tree, [Minimum] returns the first
    entry and [Maximum] the last entry of the node's in-order listing,
    which is strictly sorted; both report absence exactly on an empty
    listing; and the leaf of a node that has edges is below the maximum. *)
Theorem C9_minimum_maximum ops T h n :
  build ops empty_heap = Ok T h →
  node_of h (tree_root T) n →
  ∃ l n0,
    (∀ m, Walk (n0 + m) n (λ _ _, false) h = Ok l h
          ∧ Minimum (n0 + m) n h = Ok (head l) h
          ∧ Maximum (n0 + m) n h = Ok (last l) h)
    ∧ StronglySorted lex_lt l.*1
    ∧ Forall (λ kv, ∀ lo hi, head l = Some lo → last l = Some hi →
                    ¬ lex_lt kv.1 lo.1 ∧ ¬ lex_lt hi.1 kv.1) l
    ∧ (∀ nd lf, nodes h !! n = Some nd → leaf nd = Some lf →
                0 < len (edges nd) →
                ∃ hi, last l = Some hi ∧ lex_lt (key lf) hi.1).
Proof.
  intros Hb Hof. destruct (build_inv _ _ _ Hb) as [Hr Hwf].
  destruct (node_of_repr _ _ _ Hof _ _ _ Hr Hwf) as (d & r' & path' & Hd & Hwfd & _).
  pose proof (walk_sorted _ _ _ Hwfd) as Hs.
  exists (t_walk d), (height d). split; [|split; [done|split; [by apply sorted_bounds|]]].
  - intros m. split; [|split].
    + rewrite (Walk_refines d); [|done|lia]. by rewrite until_all by apply aborts_never.
    + rewrite (Minimum_refines d); [|done|lia]. by rewrite (t_min_head _ _ _ Hwfd).
    + rewrite (Maximum_refines d); [|done|lia]. by rewrite (t_max_last _ _ _ Hwfd).
  - intros nd lf Hn Hleaf Hlen. destruct d as [lf' pre kids].
    apply repr_inv in Hd as (sl & es & Hn' & Hv & Hes).
    rewrite Hn in Hn'. injection Hn' as ->. cbn [leaf edges] in *. subst lf'.
    rewrite <-(view_length _ _ _ Hv), (Forall2_length _ _ _ Hes) in Hlen.
    apply wf_inv in Hwfd as (_ & _ & _ & _ & Hkids).
    rewrite t_walk_eq in *. cbn [leaf_entry] in *.
    assert (kids_walk kids ≠ []) as Hne.
    { destruct kids as [|[l1 t1] ks]; [simpl in Hlen; lia|].
      apply Forall_cons in Hkids as [[_ Hwf1] _]. rewrite kids_walk_cons.
      intros [Hnil _]%app_eq_nil. by eapply wf_walk_nonempty. }
    destruct (last (kids_walk kids)) as [hi|] eqn:Hlast;
      [|by apply last_None in Hlast].
    exists hi. split.
    { rewrite last_app. by rewrite Hlast. }
    csimpl in Hs. apply StronglySorted_inv in Hs as [_ Hx].
    rewrite Forall_forall in Hx. apply Hx, list_elem_of_fmap_2.
    by apply last_Some_elem_of.
Qed.

Lemma model_find_key ops x (lf : leafNode V) :
  t_find (model ops) x = Some lf → key lf = x.
Proof.
  induction ops as [|o ops IH] using rev_ind.
  { by destruct x. }
  rewrite model_snoc, find_apply_op by apply wf_model.
  destruct o as [k v|k]; case_bool_decide; try done. by intros [= <-].
Qed.

(** The listing of a built tree holds exactly the entries of its history. *)
Lemma model_walk ops k (v : V) :
  (k, v) ∈ t_walk (model ops) ↔ history_get ops k = Some v.
Proof.
  rewrite (walk_find_root _ k v (wf_model ops)), <-model_get. unfold t_get.
  split; [by intros ->|].
  destruct (t_find (model ops) k) as [[k' v']|] eqn:Hf; [|done].
  intros [= ->]. by rewrite <-(model_find_key _ _ _ Hf).
Qed.

(** C5: on a tree built from any history, the entries that repeated calls
    of [Next] emit after [SeekLowerBound] of a key [Q] are the entries of
    the history in strictly ascending order of their keys, without those
    whose key is below [Q]. *)
Theorem C5_seek_lower_bound ops (Q : list byte) :
  ∃ T h sorted n0,
    build ops empty_heap = Ok T h
    ∧ StronglySorted lex_lt sorted.*1
    ∧ (∀ k v, (k, v) ∈ sorted ↔ history_get ops k = Some v)
    ∧ ∀ m, ∃ it,
        SeekLowerBound (n0 + m) (Node_Iterator (tree_root T)) Q h = Ok it h
        ∧ collect (n0 + m) it h
          = Ok (filter (λ kv, ¬ lex_lt kv.1 Q) sorted) h.
Proof.
  destruct (build_spec ops) as (T & h & Hb & [Hr Hwf]).
  exists T, h, (t_walk (model ops)), (S (length Q) `max` (pops (model ops) + 2)).
  split; [done|]. split; [by eapply walk_sorted|]. split; [apply model_walk|].
  intros m. set (fuel := _ + m).
  destruct (seek_spec (model ops) fuel h (tree_root T) true [] Q [] [] Hr Hwf)
    as (st & ts & Hseek & Hst & Hpend & Hpops); [lia|constructor|].
  rewrite (wf_root_prefix _ Hwf), app_nil_r in Hpend. cbn [app] in Hpend.
  exists (MkIterator (tree_root T) st). split.
  { unfold SeekLowerBound, Node_Iterator. cbn [it_node].
    by rewrite (bind_ok _ _ _ _ _ Hseek). }
  rewrite <-Hpend. apply collect_spec; [done|].
  change (stack_pops []) with 0 in Hpops. lia.
Qed.

(** C8: a client that starts with nothing and calls the public operations
    in any order on the trees and transactions it obtains never reaches
    the panic of [replaceEdge]: with enough fuel for its walks every call
    returns, and with less the only failure is the lack of fuel. *)
Theorem C8_replaceEdge_finds_its_edge (cs : list (call V)) :
  (∃ n0, ∀ m, ∃ s h, run (n0 + m) (Session [] []) cs empty_heap = Ok s h)
  ∧ (∀ fuel, run fuel (Session [] []) cs empty_heap ≠ Panic ReplacingMissingEdge).
Proof.
  assert (session_inv (V:=V) empty_heap (Session [] [])) as Hinv by (by split).
  destruct (run_spec cs _ _ Hinv) as (n0 & s & h & Hrun & Hrun'). split.
  - exists n0. intros m. exists s, h. apply Hrun. lia.
  - intros fuel. by destruct (Hrun' fuel) as [-> | ->].
Qed.

(** C10: [Txn.Commit] reports a mutation exactly when an operation of the
    transaction replaced its working root.  Every [Txn.Insert] does, also
    of a key that is present; a transaction that only deletes absent keys,
    or does nothing, reports none and commits the tree it started from. *)
Theorem C10_commit_reports_replaced_root ops (tops : list (op V)) :
  ∃ T h (x : Txn) h' (replaced : bool),
    build ops empty_heap = Ok T h
    ∧ txn_ops (Tree_Txn T) tops h = Ok x h'
    ∧ root_replaced (Tree_Txn T) tops h = Ok replaced h'
    ∧ (Txn_Commit x).2 = replaced
    ∧ (existsb is_insert tops = true → (Txn_Commit x).2 = true)
    ∧ (Forall (λ o, is_insert o = false
                    ∧ Tree_Get T (op_key o) h = Ok None h) tops →
       (Txn_Commit x).2 = false)
    ∧ ((Txn_Commit x).2 = false → (Txn_Commit x).1 = T ∧ h' = h).
Proof.
  destruct (build_spec ops) as (T & h & Hb & Hinv).
  destruct (txn_ops_spec tops h (Tree_Txn T) _ Hinv)
    as (x & h' & b & Hrun & Hext & Horig & Hinv' & Hrep & Hb' & Hins & Hdel).
  pose proof (tree_inv_alloc _ _ _ Hinv) as Hlt. cbn [Tree_Txn root orig] in *.
  assert ((Txn_Commit x).2 = b) as Hmut.
  { unfold Txn_Commit. cbn [snd]. rewrite Horig. destruct b.
    - apply bool_decide_eq_true_2. lia.
    - destruct Hb' as [-> _]. by apply bool_decide_eq_false_2; intros H; apply H. }
  exists T, h, x, h', b. do 4 (split; [done|]). split; [|split].
  - intros Hi. by rewrite Hmut, (Hins Hi).
  - intros Hall. rewrite Hmut. apply Hdel.
    eapply Forall_impl; [exact Hall|]. intros o [Hi Hg]. split; [done|].
    rewrite (Tree_Get_spec _ _ _ (op_key o) Hinv) in Hg. by injection Hg.
  - rewrite Hmut. intros ->. destruct Hb' as [-> ->]. split; [|done].
    unfold Txn_Commit. by destruct T.
Qed.

End Specification.

(** *** Instances *)

Lemma C7_delete_absent_witness :
  ∃ T h,
    build [Insert key_a 1] empty_heap = Ok T h
    ∧ Tree_Get T key_b h = Ok None h
    ∧ Tree_Delete T key_b h = Ok (T, None) h.
Proof.
  eexists _, _. split; [reflexivity|]. split; [reflexivity|].
  apply (C7_delete_absent_is_identity [Insert key_a 1]); reflexivity.
Defined.

(** One transaction that inserts ["ab"], ["ac"] and ["b"] and deletes
    ["ac"] and ["b"] again, and is then committed: the first deletion
    merges the node of ["a"] with its last child, the second leaves the
    root with one edge. *)
Definition merge_calls : list (call nat) :=
  [CallNew; CallTxn 0;
   CallOp (OfTxn 0) (Insert ["a"; "b"]%byte 1);
   CallOp (OfTxn 0) (Insert ["a"; "c"]%byte 2);
   CallOp (OfTxn 0) (Insert ["b"]%byte 3);
   CallOp (OfTxn 0) (Delete ["a"; "c"]%byte);
   CallOp (OfTxn 0) (Delete ["b"]%byte);
   CallCommit 0].

(** The heap at the end of these calls. *)
Definition merge_heap : heap nat :=
  Eval vm_compute in
    match run 0 (Session [] []) merge_calls empty_heap with
    | Ok _ h => h
    | Panic _ => empty_heap
    end.

Lemma C4_merge_child_witness :
  ∃ nd rd,
    run 0 (Session [] []) merge_calls empty_heap
    = Ok (Session [MkTree 0; MkTree 13] [MkTxn 13 0]) merge_heap
    ∧ node_of merge_heap 13 10 ∧ 10 ≠ 13
    ∧ nodes merge_heap !! 10 = Some nd ∧ prefix nd = ["a"; "b"]%byte
    ∧ ¬ (leaf nd = None ∧ len (edges nd) = 1)
    ∧ nodes merge_heap !! 13 = Some rd
    ∧ Get 13 [] merge_heap = Ok None merge_heap
    ∧ Get 13 ["a"; "b"]%byte merge_heap = Ok (Some 1) merge_heap
    ∧ (∀ (b' : byte) k v,
         Get 13 (b' :: k) merge_heap = Ok (Some v) merge_heap → b' = "a"%byte)
    ∧ leaf rd = None ∧ len (edges rd) = 1 ∧ prefix rd = [].
Proof.
  destruct (C4_merge_child_invariant merge_calls) as (n0 & s & h & Hrun & Hall).
  assert (run (n0 + 0) (Session [] []) merge_calls empty_heap
          = Ok (Session [MkTree 0; MkTree 13] [MkTxn 13 0]) merge_heap) as Hrun0
    by (vm_compute; reflexivity).
  rewrite (Hrun 0) in Hrun0. injection Hrun0 as -> ->.
  destruct (Hall (OfTree 1) 13 eq_refl)
    as (Hbelow & rd & es & Hrd & Hv & Hpre & Hleaf & Hedges & Hone).
  vm_compute in Hrd. injection Hrd as <-.
  destruct Hv as (l & Hl & _ & ->). vm_compute in Hl. injection Hl as <-.
  change (take _ _) with [Edge "a"%byte (Some 10)] in Hedges.
  assert (node_of merge_heap 13 10) as Hof.
  { eapply (node_of_child _ 13 _ [Edge "a"%byte (Some 10)] (Edge "a"%byte (Some 10)) 10 10);
      [reflexivity| |apply list_elem_of_singleton; reflexivity|reflexivity
      |apply node_of_self].
    eexists. split; [reflexivity|]. split; [simpl; lia|reflexivity]. }
  assert (∀ (b' : byte) k v,
            Get 13 (b' :: k) merge_heap = Ok (Some v) merge_heap → b' = "a"%byte)
    as Honly.
  { intros b' k v Hget.
    assert (b' ∈ label <$> [Edge "a"%byte (Some 10)]) as Hin
      by (apply Hedges; eauto).
    by apply list_elem_of_singleton in Hin. }
  eexists _, _. split; [vm_compute; reflexivity|]. split; [exact Hof|].
  split; [lia|]. split; [reflexivity|]. split; [reflexivity|].
  split; [apply (Hbelow 10); [exact Hof|lia|reflexivity]|].
  split; [reflexivity|].
  split; [vm_compute; reflexivity|]. split; [vm_compute; reflexivity|].
  split; [exact Honly|].
  destruct (Hone "a"%byte) as [Hlf Hlen];
    [vm_compute; reflexivity
    |exists ["b"%byte], 1; vm_compute; reflexivity
    |exact Honly|].
  split; [exact Hlf|]. split; [exact Hlen|reflexivity].
Defined.

Lemma C10_commit_witness :
  (∃ T h (x : Txn) h',
     build [Insert key_a 1] empty_heap = Ok T h
     ∧ txn_ops (Tree_Txn T) [Insert key_a 1] h = Ok x h'
     ∧ (Txn_Commit x).2 = true)
  ∧ (∃ T h (x : Txn) h',
       build [Insert key_a 1] empty_heap = Ok T h
       ∧ txn_ops (Tree_Txn T) [Delete key_b] h = Ok x h'
       ∧ (Txn_Commit x).2 = false
       ∧ (Txn_Commit x).1 = T).
Proof.
  split.
  - destruct (C10_commit_reports_replaced_root [Insert key_a 1] [Insert key_a 1])
      as (T & h & x & h' & b & Hb & Hrun & _ & _ & Hins & _).
    exists T, h, x, h'. split; [exact Hb|]. split; [exact Hrun|].
    apply Hins. reflexivity.
  - destruct (C10_commit_reports_replaced_root [Insert key_a 1] [Delete key_b])
      as (T & h & x & h' & b & Hb & Hrun & _ & _ & _ & Hdel & Hsame).
    assert ((Txn_Commit x).2 = false) as Hmut.
    { apply Hdel. apply Forall_singleton. split; [reflexivity|].
      assert (build [Insert key_a 1] empty_heap
              = Ok (MkTree 2)
                   (Heap [MkNode None [] nil_slice;
                          MkNode (Some (LeafNode key_a 1)) key_a nil_slice;
                          MkNode None [] (Slice (Some 0) 0 1)]
                         [[Edge "a"%byte (Some 1)]])) as Hb'
        by (vm_compute; reflexivity).
      rewrite Hb' in Hb. injection Hb as <- <-. vm_compute. reflexivity. }
    exists T, h, x, h'. split; [exact Hb|]. split; [exact Hrun|].
    split; [exact Hmut|]. by destruct (Hsame Hmut).
Defined.

Lemma C6_reinsert_counterexample :
  ∃ T h T2 h2,
    build [Insert key_a 1] empty_heap = Ok T h
    ∧ insert_then_delete T key_a 2 h = Ok T2 h2
    ∧ listing 2 T h = Ok [(key_a, 1)] h
    ∧ listing 2 T2 h2 = Ok [] h2
    ∧ [(key_a, 1)] ≠ ([] : list (list byte * nat)).
Proof.
  eexists _, _, _, _. split; [vm_compute; reflexivity|].
  split; [vm_compute; reflexivity|]. split; [vm_compute; reflexivity|].
  split; [vm_compute; reflexivity|]. discriminate.
Qed.

Lemma C6_insert_then_delete_witness :
  ∃ T h,
    build [Insert key_a 1] empty_heap = Ok T h
    ∧ Tree_Get T key_b h = Ok None h
    ∧ ∃ T2 h2 l n0,
        insert_then_delete T key_b 2 h = Ok T2 h2
        ∧ ∀ m, listing (n0 + m) T h = Ok l h
               ∧ listing (n0 + m) T2 h2 = Ok l h2.
Proof.
  eexists _, _. split; [vm_compute; reflexivity|].
  split; [vm_compute; reflexivity|].
  apply (C6_insert_then_delete_absent [Insert key_a 1]); vm_compute; reflexivity.
Defined.

Lemma C9_minimum_maximum_witness :
  ∃ T h,
    build [Insert key_a 1; Insert key_b 2] empty_heap = Ok T h
    ∧ node_of h (tree_root T) (tree_root T)
    ∧ ∃ l n0,
        (∀ m, Walk (n0 + m) (tree_root T) (λ _ _, false) h = Ok l h
              ∧ Minimum (n0 + m) (tree_root T) h = Ok (head l) h
              ∧ Maximum (n0 + m) (tree_root T) h = Ok (last l) h)
        ∧ StronglySorted lex_lt l.*1
        ∧ Forall (λ kv, ∀ lo hi, head l = Some lo → last l = Some hi →
                        ¬ lex_lt kv.1 lo.1 ∧ ¬ lex_lt hi.1 kv.1) l
        ∧ (∀ nd lf, nodes h !! tree_root T = Some nd → leaf nd = Some lf →
                    0 < len (edges nd) →
                    ∃ hi, last l = Some hi ∧ lex_lt (key lf) hi.1).
Proof.
  eexists _, _. split; [vm_compute; reflexivity|].
  split; [apply node_of_self|].
  eapply (C9_minimum_maximum [Insert key_a 1; Insert key_b 2] (MkTree _));
    [vm_compute; reflexivity|apply node_of_self].
Defined.

(** * Further properties of the code *)

Section Further.

Context {V : Type}.

Implicit Types (h g : heap V) (a n : addr) (t : tree V).
Implicit Types (o : op V) (ops : list (op V)) (k : list byte) (T : Tree).

Lemma build_get ops T h k :
  build ops empty_heap = Ok T h → Tree_Get T k h = Ok (history_get ops k) h.
Proof.
  intros Hb. rewrite (Tree_Get_spec _ _ _ k (build_inv _ _ _ Hb)). by rewrite model_get.
Qed.

Lemma model_app ops ops' : model (ops ++ ops') = foldl apply_op (model ops) ops'.
Proof. unfold model. by rewrite foldl_app. Qed.

Lemma history_get_snoc ops o k :
  history_get (ops ++ [o]) k
  = match o with
    | Insert k' v => if bool_decide (k' = k) then Some v else history_get ops k
    | Delete k' => if bool_decide (k' = k) then None else history_get ops k
    end.
Proof. unfold history_get. rewrite rev_unit. by destruct o. Qed.

(** Trees with the same contents have the same unfolding. *)
Lemma model_ext ops1 ops2 :
  (∀ k, history_get ops1 k = history_get ops2 k) → model ops1 = model ops2.
Proof.
  intros Heq. apply (wf_canonical _ _ true []); [apply wf_model..|].
  apply sorted_unique; [eapply walk_sorted, wf_model..|].
  intros [k v]. by rewrite !model_walk, Heq.
Qed.

(** X1: [Tree.Insert] returns the value that the key had before, if any,
    and a tree in which the key has the new value and every other key the
    value it had; the tree it was called on still answers as before. *)
Theorem X1_insert_returns_previous ops k (v : V) :
  ∃ T h T' h',
    build ops empty_heap = Ok T h
    ∧ Tree_Insert T k v h = Ok (T', history_get ops k) h'
    ∧ (∀ k', Tree_Get T' k' h'
             = Ok (if bool_decide (k = k') then Some v else history_get ops k') h')
    ∧ (∀ k', Tree_Get T k' h' = Ok (history_get ops k') h').
Proof.
  destruct (build_spec ops) as (T & h & Hb & Hinv).
  destruct (Tree_op_spec h T _ (Insert k v) Hinv) as (T' & h' & Hop & Hext & Hinv' & _).
  exists T, h, T', h'. split; [done|]. split; [|split].
  - cbn [Tree_op op_key] in Hop. by rewrite Hop, model_get.
  - intros k'. rewrite (Tree_Get_spec _ _ _ k' Hinv').
    rewrite (get_apply_op _ (Insert k v)) by apply wf_model. by rewrite model_get.
  - intros k'. rewrite (Tree_Get_spec _ _ _ k' (tree_inv_ext _ _ _ _ Hext Hinv)).
    by rewrite model_get.
Qed.

(** X2: [Tree.Delete] returns the value that the key had, if any, and a
    tree in which the key is absent and every other key has the value it
    had; the tree it was called on still answers as before. *)
Theorem X2_delete_returns_removed ops k :
  ∃ T h T' h',
    build ops empty_heap = Ok T h
    ∧ Tree_Delete T k h = Ok (T', history_get ops k) h'
    ∧ (∀ k', Tree_Get T' k' h'
             = Ok (if bool_decide (k = k') then None else history_get ops k') h')
    ∧ (∀ k', Tree_Get T k' h' = Ok (history_get ops k') h').
Proof.
  destruct (build_spec ops) as (T & h & Hb & Hinv).
  destruct (Tree_op_spec h T _ (Delete k) Hinv) as (T' & h' & Hop & Hext & Hinv' & _).
  exists T, h, T', h'. split; [done|]. split; [|split].
  - cbn [Tree_op op_key] in Hop. by rewrite Hop, model_get.
  - intros k'. rewrite (Tree_Get_spec _ _ _ k' Hinv').
    rewrite (get_apply_op _ (Delete k)) by apply wf_model. by rewrite model_get.
  - intros k'. rewrite (Tree_Get_spec _ _ _ k' (tree_inv_ext _ _ _ _ Hext Hinv)).
    by rewrite model_get.
Qed.

(** X3: inside a transaction [Txn.Get] sees the operations that the
    transaction has done so far, on top of the tree it was started from,
    while that tree does not see them. *)
Theorem X3_txn_reads_its_writes ops (tops : list (op V)) k :
  ∃ T h (x : Txn) h',
    build ops empty_heap = Ok T h
    ∧ txn_ops (Tree_Txn T) tops h = Ok x h'
    ∧ Txn_Get x k h' = Ok (history_get (ops ++ tops) k) h'
    ∧ Tree_Get T k h' = Ok (history_get ops k) h'.
Proof.
  destruct (build_spec ops) as (T & h & Hb & Hinv).
  destruct (txn_ops_spec tops h (Tree_Txn T) _ Hinv)
    as (x & h' & b & Hrun & Hext & _ & Hinv' & _).
  exists T, h, x, h'. split; [done|]. split; [done|]. split.
  - rewrite (Txn_Get_spec _ _ _ k Hinv'). by rewrite <-model_app, model_get.
  - rewrite (Tree_Get_spec _ _ _ k (tree_inv_ext _ _ _ _ Hext Hinv)).
    by rewrite model_get.
Qed.

(** X4: [Txn.Commit] does not end a transaction, and what the
    transaction does afterwards does not reach the tree that it has
    committed: that tree keeps the contents it was committed with. *)
Theorem X4_commit_is_a_snapshot ops (tops more : list (op V)) k :
  ∃ T h (x : Txn) h1 (x' : Txn) h2,
    build ops empty_heap = Ok T h
    ∧ txn_ops (Tree_Txn T) tops h = Ok x h1
    ∧ txn_ops x more h1 = Ok x' h2
    ∧ Tree_Get (Txn_Commit x).1 k h1 = Ok (history_get (ops ++ tops) k) h1
    ∧ Tree_Get (Txn_Commit x).1 k h2 = Ok (history_get (ops ++ tops) k) h2
    ∧ Txn_Get x' k h2 = Ok (history_get (ops ++ tops ++ more) k) h2.
Proof.
  destruct (build_spec ops) as (T & h & Hb & Hinv).
  destruct (txn_ops_spec tops h (Tree_Txn T) _ Hinv)
    as (x & h1 & b & Hrun & _ & _ & Hinv1 & _).
  destruct (txn_ops_spec more h1 x _ Hinv1)
    as (x' & h2 & b' & Hrun' & Hext & _ & Hinv2 & _).
  exists T, h, x, h1, x', h2. do 3 (split; [done|]).
  assert (tree_inv h1 (tree_root (Txn_Commit x).1) (model (ops ++ tops))) as Hc
    by (by rewrite model_app).
  split; [|split].
  - by rewrite (Tree_Get_spec _ _ _ k Hc), model_get.
  - by rewrite (Tree_Get_spec _ _ _ k (tree_inv_ext _ _ _ _ Hext Hc)), model_get.
  - rewrite (Txn_Get_spec _ _ _ k Hinv2). rewrite <-!model_app, model_get.
    by rewrite <-app_assoc.
Qed.

(** X5: [Walk] hands its callback the entries of the tree in ascending
    order of their keys, up to and including the first entry on which the
    callback returns true; the entries of the tree are exactly the keys
    that [Get] finds, with their values. *)
Theorem X5_walk_lists_what_get_finds ops (fn : WalkFn) :
  ∃ T h all n0,
    build ops empty_heap = Ok T h
    ∧ StronglySorted lex_lt all.*1
    ∧ (∀ k v, (k, v) ∈ all ↔ Tree_Get T k h = Ok (Some v) h)
    ∧ ∀ m, Walk (n0 + m) (tree_root T) fn h = Ok (until fn all) h.
Proof.
  destruct (build_spec ops) as (T & h & Hb & Hinv).
  exists T, h, (t_walk (model ops)), (height (model ops)).
  split; [done|]. split; [eapply walk_sorted, wf_model|]. split.
  - intros k v. rewrite model_walk, (build_get _ _ _ k Hb).
    split; [by intros ->|by intros [= ->]].
  - intros m. destruct Hinv as [Hr _]. apply Walk_refines; [done|lia].
Qed.

(** X6: [WalkBackwards] visits the entries that [Walk] visits.  It hands
    over a key before every key that it is a proper prefix of, and else
    the greater key first; this is the order of [Walk] read backwards
    when no key of the tree is a proper prefix of another.  It stops
    after the first entry on which the callback returns true. *)
Theorem X6_walk_backwards ops (fn : WalkFn) :
  ∃ T h fwd bwd n0,
    build ops empty_heap = Ok T h
    ∧ (∀ m, listing (n0 + m) T h = Ok fwd h
            ∧ WalkBackwards (n0 + m) (tree_root T) fn h = Ok (until fn bwd) h)
    ∧ bwd ≡ₚ fwd
    ∧ StronglySorted rev_before bwd.*1
    ∧ ((∀ kv1 kv2, kv1 ∈ fwd → kv2 ∈ fwd →
                   HasPrefix kv2.1 kv1.1 = true → kv1.1 = kv2.1) →
       bwd = rev fwd).
Proof.
  destruct (build_spec ops) as (T & h & Hb & [Hr Hwf]).
  exists T, h, (t_walk (model ops)), (t_walk_rev (model ops)), (height (model ops)).
  split; [done|]. split; [|split; [|split]].
  - intros m. split; [apply listing_spec; [done|lia]|].
    apply WalkBackwards_refines; [done|lia].
  - apply t_walk_rev_perm.
  - by eapply walk_rev_sorted.
  - intros Hfree. apply t_walk_rev_leaves_only.
    by eapply prefix_free_leaves_only.
Qed.

(** X7: [WalkPrefix] hands its callback the entries whose key starts with
    the given prefix, in ascending order of their keys, up to and
    including the first entry on which the callback returns true. *)
Theorem X7_walk_prefix ops (p : list byte) (fn : WalkFn) :
  ∃ T h all n0,
    build ops empty_heap = Ok T h
    ∧ ∀ m, listing (n0 + m) T h = Ok all h
           ∧ WalkPrefix (n0 + m) (tree_root T) p fn h
             = Ok (until fn (filter (λ kv, HasPrefix kv.1 p = true) all)) h.
Proof.
  destruct (build_spec ops) as (T & h & Hb & [Hr Hwf]).
  exists T, h, (t_walk (model ops)), (height (model ops)).
  split; [done|]. intros m. split; [apply listing_spec; [done|lia]|].
  unfold WalkPrefix.
  rewrite (WalkPrefix_loop_spec _ _ _ _ _ true [] p fn Hr Hwf);
    [|unfold depth_bound; lia|lia].
  by rewrite (wf_root_prefix _ Hwf).
Qed.

(** X8: [WalkPath] hands its callback the entries whose key is a prefix
    of the given path, the shortest key first, up to and including the
    first entry on which the callback returns true. *)
Theorem X8_walk_path ops (p : list byte) (fn : WalkFn) :
  ∃ T h all n0,
    build ops empty_heap = Ok T h
    ∧ (∀ m, listing (n0 + m) T h = Ok all h)
    ∧ WalkPath (tree_root T) p fn h
      = Ok (until fn (filter (λ kv, HasPrefix p kv.1 = true) all)) h.
Proof.
  destruct (build_spec ops) as (T & h & Hb & [Hr Hwf]).
  exists T, h, (t_walk (model ops)), (height (model ops)).
  split; [done|]. split; [intros m; apply listing_spec; [done|lia]|].
  unfold WalkPath.
  rewrite (WalkPath_loop_spec _ _ _ _ true [] p fn [] Hr Hwf);
    [|unfold depth_bound; lia].
  by rewrite (wf_root_prefix _ Hwf).
Qed.

(** X9: inside a transaction [Txn.Insert] and [Txn.Delete] return the
    value that the transaction sees for the key at that moment: the one of
    its own last write if it has written the key, else the one of the tree
    it was started from. *)
Theorem X9_txn_feedback ops (tops : list (op V)) o :
  ∃ T h (x : Txn) h1 (x' : Txn) h2,
    build ops empty_heap = Ok T h
    ∧ txn_ops (Tree_Txn T) tops h = Ok x h1
    ∧ Txn_op x o h1 = Ok (x', history_get (ops ++ tops) (op_key o)) h2.
Proof.
  destruct (build_spec ops) as (T & h & Hb & Hinv).
  destruct (txn_ops_spec tops h (Tree_Txn T) _ Hinv)
    as (x & h1 & b & Hrun & _ & _ & Hinv1 & _).
  destruct (Txn_op_spec h1 x _ o Hinv1) as (x' & h2 & Hop & _).
  exists T, h, x, h1, x', h2. split; [done|]. split; [done|].
  by rewrite Hop, <-model_app, model_get.
Qed.

(** X10: the empty key is stored at the root, and [Minimum] on the root
    returns it whenever it is present. *)
Theorem X10_empty_key_is_minimum ops T h (v : V) :
  build ops empty_heap = Ok T h →
  Tree_Get T [] h = Ok (Some v) h →
  (∃ rd, nodes h !! tree_root T = Some rd ∧ leaf rd = Some (LeafNode [] v))
  ∧ ∀ m, Minimum (S m) (tree_root T) h = Ok (Some ([], v)) h.
Proof.
  intros Hb Hget. rewrite (build_get _ _ _ _ Hb), <-model_get in Hget.
  injection Hget as Hget. destruct (build_inv _ _ _ Hb) as [Hr _].
  pose proof (model_find_key ops []) as Hkey.
  destruct (model ops) as [lf pre kids]. unfold t_get in Hget. cbn [t_find] in *.
  destruct lf as [[k' v']|]; [|done]. injection Hget as ->.
  specialize (Hkey _ eq_refl). cbn [key] in Hkey. subst k'.
  apply repr_inv in Hr as (sl & es & Hn & _). split; [by eexists|].
  intros m. cbn [Minimum]. by rewrite (bind_ok _ _ _ _ _ (read_node_ok _ _ _ Hn)).
Qed.

(** X11: a tree from which every key has been deleted is the empty tree
    again: its root has no leaf, no prefix and no edges. *)
Theorem X11_emptied_tree_is_empty ops T h :
  build ops empty_heap = Ok T h →
  (∀ k, Tree_Get T k h = Ok None h) →
  ∃ rd, nodes h !! tree_root T = Some rd
        ∧ leaf rd = None ∧ prefix rd = [] ∧ len (edges rd) = 0.
Proof.
  intros Hb Hnone. destruct (build_inv _ _ _ Hb) as [Hr Hwf].
  assert (model ops = Tr None [] []) as Hm.
  { apply (wf_canonical _ _ true []); [apply wf_model|apply wf_empty_root|].
    destruct (t_walk (model ops)) as [|[k v] W] eqn:HW; [done|].
    assert ((k, v) ∈ t_walk (model ops)) as Hin by (rewrite HW; left).
    apply model_walk in Hin. specialize (Hnone k).
    rewrite (build_get _ _ _ _ Hb), Hin in Hnone. done. }
  rewrite Hm in Hr. apply repr_inv in Hr as (sl & es & Hn & Hv & Hes).
  eexists. split; [exact Hn|]. cbn [leaf prefix edges].
  apply Forall2_nil_inv_r in Hes as ->.
  by rewrite <-(view_length _ _ _ Hv).
Qed.

(** X12: in every node of a built tree the edges are in strictly
    ascending order of their labels, and every edge leads to a node whose
    prefix starts with the label of the edge; the prefix of the root is
    empty. *)
Theorem X12_edges_sorted_and_labelled ops T h n nd es :
  build ops empty_heap = Ok T h →
  node_of h (tree_root T) n →
  nodes h !! n = Some nd → view h (edges nd) es →
  ascending (label <$> es)
  ∧ Forall (λ e, ∃ c cd, node e = Some c ∧ nodes h !! c = Some cd
                         ∧ head (prefix cd) = Some (label e)) es
  ∧ ∃ rd, nodes h !! tree_root T = Some rd ∧ prefix rd = [].
Proof.
  intros Hb Hof Hn Hv. destruct (build_inv _ _ _ Hb) as [Hr Hwf].
  destruct (node_of_repr _ _ _ Hof _ _ _ Hr Hwf)
    as ([lf pre kids] & r' & path' & Hd & Hwfd & _).
  apply repr_inv in Hd as (sl & es' & Hn' & Hv' & Hes).
  rewrite Hn in Hn'. injection Hn' as ->. cbn [edges] in Hv.
  rewrite <-(view_fun _ _ _ _ Hv Hv') in Hes.
  apply wf_inv in Hwfd as (_ & _ & Hasc & _ & Hkids).
  split; [by rewrite (edges_repr_labels _ _ _ Hes)|]. split.
  - apply Forall_forall. intros e [i He]%list_elem_of_lookup_1.
    destruct (Forall2_lookup_l _ _ _ _ _ Hes He) as ([l t1] & Hk & Hl & c & Hc & Hrc).
    rewrite Forall_forall in Hkids.
    destruct (Hkids (l, t1)) as [Hhd _]; [by eapply list_elem_of_lookup_2|].
    cbn [fst snd] in *. destruct t1 as [lf1 p1 kids1].
    apply repr_inv in Hrc as (sl1 & es1 & Hcn & _).
    exists c, (MkNode lf1 p1 sl1). by rewrite Hl.
  - pose proof (wf_root_prefix _ Hwf) as Hp.
    destruct (model ops) as [lf0 pre0 kids0]. cbn [t_prefix] in Hp. subst pre0.
    apply repr_inv in Hr as (sl0 & es0 & Hn0 & _). by eexists.
Qed.

(** X13: the shape of a tree depends on its contents only: two trees
    that answer every [Get] alike, however they were built, have equal
    deep copies. *)
Theorem X13_shape_follows_contents ops1 ops2 T1 h1 T2 h2 :
  build ops1 empty_heap = Ok T1 h1 →
  build ops2 empty_heap = Ok T2 h2 →
  (∀ k v, Tree_Get T1 k h1 = Ok v h1 → Tree_Get T2 k h2 = Ok v h2) →
  ∃ t n0, ∀ m,
    snapshot (n0 + m) h1 (tree_root T1) = Some t
    ∧ snapshot (n0 + m) h2 (tree_root T2) = Some t.
Proof.
  intros Hb1 Hb2 Hsame.
  destruct (build_inv _ _ _ Hb1) as [Hr1 _]. destruct (build_inv _ _ _ Hb2) as [Hr2 _].
  assert (model ops1 = model ops2) as Hm.
  { apply model_ext. intros k.
    pose proof (Hsame k _ (build_get _ _ _ k Hb1)) as H2.
    rewrite (build_get _ _ _ k Hb2) in H2. by injection H2. }
  rewrite <-Hm in Hr2. exists (model ops1), (height (model ops1)). intros m.
  split; apply snapshot_repr; (done || lia).
Qed.

(** X14: every leaf that a built tree holds is found by [Get] under the
    key that the leaf records, with the value of the leaf. *)
Theorem X14_leaves_are_found ops T h n nd (lf : leafNode V) :
  build ops empty_heap = Ok T h →
  node_of h (tree_root T) n →
  nodes h !! n = Some nd → leaf nd = Some lf →
  Tree_Get T (key lf) h = Ok (Some (val lf)) h.
Proof.
  intros Hb Hof Hn Hleaf. destruct (build_inv _ _ _ Hb) as [Hr Hwf].
  destruct (node_of_sub _ _ _ Hof _ _ _ Hr Hwf)
    as ([lf' pre kids] & r' & path' & Hd & _ & Hsub).
  apply repr_inv in Hd as (sl & es & Hn' & _).
  rewrite Hn in Hn'. injection Hn' as ->. cbn [leaf] in Hleaf. subst lf'.
  rewrite (build_get _ _ _ _ Hb). f_equal. apply model_walk, Hsub.
  rewrite t_walk_eq. apply elem_of_app. left. simpl. left.
Qed.

(** X15: on a node whose edges are in ascending order of their labels,
    [getEdge] returns the index and the child of the edge that carries the
    label, and -1 with no child when no edge carries it. *)
Theorem X15_getEdge_finds_the_label h n (nd : Node V) es (b : byte) :
  nodes h !! n = Some nd → view h (edges nd) es →
  ascending (label <$> es) →
  (∃ i e, es !! i = Some e ∧ label e = b
          ∧ getEdge n b h = Ok (Z.of_nat i, node e) h)
  ∨ ((b ∉ label <$> es) ∧ getEdge n b h = Ok ((-1)%Z, None) h).
Proof.
  intros Hn Hv Hasc. rewrite (getEdge_ok _ _ _ _ b Hn Hv). unfold find_edge.
  destruct (decide (b ∈ label <$> es)) as [Hin|Hnin].
  - left. apply list_elem_of_fmap in Hin as (e & -> & [i He]%list_elem_of_lookup_1).
    exists i, e. split; [done|]. split; [done|].
    rewrite (search_label_found es (label e) i e Hasc He eq_refl), He.
    by rewrite bool_decide_eq_true_2.
  - right. split; [done|].
    destruct (es !! search_label es b) as [e'|] eqn:He; [|done].
    rewrite bool_decide_eq_false_2; [done|]. intros <-. apply Hnin.
    apply list_elem_of_fmap. exists e'. split; [done|]. by eapply list_elem_of_lookup_2.
Qed.

(** X16: on a node whose edges are in ascending order of their labels,
    [getLowerBoundEdge] returns the first edge whose label is not below
    the given one, and -1 with no child when every label is below it. *)
Theorem X16_getLowerBoundEdge_is_least h n (nd : Node V) es (b : byte) :
  nodes h !! n = Some nd → view h (edges nd) es →
  ascending (label <$> es) →
  (∃ i e, es !! i = Some e ∧ byte_ltb (label e) b = false
          ∧ Forall (λ e', byte_ltb (label e') b = true) (take i es)
          ∧ getLowerBoundEdge n b h = Ok (Z.of_nat i, node e) h)
  ∨ (Forall (λ e', byte_ltb (label e') b = true) es
     ∧ getLowerBoundEdge n b h = Ok ((-1)%Z, None) h).
Proof.
  intros Hn Hv Hasc. rewrite (getLowerBoundEdge_ok _ _ _ _ b Hn Hv).
  destruct (search_label_split es b Hasc) as (Hle & Hlo & Hhi).
  destruct (es !! search_label es b) as [e|] eqn:He.
  - left. exists (search_label es b), e. split; [done|]. split; [|done].
    rewrite Forall_lookup in Hhi. apply (Hhi 0 e).
    by rewrite lookup_drop, Nat.add_0_r.
  - right. split; [|done]. apply lookup_ge_None in He.
    by rewrite take_ge in Hlo by lia.
Qed.

(** X17: on a node whose edges are in ascending order of their labels,
    [replaceEdge] redirects the edge that carries the label of the given
    edge by a write to its one cell of the backing array: the heap
    afterwards is the heap before with that cell overwritten, so no node,
    no other cell of the array and no other array changes.  It panics with
    "replacing missing edge" exactly when no edge carries that label. *)
Theorem X17_replaceEdge_or_panic h n (nd : Node V) es (e : edge) :
  nodes h !! n = Some nd → view h (edges nd) es →
  ascending (label <$> es) →
  (∃ i e' a l h',
     es !! i = Some e' ∧ label e' = label e
     ∧ arr (edges nd) = Some a ∧ arrays h !! a = Some l
     ∧ l !! (off (edges nd) + i) = Some e'
     ∧ h' = Heap (nodes h)
                 (<[a := <[off (edges nd) + i := Edge (label e) (node e)]> l]>
                    (arrays h))
     ∧ replaceEdge n e h = Ok () h'
     ∧ view h' (edges nd) (<[i := Edge (label e) (node e)]> es))
  ∨ ((label e ∉ label <$> es)
     ∧ replaceEdge n e h = Panic ReplacingMissingEdge).
Proof.
  intros Hn Hv Hasc. unfold replaceEdge.
  rewrite (bind_ok _ _ _ _ _ (read_node_ok _ _ _ Hn)).
  rewrite (bind_ok _ _ _ _ _ (elems_ok _ _ _ Hv)).
  pose proof (view_length _ _ _ Hv) as Hlen. rewrite <-Hlen.
  destruct (decide (label e ∈ label <$> es)) as [Hin|Hnin].
  - left. apply list_elem_of_fmap in Hin as (e' & Hl & Hin).
    pose proof Hin as [i He]%list_elem_of_lookup_1.
    rewrite (search_label_found es (label e) i e' Hasc He (eq_sym Hl)).
    pose proof (lookup_lt_Some _ _ _ He) as Hlt.
    destruct (Nat.ltb_spec i (length es)) as [_|?]; [|lia].
    rewrite (bind_ok _ _ _ _ _ (index_ok _ _ _ _ _ Hv He)).
    rewrite bool_decide_eq_true_2 by done.
    destruct (view_arr _ _ _ _ Hv Hin) as (a & l & Ha & Hl').
    pose proof Hv as (l0 & Hl0 & Hbound & Hes). rewrite Ha, Hl' in Hl0.
    injection Hl0 as <-.
    exists i, e', a, l,
      (Heap (nodes h)
            (<[a := <[off (edges nd) + i := Edge (label e) (node e)]> l]> (arrays h))).
    split; [done|]. split; [done|]. split; [done|]. split; [done|]. split.
    { rewrite Hes in He. apply lookup_take_Some in He as [He _].
      by rewrite lookup_drop in He. }
    split; [done|]. split.
    + rewrite Hl. destruct (edges nd) as [arr0 o k]. cbn [arr off len] in *. subst arr0.
      apply (set_index_ok h a o k l i _ Hl'); lia.
    + apply (view_insert h _ es a l); [done..|lia].
  - right. split; [done|].
    destruct (Nat.ltb_spec (search_label es (label e)) (length es)) as [Hlt|_]; [|done].
    destruct (lookup_lt_is_Some_2 es _ Hlt) as [e' He].
    rewrite (bind_ok _ _ _ _ _ (index_ok _ _ _ _ _ Hv He)).
    rewrite bool_decide_eq_false_2; [done|]. intros Heq. apply Hnin.
    apply list_elem_of_fmap. exists e'. split; [done|]. by eapply list_elem_of_lookup_2.
Qed.

End Further.

Lemma common_prefix_le (a : list byte) : ∀ (b : list byte) n,
  n ≤ length a → n ≤ length b → take n a = take n b → n ≤ longestPrefix a b.
Proof.
  induction a as [|x a IH]; intros [|y b] [|n]; simpl; try lia.
  intros Ha Hb [= -> Heq]. rewrite bool_decide_eq_true_2 by done.
  pose proof (IH b n ltac:(lia) ltac:(lia) Heq). lia.
Qed.

(** X18: [longestPrefix] is the length of the longest common prefix of
    its arguments: a number is the length of a common prefix exactly when
    it is at most [longestPrefix]. *)
Theorem X18_longestPrefix_is_longest (a b : list byte) (n : nat) :
  (n ≤ length a ∧ n ≤ length b ∧ take n a = take n b) ↔ n ≤ longestPrefix a b.
Proof.
  split; [intros (Ha & Hb & Heq); by apply common_prefix_le|].
  intros Hn. pose proof (longestPrefix_le_l a b). pose proof (longestPrefix_le_r a b).
  split; [lia|]. split; [lia|].
  rewrite <-(Nat.min_l n (longestPrefix a b)) by lia.
  by rewrite <-!take_take, longestPrefix_take.
Qed.

(** *** Instances *)

(** The heap after ["a"] is inserted into the empty tree: the old root,
    the leaf node of ["a"], and the new root with its one edge. *)
Definition heap_a : heap nat :=
  Heap [MkNode None [] nil_slice;
        MkNode (Some (LeafNode key_a 1)) key_a nil_slice;
        MkNode None [] (Slice (Some 0) 0 1)]
       [[Edge "a"%byte (Some 1)]].

Lemma build_a : build [Insert key_a 1] empty_heap = Ok (MkTree 2) heap_a.
Proof. vm_compute. reflexivity. Defined.

Lemma view_root_a : view heap_a (Slice (Some 0) 0 1) [Edge "a"%byte (Some 1)].
Proof.
  exists [Edge "a"%byte (Some 1)]. split; [reflexivity|]. split; [simpl; lia|reflexivity].
Defined.

Lemma node_of_leaf_a : node_of heap_a 2 1.
Proof.
  eapply (node_of_child _ 2 _ [Edge "a"%byte (Some 1)] (Edge "a"%byte (Some 1)) 1 1);
    [reflexivity|exact view_root_a|apply list_elem_of_singleton; reflexivity
    |reflexivity|apply node_of_self].
Defined.

Lemma ascending_a : ascending (label <$> [Edge "a"%byte (Some 1)]).
Proof. repeat constructor. Defined.

Lemma X10_empty_key_witness :
  ∃ T h,
    build [Insert [] 7; Insert key_a 1] empty_heap = Ok T h
    ∧ Tree_Get T [] h = Ok (Some 7) h
    ∧ (∃ rd, nodes h !! tree_root T = Some rd ∧ leaf rd = Some (LeafNode [] 7))
    ∧ ∀ m, Minimum (S m) (tree_root T) h = Ok (Some ([], 7)) h.
Proof.
  eexists _, _. split; [vm_compute; reflexivity|].
  split; [vm_compute; reflexivity|].
  eapply (X10_empty_key_is_minimum [Insert [] 7; Insert key_a 1] (MkTree _));
    vm_compute; reflexivity.
Defined.

Lemma X11_emptied_tree_witness :
  ∃ T h,
    build [Insert key_a 1; Delete key_a] empty_heap = Ok T h
    ∧ (∀ k, Tree_Get T k h = Ok None h)
    ∧ ∃ rd, nodes h !! tree_root T = Some rd
            ∧ leaf rd = None ∧ prefix rd = [] ∧ len (edges rd) = 0.
Proof.
  destruct (build_spec [Insert key_a 1; Delete key_a]) as (T & h & Hb & _).
  assert (∀ k, Tree_Get T k h = Ok None h) as Hnone.
  { intros k. rewrite (build_get _ _ _ k Hb). unfold history_get. simpl.
    by case_bool_decide. }
  exists T, h. split; [exact Hb|]. split; [exact Hnone|].
  exact (X11_emptied_tree_is_empty _ T h Hb Hnone).
Defined.

Lemma X12_edges_witness :
  build [Insert key_a 1] empty_heap = Ok (MkTree 2) heap_a
  ∧ node_of heap_a 2 2
  ∧ nodes heap_a !! 2 = Some (MkNode None [] (Slice (Some 0) 0 1))
  ∧ view heap_a (Slice (Some 0) 0 1) [Edge "a"%byte (Some 1)]
  ∧ ascending (label <$> [Edge "a"%byte (Some 1)])
  ∧ Forall (λ e, ∃ c cd, node e = Some c ∧ nodes heap_a !! c = Some cd
                         ∧ head (prefix cd) = Some (label e))
           [Edge "a"%byte (Some 1)]
  ∧ ∃ rd, nodes heap_a !! 2 = Some rd ∧ prefix rd = [].
Proof.
  split; [exact build_a|]. split; [apply node_of_self|].
  split; [reflexivity|]. split; [exact view_root_a|].
  exact (X12_edges_sorted_and_labelled [Insert key_a 1] (MkTree 2) heap_a 2
           (MkNode None [] (Slice (Some 0) 0 1)) [Edge "a"%byte (Some 1)]
           build_a (node_of_self _ _) eq_refl view_root_a).
Defined.

Lemma X13_shape_witness :
  ∃ T1 h1 T2 h2,
    build [Insert key_a 1; Insert key_b 2] empty_heap = Ok T1 h1
    ∧ build [Insert key_b 2; Insert key_a 3; Insert key_a 1] empty_heap = Ok T2 h2
    ∧ (∀ k v, Tree_Get T1 k h1 = Ok v h1 → Tree_Get T2 k h2 = Ok v h2)
    ∧ ∃ t n0, ∀ m,
        snapshot (n0 + m) h1 (tree_root T1) = Some t
        ∧ snapshot (n0 + m) h2 (tree_root T2) = Some t.
Proof.
  destruct (build_spec [Insert key_a 1; Insert key_b 2]) as (T1 & h1 & Hb1 & _).
  destruct (build_spec [Insert key_b 2; Insert key_a 3; Insert key_a 1])
    as (T2 & h2 & Hb2 & _).
  assert (∀ k v, Tree_Get T1 k h1 = Ok v h1 → Tree_Get T2 k h2 = Ok v h2) as Hsame.
  { intros k v. rewrite (build_get _ _ _ k Hb1), (build_get _ _ _ k Hb2).
    intros [= <-]. f_equal.
    destruct (decide (k = key_a)) as [->|Ha]; [vm_compute; reflexivity|].
    destruct (decide (k = key_b)) as [->|Hb]; [vm_compute; reflexivity|].
    unfold history_get. cbn [rev app last_write].
    rewrite !bool_decide_eq_false_2 by congruence. reflexivity. }
  exists T1, h1, T2, h2. split; [exact Hb1|]. split; [exact Hb2|].
  split; [exact Hsame|].
  exact (X13_shape_follows_contents _ _ T1 h1 T2 h2 Hb1 Hb2 Hsame).
Defined.

Lemma X14_leaves_witness :
  build [Insert key_a 1] empty_heap = Ok (MkTree 2) heap_a
  ∧ node_of heap_a 2 1
  ∧ nodes heap_a !! 1 = Some (MkNode (Some (LeafNode key_a 1)) key_a nil_slice)
  ∧ Tree_Get (MkTree 2) key_a heap_a = Ok (Some 1) heap_a.
Proof.
  split; [exact build_a|]. split; [exact node_of_leaf_a|]. split; [reflexivity|].
  exact (X14_leaves_are_found [Insert key_a 1] (MkTree 2) heap_a 1
           (MkNode (Some (LeafNode key_a 1)) key_a nil_slice) (LeafNode key_a 1)
           build_a node_of_leaf_a eq_refl eq_refl).
Defined.

Lemma X15_getEdge_witness :
  nodes heap_a !! 2 = Some (MkNode None [] (Slice (Some 0) 0 1))
  ∧ view heap_a (Slice (Some 0) 0 1) [Edge "a"%byte (Some 1)]
  ∧ ascending (label <$> [Edge "a"%byte (Some 1)])
  ∧ ((∃ i e, [Edge "a"%byte (Some 1)] !! i = Some e ∧ label e = "c"%byte
             ∧ getEdge 2 "c"%byte heap_a = Ok (Z.of_nat i, node e) heap_a)
     ∨ (("c"%byte ∉ label <$> [Edge "a"%byte (Some 1)])
        ∧ getEdge 2 "c"%byte heap_a = Ok ((-1)%Z, None) heap_a)).
Proof.
  split; [reflexivity|]. split; [exact view_root_a|]. split; [exact ascending_a|].
  exact (X15_getEdge_finds_the_label heap_a 2 _ _ "c"%byte eq_refl view_root_a ascending_a).
Defined.

Lemma X16_getLowerBoundEdge_witness :
  nodes heap_a !! 2 = Some (MkNode None [] (Slice (Some 0) 0 1))
  ∧ view heap_a (Slice (Some 0) 0 1) [Edge "a"%byte (Some 1)]
  ∧ ascending (label <$> [Edge "a"%byte (Some 1)])
  ∧ ((∃ i e, [Edge "a"%byte (Some 1)] !! i = Some e
             ∧ byte_ltb (label e) "A"%byte = false
             ∧ Forall (λ e', byte_ltb (label e') "A"%byte = true)
                      (take i [Edge "a"%byte (Some 1)])
             ∧ getLowerBoundEdge 2 "A"%byte heap_a = Ok (Z.of_nat i, node e) heap_a)
     ∨ (Forall (λ e', byte_ltb (label e') "A"%byte = true) [Edge "a"%byte (Some 1)]
        ∧ getLowerBoundEdge 2 "A"%byte heap_a = Ok ((-1)%Z, None) heap_a)).
Proof.
  split; [reflexivity|]. split; [exact view_root_a|]. split; [exact ascending_a|].
  exact (X16_getLowerBoundEdge_is_least heap_a 2 _ _ "A"%byte eq_refl view_root_a
           ascending_a).
Defined.

(** The heap after ["a"] and ["c"] are inserted into the empty tree; the
    root is the node 4, with its two edges in the array 2. *)
Definition heap_ac : heap nat :=
  Heap [MkNode None [] nil_slice;
        MkNode (Some (LeafNode key_a 1)) key_a nil_slice;
        MkNode None [] (Slice (Some 0) 0 1);
        MkNode (Some (LeafNode ["c"%byte] 2)) ["c"%byte] nil_slice;
        MkNode None [] (Slice (Some 2) 0 2)]
       [[Edge "a"%byte (Some 1)];
        [Edge "a"%byte (Some 1)];
        [Edge "a"%byte (Some 1); Edge "c"%byte (Some 3)]].

Lemma build_ac :
  build [Insert key_a 1; Insert ["c"%byte] 2] empty_heap = Ok (MkTree 4) heap_ac.
Proof. vm_compute. reflexivity. Defined.

Lemma view_root_ac :
  view heap_ac (Slice (Some 2) 0 2) [Edge "a"%byte (Some 1); Edge "c"%byte (Some 3)].
Proof.
  exists [Edge "a"%byte (Some 1); Edge "c"%byte (Some 3)].
  split; [reflexivity|]. split; [simpl; lia|reflexivity].
Defined.

Lemma ascending_ac :
  ascending (label <$> [Edge "a"%byte (Some 1); Edge "c"%byte (Some 3)]).
Proof. repeat constructor. Defined.

Lemma X17_replaceEdge_witness :
  nodes heap_ac !! 4 = Some (MkNode None [] (Slice (Some 2) 0 2))
  ∧ view heap_ac (Slice (Some 2) 0 2)
         [Edge "a"%byte (Some 1); Edge "c"%byte (Some 3)]
  ∧ ascending (label <$> [Edge "a"%byte (Some 1); Edge "c"%byte (Some 3)])
  ∧ (∃ h', replaceEdge 4 (Edge "c"%byte (Some 0)) heap_ac = Ok () h'
           ∧ nodes h' = nodes heap_ac
           ∧ arrays h'
             = [[Edge "a"%byte (Some 1)];
                [Edge "a"%byte (Some 1)];
                [Edge "a"%byte (Some 1); Edge "c"%byte (Some 0)]]
           ∧ view h' (Slice (Some 2) 0 2)
                  [Edge "a"%byte (Some 1); Edge "c"%byte (Some 0)])
  ∧ replaceEdge 4 (Edge "b"%byte (Some 0)) heap_ac = Panic ReplacingMissingEdge.
Proof.
  split; [reflexivity|]. split; [exact view_root_ac|]. split; [exact ascending_ac|].
  split.
  - destruct (X17_replaceEdge_or_panic heap_ac 4 _ _ (Edge "c"%byte (Some 0)) eq_refl
                view_root_ac ascending_ac)
      as [(i & e' & a & l & h' & Hi & Hl & Ha & Hal & _ & -> & Hrep & Hview)
         |[Hnin _]].
    + injection Ha as <-. injection Hal as <-.
      destruct i as [|[|i]]; cbn in Hi.
      * injection Hi as <-. discriminate Hl.
      * exists (Heap (nodes heap_ac)
                  (<[2 := <[0 + 1 := Edge "c"%byte (Some 0)]>
                            [Edge "a"%byte (Some 1); Edge "c"%byte (Some 3)]]>
                     (arrays heap_ac))).
        split; [exact Hrep|]. split; [reflexivity|]. split; [reflexivity|exact Hview].
      * discriminate Hi.
    + exfalso. apply Hnin. right. left.
  - destruct (X17_replaceEdge_or_panic heap_ac 4 _ _ (Edge "b"%byte (Some 0)) eq_refl
                view_root_ac ascending_ac)
      as [(i & e' & _ & _ & _ & Hi & Hl & _)|[_ Hpanic]]; [|exact Hpanic].
    destruct i as [|[|i]]; cbn in Hi; [| |discriminate Hi];
      injection Hi as <-; discriminate Hl.
Defined.
